(** * Subsampling of alchemical time series: a model of
      [alchemlyb/preprocessing/subsampling.py]

    The module groups a table of observables by lambda state, slices every
    group on its time index, and keeps the rows picked by the correlation
    analysis of [pymbar.timeseries].  The tables of pandas are modelled as
    lists of rows, the exceptions of Python as an error monad, and the
    functions of [pymbar.timeseries] as an interface the subsampler is
    parameterised by. *)

From Stdlib Require Import ZArith QArith Qround Lia Lqa.
From stdpp Require Import gmap strings list fin_maps sorting.

Close Scope Q_scope.
Open Scope Z_scope.

(** ** Exceptions *)

(** The three places that raise [KeyError("Duplicate time values found; ...")]:
    line 51 in [slicing], line 179 in [statistical_inefficiency] and line 317
    in [equilibrium_detection]. *)
Inductive site : Type :=
  | in_slicing
  | in_statistical_inefficiency
  | in_equilibrium_detection.

Inductive exn : Type :=
  | DuplicateTimes (s : site)          (* KeyError: duplicate time values *)
  | NoSuchColumn (c : option string)   (* KeyError of [group_s[column]] *)
  | NoObjectsToConcatenate             (* ValueError of [pd.concat([])] *)
  | SliceStepZero                      (* ValueError of a slice with step 0 *)
  | PositionOutOfBounds                (* IndexError of [.iloc] *)
  | TimeseriesError.                   (* any failure inside [pymbar.timeseries] *)

Inductive result (A : Type) : Type :=
  | Ok (a : A)
  | Raise (e : exn).
Arguments Ok {A} a.
Arguments Raise {A} e.

#[global] Instance result_ret : MRet result := λ A a, Ok a.
#[global] Instance result_bind : MBind result := λ A B f m,
  match m with
  | Ok a => f a
  | Raise e => Raise e
  end.

Definition is_duplicate_error {A} (r : result A) : bool :=
  match r with
  | Raise (DuplicateTimes _) => true
  | _ => false
  end.

Definition raises {A} (r : result A) : Prop := ∃ e, r = Raise e.

(** ** Tables *)

(** A row of an alchemlyb table: its index is [(time, lambda...)], its cells
    are the observables, one for every column of the table.  Time stamps and
    lambda values are only ever compared by the code below, so they are kept
    as exact numbers. *)
Record row : Type := Row {
  time : Z;
  lambdas : list Z;
  values : list Q
}.

Record DataFrame : Type := Frame {
  columns : list string;
  rows : list row
}.

#[global] Instance Q_eq_dec : EqDecision Q.
Proof. solve_decision. Defined.
#[global] Instance row_eq_dec : EqDecision row.
Proof. solve_decision. Defined.

(** Python's order on tuples, used by pandas for a [MultiIndex]. *)
Fixpoint tuple_leb (a b : list Z) : bool :=
  match a, b with
  | [], _ => true
  | _ :: _, [] => false
  | x :: a', y :: b' => (x <? y) || ((x =? y) && tuple_leb a' b')
  end.

Definition index_key (r : row) : list Z := time r :: lambdas r.
Definition index_leb (r1 r2 : row) : bool :=
  tuple_leb (index_key r1) (index_key r2).

(** [sort_index] is a stable sort on the index. *)
Section StableSort.
Context {A : Type} (leb : A → A → bool).

Fixpoint insert_sorted (x : A) (l : list A) : list A :=
  match l with
  | [] => [x]
  | y :: l' => if leb x y then x :: l else y :: insert_sorted x l'
  end.

Fixpoint stable_sort (l : list A) : list A :=
  match l with
  | [] => []
  | x :: l' => insert_sorted x (stable_sort l')
  end.
End StableSort.

(** The order a boolean comparison decides. *)
Definition le_of {A} (leb : A → A → bool) : relation A := λ x y, leb x y = true.

Definition sort_index (df : DataFrame) : DataFrame :=
  Frame (columns df) (stable_sort index_leb (rows df)).

(** [data.groupby(level=index_names)]: one group per lambda key, the keys in
    ascending order, every group keeping the order of the rows of [data]. *)
Fixpoint insert_key (k : list Z) (ks : list (list Z)) : list (list Z) :=
  match ks with
  | [] => [k]
  | k' :: ks' =>
      if decide (k = k') then ks
      else if tuple_leb k k' then k :: ks
      else k' :: insert_key k ks'
  end.

Definition tuple_lt (a b : list Z) : Prop := tuple_leb a b = true ∧ a ≠ b.

Definition group_keys (rs : list row) : list (list Z) :=
  foldr insert_key [] (lambdas <$> rs).

Definition group_rows (k : list Z) (rs : list row) : list row :=
  filter (λ r, lambdas r = k) rs.

Definition get_group (df : DataFrame) (k : list Z) : DataFrame :=
  Frame (columns df) (group_rows k (rows df)).

Definition groupby (df : DataFrame) : list (list Z * DataFrame) :=
  (λ k, (k, get_group df k)) <$> group_keys (rows df).

(** [group.loc[lower:upper:step]] on a group sorted by time.  pandas turns
    the two labels into positions by bisection on the time level and then
    takes the positional slice.  For a step that is unset or positive the
    positions are the one left of [lower] and the one right of [upper], and
    the rows between them are walked upwards.  For a negative step the two
    labels change roles: the walk starts at the last row that is not after
    [lower] and goes downwards to the first row that is not before [upper].
    An unset bound is the end of the group on its side, an unset step is 1,
    and a step of 0 is refused with a [ValueError] when the slice is taken. *)
Fixpoint bisect (p : row → bool) (rs : list row) : nat :=
  match rs with
  | [] => 0%nat
  | r :: rs' => if p r then S (bisect p rs') else 0%nat
  end.

Definition before (lower : option Z) (r : row) : bool :=
  match lower with
  | None => false
  | Some lo => time r <? lo
  end.

Definition upto (upper : option Z) (r : row) : bool :=
  match upper with
  | None => true
  | Some up => time r <=? up
  end.

Fixpoint every_from {A} (skip step : nat) (l : list A) : list A :=
  match l with
  | [] => []
  | x :: l' =>
      match skip with
      | O => x :: every_from (step - 1) step l'
      | S s => every_from s step l'
      end
  end.

(** [l[start:stop:step]] for [0 <= start], [stop <= len(l)] and [step >= 1]. *)
Definition slice {A} (start stop : nat) (step : positive) (l : list A) : list A :=
  every_from 0 (Pos.to_nat step) (take (stop - start) (drop start l)).

(** [l[stop - 1 : start - 1 : -step]] for [0 <= start], [stop <= len(l)] and
    [step >= 1], a bound of [-1] standing for the position before the first
    element: the elements at the positions [stop - 1], [stop - 1 - step], ...
    as long as they are not below [start]. *)
Definition slice_back {A} (start stop : nat) (step : positive) (l : list A)
    : list A :=
  every_from 0 (Pos.to_nat step) (reverse (take (stop - start) (drop start l))).

Definition loc (df : DataFrame) (lower upper : option Z) (step : option Z)
    : result DataFrame :=
  match default 1 step with
  | 0 => Raise SliceStepZero
  | Z.pos s =>
      let start := bisect (before lower) (rows df) in
      let stop := bisect (upto upper) (rows df) in
      Ok (Frame (columns df) (slice start stop s (rows df)))
  | Z.neg s =>
      let start := bisect (before upper) (rows df) in
      let stop := bisect (upto lower) (rows df) in
      Ok (Frame (columns df) (slice_back start stop s (rows df)))
  end.

(** [.duplicated('time')] marks every row whose time was seen before. *)
Fixpoint duplicated (seen ts : list Z) : list bool :=
  match ts with
  | [] => []
  | t :: ts' => bool_decide (t ∈ seen) :: duplicated (t :: seen) ts'
  end.

Definition any (bs : list bool) : bool := existsb id bs.

(** [data.sort_index(0).reset_index(0).duplicated('time').any()] *)
Definition _check_multiple_times (data : DataFrame) : bool :=
  any (duplicated [] (time <$> rows (sort_index data))).

(** [pd.concat(resdata)]; all frames of one call have the same columns. *)
Definition pd_concat (resdata : list DataFrame) : result DataFrame :=
  match resdata with
  | [] => Raise NoObjectsToConcatenate
  | df :: _ => Ok (Frame (columns df) (mjoin (rows <$> resdata)))
  end.

(** ** [slicing] *)

Fixpoint slicing_loop (groups : list (list Z * DataFrame))
    (lower upper : option Z) (step : option Z) (force : bool)
    (resdata : list DataFrame) : result (list DataFrame) :=
  match groups with
  | [] => Ok resdata
  | (name, group) :: groups' =>
      group_s ← loc group lower upper step;
      if negb force && _check_multiple_times group_s
      then Raise (DuplicateTimes in_slicing)
      else slicing_loop groups' lower upper step force (resdata ++ [group_s])
  end.

Definition slicing (data : DataFrame) (lower upper : option Z)
    (step : option Z) (force : bool) : result DataFrame :=
  let data := sort_index data in
  resdata ← slicing_loop (groupby data) lower upper step force [];
  pd_concat resdata.

(** The group [k] after slicing: line 48 for that group of the sorted
    table, with the [group_s] it assigns or the exception it raises. *)
Definition sliced_group (data : DataFrame) (k : list Z) (lower upper : option Z)
    (step : option Z) : result DataFrame :=
  loc (get_group (sort_index data) k) lower upper step.

(** Every lambda-state group has unique time values. *)
Definition unique_times (df : DataFrame) : Prop :=
  Forall (λ k, NoDup (time <$> group_rows k (rows df))) (group_keys (rows df)).

#[global] Instance unique_times_dec df : Decision (unique_times df).
Proof. unfold unique_times. apply _. Defined.

(** Lambda-state-key-major order: by lambda key first, by time within a key. *)
Definition lambda_major (r1 r2 : row) : Prop :=
  tuple_lt (lambdas r1) (lambdas r2) ∨
  (lambdas r1 = lambdas r2 ∧ time r1 < time r2).

(** ** Series, positions and the diagnostics record *)

(** A Python float as far as this module looks at one: a number or NaN. *)
Inductive pyfloat : Type :=
  | NaN
  | Fin (q : Q).

(** [group_s[column]]: the cells of one column, a [KeyError] when the frame
    has no column of that label ([None] is the label of no column).  A
    [Series] passed as [column] is outside this model. *)
Definition getitem (df : DataFrame) (column : option string) : result (list Q) :=
  match column with
  | None => Raise (NoSuchColumn None)
  | Some c =>
      match list_find (λ c', c' = c) (columns df) with
      | Some (i, _) => Ok ((λ r, nth i (values r) 0%Q) <$> rows df)
      | None => Raise (NoSuchColumn column)
      end
  end.

(** [group_s.iloc[indices]] for a list of positions. *)
Fixpoint take_rows (rs : list row) (indices : list nat) : result (list row) :=
  match indices with
  | [] => Ok []
  | i :: indices' =>
      match rs !! i with
      | None => Raise PositionOutOfBounds
      | Some r => picked ← take_rows rs indices'; Ok (r :: picked)
      end
  end.

Definition iloc (df : DataFrame) (indices : list nat) : result DataFrame :=
  picked ← take_rows (rows df) indices;
  Ok (Frame (columns df) picked).

(** [group_s.iloc[t:]] *)
Definition iloc_from (df : DataFrame) (t : nat) : DataFrame :=
  Frame (columns df) (drop t (rows df)).

(** [calculated = defaultdict(dict)] and [calculated[stat][name] = v]. *)
Abbreviation diagnostics := (gmap string (gmap (list Z) pyfloat)).

Definition setitem (calculated : diagnostics) (stat : string) (name : list Z)
    (v : pyfloat) : diagnostics :=
  <[stat := <[name := v]> (default ∅ (calculated !! stat))]> calculated.

(** ** The correlation analysis of [pymbar.timeseries] *)

(** The three functions the module calls; they are not part of this
    repository. *)
Record Timeseries : Type := {
  statisticalInefficiency : list Q → result pyfloat;
  subsampleCorrelatedData : list Q → pyfloat → bool → result (list nat);
  detectEquilibration : list Q → result (nat * pyfloat * pyfloat)
}.

(** The [how] argument of both subsamplers. *)
Inductive how_t : Type :=
  | how_auto
  | how_right
  | how_left
  | how_random
  | how_sum.

(** Line 172 of the source, [if column:], is followed by no indented block:
    the loop of line 174 stands at the indentation of the [if] itself.  Both
    ways of completing the block are modelled: the [if] guards nothing and
    the loop follows it, or the loop is the body of the [if]. *)
Inductive block_reading : Type :=
  | loop_after_if
  | loop_inside_if.

(** [bool(column)] for [None] or a string label. *)
Definition truth (column : option string) : bool :=
  match column with
  | None => false
  | Some c => negb (bool_decide (c = EmptyString))
  end.

Section Subsampler.
Variable timeseries : Timeseries.

(** ** [statistical_inefficiency] *)

(** The body of the loop of lines 174-190 for one group: the rows that
    survive and the statistical inefficiency of the group. *)
Definition statistical_inefficiency_group (group : DataFrame)
    (column : option string) (lower upper : option Z)
    (step : option Z) (conservative force : bool)
    : result (DataFrame * pyfloat) :=
  group_s ← slicing group lower upper step false;
  if negb force && _check_multiple_times group
  then Raise (DuplicateTimes in_statistical_inefficiency)
  else
    series ← getitem group_s column;
    statinef ← timeseries.(statisticalInefficiency) series;
    indices ← timeseries.(subsampleCorrelatedData) series statinef conservative;
    picked ← iloc group_s indices;
    Ok (picked, statinef).

Fixpoint statistical_inefficiency_loop (groups : list (list Z * DataFrame))
    (column : option string) (lower upper : option Z)
    (step : option Z) (conservative return_calculated force : bool)
    (resdata : list DataFrame) (calculated : diagnostics)
    : result (list DataFrame * diagnostics) :=
  match groups with
  | [] => Ok (resdata, calculated)
  | (name, group) :: groups' =>
      '(picked, statinef) ←
        statistical_inefficiency_group group column lower upper step
          conservative force;
      let calculated :=
        if return_calculated
        then setitem calculated "statinef" name statinef
        else calculated in
      statistical_inefficiency_loop groups' column lower upper step
        conservative return_calculated force (resdata ++ [picked]) calculated
  end.

Definition statistical_inefficiency (reading : block_reading)
    (data : DataFrame) (how : how_t) (column : option string)
    (lower upper : option Z) (step : option Z)
    (conservative return_calculated force : bool)
    : result (DataFrame * option diagnostics) :=
  let data := sort_index data in
  let enters :=
    match reading with
    | loop_after_if => true
    | loop_inside_if => truth column
    end in
  '(resdata, calculated) ←
    (if enters
     then statistical_inefficiency_loop (groupby data) column lower upper
            step conservative return_calculated force [] ∅
     else Ok ([], ∅));
  df ← pd_concat resdata;
  Ok (df, if return_calculated then Some calculated else None).

(** ** [equilibrium_detection] *)

(** The body of the loop of lines 314-331 for one group: the rows that
    survive and the three values [detectEquilibration] returned. *)
Definition equilibrium_detection_group (group : DataFrame)
    (column : option string) (lower upper : option Z)
    (step : option Z) (conservative force : bool)
    : result (DataFrame * (nat * pyfloat * pyfloat)) :=
  group_s ← slicing group lower upper step false;
  if negb force && _check_multiple_times group
  then Raise (DuplicateTimes in_equilibrium_detection)
  else
    series ← getitem group_s column;
    '(t, statinef, Neff_max) ← timeseries.(detectEquilibration) series;
    let group_s := iloc_from group_s t in
    series ← getitem group_s column;
    indices ← timeseries.(subsampleCorrelatedData) series statinef conservative;
    picked ← iloc group_s indices;
    Ok (picked, (t, statinef, Neff_max)).

Fixpoint equilibrium_detection_loop (groups : list (list Z * DataFrame))
    (column : option string) (lower upper : option Z)
    (step : option Z) (conservative return_calculated force : bool)
    (resdata : list DataFrame) (calculated : diagnostics)
    : result (list DataFrame * diagnostics) :=
  match groups with
  | [] => Ok (resdata, calculated)
  | (name, group) :: groups' =>
      '(picked, (t, statinef, Neff_max)) ←
        equilibrium_detection_group group column lower upper step
          conservative force;
      let calculated :=
        if return_calculated
        then setitem (setitem (setitem calculated "t" name statinef)
                        "statinef" name statinef) "Neff_max" name statinef
        else calculated in
      equilibrium_detection_loop groups' column lower upper step
        conservative return_calculated force (resdata ++ [picked]) calculated
  end.

Definition equilibrium_detection (data : DataFrame) (how : how_t)
    (column : option string) (lower upper : option Z)
    (step : option Z) (conservative return_calculated force : bool)
    : result (DataFrame * option diagnostics) :=
  let data := sort_index data in
  '(resdata, calculated) ←
    equilibrium_detection_loop (groupby data) column lower upper step
      conservative return_calculated force [] ∅;
  df ← pd_concat resdata;
  Ok (df, if return_calculated then Some calculated else None).
End Subsampler.

(** An entry [calculated[stat][name]] of the diagnostics record. *)
Definition entry (calculated : diagnostics) (stat : string) (name : list Z)
    : option pyfloat :=
  calculated !! stat ≫= (.!! name).

(** ** The subsample-index routine *)

Module pymbar.

(** Python's [round] on an exact number: to the nearest integer, a tie to
    the even one. *)
Definition round (q : Q) : Z :=
  let f := Qfloor q in
  match (q - inject_Z f ?= 1 # 2)%Q with
  | Lt => f
  | Gt => f + 1
  | Eq => if Z.even f then f else f + 1
  end.

(** [range(0, T, stride)] *)
Definition range (T stride : nat) : list nat := every_from 0 stride (seq 0 T).

(** Modelled from the spec: [conservative=True] of the subsample-index
    routine of the correlation collaborator, which is not part of this
    repository: [g] is rounded up to an integer stride, and the positions
    are uniformly spaced by it. *)
Definition conservative_indices (T : nat) (g : Q) : list nat :=
  range T (Z.to_nat (Qceiling g)).

(** Modelled from the spec: [conservative=False] of the same routine, the
    fractional stride: the positions [round(n * g)] for [n = 0, 1, ...] as
    long as they are below the length [T] of the series.  For [1 <= g] the
    loop ends before [n] exceeds [T], which bounds the fuel. *)
Fixpoint fractional_loop (fuel n T : nat) (g : Q) : list nat :=
  match fuel with
  | O => []
  | S fuel' =>
      let t := round (inject_Z (Z.of_nat n) * g) in
      if t <? Z.of_nat T
      then Z.to_nat t :: fractional_loop fuel' (S n) T g
      else []
  end.

(** The loop started at [n = 0]. *)
Definition fractional_indices (T : nat) (g : Q) : list nat :=
  fractional_loop (S T) 0 T g.

(** Modelled from the spec: [subsample_indices(series, g, conservative)],
    on the estimates the collaborator can return ([g >= 1.0], section 6 of
    the specification); the model gives no index set for any other [g]. *)
Definition subsampleCorrelatedData (A_t : list Q) (g : pyfloat)
    (conservative : bool) : result (list nat) :=
  match g with
  | NaN => Raise TimeseriesError
  | Fin g =>
      let T := length A_t in
      if Qle_bool 1 g
      then Ok (if conservative
               then conservative_indices T g
               else fractional_indices T g)
      else Raise TimeseriesError
  end.

End pymbar.

(** The collaborator with the subsample-index routine above and the two
    estimators given. *)
Definition with_estimators (estimate : list Q → result pyfloat)
    (detect : list Q → result (nat * pyfloat * pyfloat)) : Timeseries :=
  {| statisticalInefficiency := estimate;
     subsampleCorrelatedData := pymbar.subsampleCorrelatedData;
     detectEquilibration := detect |}.

(** The contract of the subsample-index routine (section 3 of the
    specification): the positions come in increasing order. *)
Definition ordered_positions (ts : Timeseries) : Prop :=
  ∀ series g conservative indices,
    ts.(subsampleCorrelatedData) series g conservative = Ok indices →
    StronglySorted lt indices.

(** ** Sample collaborators and tables *)

(** A collaborator whose estimators return the same values for every series:
    [g = 1.5], cutoff position 1 and effective sample size 2. *)
Definition steady : Timeseries :=
  with_estimators (λ _, Ok (Fin (3 # 2)))
                  (λ _, Ok (1%nat, Fin (3 # 2), Fin 2)).

(** A collaborator whose estimators fail on a series without values. *)
Definition strict : Timeseries :=
  with_estimators
    (λ A_n, match A_n with [] => Raise TimeseriesError | _ => Ok (Fin (3 # 2)) end)
    (λ A_t, match A_t with
            | [] => Raise TimeseriesError
            | _ => Ok (1%nat, Fin (3 # 2), Fin 2)
            end).

(** One row of a table with a single lambda dimension and the single
    observable column ["fep"]. *)
Definition obs (t : Z) (l : Z) (v : Q) : row := Row t [l] [v].

(** Two lambda states sampled at the same two times. *)
Definition interleaved : DataFrame :=
  Frame ["fep"] [obs 0 0 (1#2); obs 0 1 (3#2); obs 1 0 (5#2); obs 1 1 (7#2)].

(** One lambda state in which the time 1 occurs twice. *)
Definition repeated : DataFrame :=
  Frame ["fep"] [obs 0 0 (1#2); obs 1 0 (3#2); obs 1 0 (5#2)].

(** One lambda state in which the time 0 occurs twice and the later times
    once. *)
Definition early_repeat : DataFrame :=
  Frame ["fep"] [obs 0 0 (1#2); obs 0 0 (3#2); obs 5 0 (5#2); obs 6 0 (7#2)].

(** Two lambda states sampled in different time windows. *)
Definition two_windows : DataFrame :=
  Frame ["fep"] [obs 0 0 (1#2); obs 1 0 (3#2); obs 2 0 (5#2);
                 obs 10 1 (1#2); obs 11 1 (3#2); obs 12 1 (5#2)].

(** One lambda state sampled at six times. *)
Definition single : DataFrame :=
  Frame ["fep"] [obs 0 0 (1#2); obs 1 0 (3#2); obs 2 0 (5#2);
                 obs 3 0 (1#2); obs 4 0 (3#2); obs 5 0 (5#2)].

(** ** Notions for the properties of the subsamplers *)

(** The time of a row lies between the bounds, both inclusive; an unset
    bound bounds nothing. *)
Definition in_range (lower upper : option Z) (r : row) : Prop :=
  from_option (λ lo, lo ≤ time r) True lower ∧
  from_option (λ up, time r ≤ up) True upper.

#[global] Instance in_range_dec lower upper r : Decision (in_range lower upper r).
Proof. unfold in_range. destruct lower, upper; simpl; apply _. Defined.

(** The direction and the stride of a slice with a given step: a negative
    step walks backwards, the stride is the absolute value of the step, and
    an unset step is the step 1. *)
Definition backward (step : option Z) : bool :=
  match step with
  | Some (Z.neg _) => true
  | _ => false
  end.

Definition stride (step : option Z) : nat := Z.to_nat (Z.abs (default 1 step)).

(** The time of a row lies in the window of a label slice: between [lower]
    and [upper] for a forward slice, between [upper] and [lower] for a
    backward one. *)
Definition in_window (lower upper : option Z) (step : option Z) (r : row)
    : Prop :=
  if backward step then in_range upper lower r else in_range lower upper r.

(** The rows of a list in the window of a label slice, in the order in which
    the slice walks them. *)
Definition window_rows (lower upper : option Z) (step : option Z)
    (rs : list row) : list row :=
  if backward step
  then reverse (filter (in_range upper lower) rs)
  else filter (in_range lower upper) rs.

(** The order of time along the walk of a slice: ascending for a forward
    slice, descending for a backward one. *)
Definition time_order (step : option Z) (r1 r2 : row) : Prop :=
  if backward step then time r2 < time r1 else time r1 < time r2.

(** Lambda-state-key-major order along the walk of a slice: by lambda key
    first, by [time_order] within a key. *)
Definition walk_major (step : option Z) (r1 r2 : row) : Prop :=
  tuple_lt (lambdas r1) (lambdas r2) ∨
  (lambdas r1 = lambdas r2 ∧ time_order step r1 r2).

(** What [loc] returns when it returns, that is for a step other than 0,
    written with [stride] and [backward]: of the rows between the two
    positions, taken in the direction of the walk, the first and every
    [stride]-th after it.  [sliced_frame] is that frame for the group [k]
    of the sorted table. *)
Definition window (lo hi : option Z) (rs : list row) : list row :=
  take (bisect (upto hi) rs - bisect (before lo) rs)
       (drop (bisect (before lo) rs) rs).

Definition loc_frame (df : DataFrame) (lower upper : option Z)
    (step : option Z) : DataFrame :=
  Frame (columns df)
    (every_from 0 (stride step)
       (if backward step
        then reverse (window upper lower (rows df))
        else window lower upper (rows df))).

Definition sliced_frame (data : DataFrame) (k : list Z)
    (lower upper : option Z) (step : option Z) : DataFrame :=
  loc_frame (get_group (sort_index data) k) lower upper step.

(** The outcome of a call when only the first component of its value is
    looked at: the table a subsampler returns, without the record. *)
#[global] Instance result_fmap : FMap result := λ A B f m,
  match m with
  | Ok a => Ok (f a)
  | Raise e => Raise e
  end.

(** A table without rows. *)
Definition no_rows : DataFrame := Frame ["fep"] [].

(** The tighter of two lower bounds and of two upper bounds. *)
Definition both_lower (lower1 lower2 : option Z) : option Z :=
  match lower1, lower2 with
  | Some a, Some b => Some (Z.max a b)
  | Some a, None => Some a
  | None, b => b
  end.

Definition both_upper (upper1 upper2 : option Z) : option Z :=
  match upper1, upper2 with
  | Some a, Some b => Some (Z.min a b)
  | Some a, None => Some a
  | None, b => b
  end.
(** * Properties of the table operations *)

(** Closes a decidable goal on concrete data by evaluating its decision
    procedure. *)
Ltac decide_by_computation :=
  apply (bool_decide_unpack _); vm_compute; exact I.

(** ** The order of the index *)

Lemma tuple_leb_refl a : tuple_leb a a = true.
Proof.
  induction a as [|x a IH]; simpl; [done|].
  rewrite Z.eqb_refl, IH. by rewrite orb_true_r.
Qed.

Lemma tuple_leb_total a b : tuple_leb a b = true ∨ tuple_leb b a = true.
Proof.
  revert b. induction a as [|x a IH]; intros [|y b]; simpl; auto.
  destruct (Z.ltb_spec x y), (Z.ltb_spec y x), (Z.eqb_spec x y),
    (Z.eqb_spec y x); simpl; auto; try lia.
Qed.

Lemma tuple_leb_trans a b c :
  tuple_leb a b = true → tuple_leb b c = true → tuple_leb a c = true.
Proof.
  revert b c. induction a as [|x a IH]; intros [|y b] [|z c]; simpl; try done.
  destruct (Z.ltb_spec x y), (Z.ltb_spec y z), (Z.ltb_spec x z),
    (Z.eqb_spec x y), (Z.eqb_spec y z), (Z.eqb_spec x z);
    simpl; try done; try lia.
  apply IH.
Qed.

Lemma tuple_leb_antisym a b :
  tuple_leb a b = true → tuple_leb b a = true → a = b.
Proof.
  revert b. induction a as [|x a IH]; intros [|y b]; simpl; try done.
  destruct (Z.ltb_spec x y), (Z.ltb_spec y x), (Z.eqb_spec x y),
    (Z.eqb_spec y x); simpl; try done; try lia.
  intros. f_equal; auto.
Qed.

Lemma index_leb_total r1 r2 : index_leb r1 r2 = true ∨ index_leb r2 r1 = true.
Proof. apply tuple_leb_total. Qed.

Lemma index_leb_trans r1 r2 r3 :
  index_leb r1 r2 = true → index_leb r2 r3 = true → index_leb r1 r3 = true.
Proof. apply tuple_leb_trans. Qed.

Lemma index_leb_time r1 r2 : index_leb r1 r2 = true → time r1 ≤ time r2.
Proof.
  unfold index_leb, index_key. simpl.
  destruct (Z.ltb_spec (time r1) (time r2)), (Z.eqb_spec (time r1) (time r2));
    simpl; try done; lia.
Qed.

(** ** The stable sort *)

Section StableSortFacts.
Context {A : Type} (leb : A → A → bool).
Hypothesis leb_total : ∀ x y, leb x y = true ∨ leb y x = true.
Hypothesis leb_trans : ∀ x y z, leb x y = true → leb y z = true → leb x z = true.

Local Abbreviation le := (le_of leb).

Lemma Forall_filter_of (Q : A → Prop) (P : A → Prop) `{!∀ x, Decision (P x)} l :
  Forall Q l → Forall Q (filter P l).
Proof.
  rewrite !Forall_forall. intros HQ x [_ ?]%list_elem_of_filter. auto.
Qed.

Lemma insert_sorted_perm x l : insert_sorted leb x l ≡ₚ x :: l.
Proof.
  induction l as [|y l IH]; simpl; [done|].
  destruct (leb x y); [done|]. rewrite IH. apply Permutation_swap.
Qed.

Lemma stable_sort_perm l : stable_sort leb l ≡ₚ l.
Proof.
  induction l as [|x l IH]; simpl; [done|].
  by rewrite insert_sorted_perm, IH.
Qed.

Lemma insert_sorted_head x l :
  Forall (le x) l → insert_sorted leb x l = x :: l.
Proof. destruct 1 as [|y l Hy _]; simpl; [done|]. by rewrite Hy. Qed.

Lemma insert_sorted_sorted x l :
  StronglySorted le l → StronglySorted le (insert_sorted leb x l).
Proof.
  induction 1 as [|y l Hl IH Hy]; simpl.
  - repeat constructor.
  - destruct (leb x y) eqn:Hxy.
    + constructor; [by constructor|]. constructor; [done|].
      eapply Forall_impl; [exact Hy|]. intros z Hz. by eapply leb_trans.
    + constructor; [done|].
      rewrite insert_sorted_perm. constructor; [|done].
      destruct (leb_total x y); [congruence|done].
Qed.

Lemma stable_sort_sorted l : StronglySorted le (stable_sort leb l).
Proof.
  induction l; simpl; [constructor|]. by apply insert_sorted_sorted.
Qed.

Lemma stable_sort_id l : StronglySorted le l → stable_sort leb l = l.
Proof.
  induction 1 as [|x l Hl IH Hx]; simpl; [done|].
  rewrite IH. by apply insert_sorted_head.
Qed.

Lemma StronglySorted_filter (P : A → Prop) `{!∀ x, Decision (P x)} l :
  StronglySorted le l → StronglySorted le (filter P l).
Proof.
  induction 1 as [|x l Hl IH Hx]; [constructor|].
  rewrite filter_cons. case_decide; [|done].
  constructor; [done|]. by apply Forall_filter_of.
Qed.

(** Stability: sorting commutes with taking the rows of one group. *)
Lemma filter_insert_sorted (P : A → Prop) `{!∀ x, Decision (P x)} x l :
  StronglySorted le l →
  filter P (insert_sorted leb x l) =
    if decide (P x) then insert_sorted leb x (filter P l) else filter P l.
Proof.
  induction 1 as [|y l Hl IH Hy]; simpl.
  - rewrite filter_cons. by case_decide.
  - destruct (leb x y) eqn:Hxy.
    + rewrite (filter_cons _ x). case_decide; [|done].
      symmetry. apply insert_sorted_head.
      apply Forall_filter_of. constructor; [done|].
      eapply Forall_impl; [exact Hy|]. intros z Hz. by eapply leb_trans.
    + rewrite !(filter_cons _ y), IH.
      destruct (decide (P y)), (decide (P x)); simpl; try done.
      by rewrite Hxy.
Qed.

Lemma filter_stable_sort (P : A → Prop) `{!∀ x, Decision (P x)} l :
  filter P (stable_sort leb l) = stable_sort leb (filter P l).
Proof.
  induction l as [|x l IH]; simpl; [done|].
  rewrite filter_insert_sorted by apply stable_sort_sorted.
  rewrite filter_cons. case_decide; simpl; by rewrite IH.
Qed.
End StableSortFacts.

(** ** [groupby] *)

Lemma elem_of_insert_key k k' ks : k ∈ insert_key k' ks ↔ k = k' ∨ k ∈ ks.
Proof.
  induction ks as [|k0 ks IH]; simpl.
  - rewrite list_elem_of_singleton. set_solver.
  - destruct (decide (k' = k0)) as [->|]; [set_solver|].
    destruct (tuple_leb k' k0); [set_solver|].
    rewrite !elem_of_cons, IH. tauto.
Qed.

Lemma elem_of_group_keys k rs : k ∈ group_keys rs ↔ ∃ r, r ∈ rs ∧ lambdas r = k.
Proof.
  unfold group_keys. induction rs as [|r rs IH]; simpl.
  - split; [by intros ?%elem_of_nil|]. by intros (? & ?%elem_of_nil & _).
  - rewrite elem_of_insert_key, IH. split.
    + intros [->|(r' & ? & ?)]; [exists r|exists r']; set_solver.
    + intros (r' & [->|?]%elem_of_cons & ?); [by left|right; eauto].
Qed.

Lemma tuple_lt_trans a b c : tuple_lt a b → tuple_lt b c → tuple_lt a c.
Proof.
  intros [Hab Hne] [Hbc Hne']. split; [by eapply tuple_leb_trans|].
  intros ->. apply Hne. by apply tuple_leb_antisym.
Qed.

Lemma insert_key_sorted k ks :
  StronglySorted tuple_lt ks → StronglySorted tuple_lt (insert_key k ks).
Proof.
  induction 1 as [|k0 ks Hks IH Hk0]; simpl; [repeat constructor|].
  destruct (decide (k = k0)) as [->|Hne]; [by constructor|].
  destruct (tuple_leb k k0) eqn:Hle.
  - constructor; [by constructor|]. constructor; [done|].
    eapply Forall_impl; [exact Hk0|]. intros z Hz.
    by apply (tuple_lt_trans _ k0).
  - constructor; [done|]. apply Forall_forall. intros z.
    rewrite elem_of_insert_key. intros [->|Hz].
    + split; [|done]. destruct (tuple_leb_total k k0); congruence.
    + by eapply Forall_forall in Hk0.
Qed.

Lemma group_keys_sorted rs : StronglySorted tuple_lt (group_keys rs).
Proof.
  unfold group_keys. induction rs; simpl; [constructor|].
  by apply insert_key_sorted.
Qed.

Lemma group_keys_NoDup rs : NoDup (group_keys rs).
Proof.
  induction (group_keys_sorted rs) as [|k ks _ IH Hk]; constructor; [|done].
  intros Hin. eapply Forall_forall in Hk; [|done]. by destruct Hk.
Qed.

Lemma group_keys_single k rs :
  rs ≠ [] → Forall (λ r, lambdas r = k) rs → group_keys rs = [k].
Proof.
  unfold group_keys. intros Hne Hall.
  induction Hall as [|r rs Hr Hall IH]; [done|].
  destruct rs as [|r' rs]; [by simpl; rewrite Hr|].
  specialize (IH ltac:(done)). simpl in *. rewrite IH, Hr. simpl.
  by rewrite decide_True.
Qed.

Lemma group_rows_key k rs : Forall (λ r, lambdas r = k) (group_rows k rs).
Proof. apply Forall_forall. by intros r [? _]%list_elem_of_filter. Qed.

Lemma group_rows_all k rs :
  Forall (λ r, lambdas r = k) rs → group_rows k rs = rs.
Proof.
  unfold group_rows. induction 1 as [|r rs Hr _ IH]; [done|].
  by rewrite filter_cons_True, IH.
Qed.

Lemma group_rows_other k k' rs :
  k ≠ k' → Forall (λ r, lambdas r = k') rs → group_rows k rs = [].
Proof.
  unfold group_rows. intros Hne. induction 1 as [|r rs Hr _ IH]; [done|].
  rewrite filter_cons_False by congruence. done.
Qed.

Lemma group_rows_nonempty k rs : k ∈ group_keys rs → group_rows k rs ≠ [].
Proof.
  intros (r & Hr & Hk)%elem_of_group_keys Hnil.
  assert (r ∈ group_rows k rs) as Hin by by apply list_elem_of_filter.
  rewrite Hnil in Hin. by apply elem_of_nil in Hin.
Qed.

Lemma group_keys_nonempty rs : rs ≠ [] → group_keys rs ≠ [].
Proof.
  destruct rs as [|r rs]; [done|]. intros _ Hnil.
  assert (lambdas r ∈ group_keys (r :: rs)) as Hin.
  { apply elem_of_group_keys. exists r. split; [by left|done]. }
  rewrite Hnil in Hin. by apply elem_of_nil in Hin.
Qed.

(** ** Duplicate time stamps *)

Lemma any_duplicated seen ts :
  any (duplicated seen ts) = false ↔ NoDup ts ∧ ∀ t, t ∈ ts → t ∉ seen.
Proof.
  unfold any. revert seen. induction ts as [|t ts IH]; intros seen; simpl.
  - split; [|done]. intros _. split; [constructor|]. by intros ? ?%elem_of_nil.
  - rewrite orb_false_iff, IH, NoDup_cons. unfold id.
    rewrite bool_decide_eq_false. split.
    + intros (Ht & Hnd & Hseen). split_and!; [|done|].
      * intros Hin. apply (Hseen t Hin). by left.
      * intros t' [->|Hin]%elem_of_cons; [done|].
        intros ?. apply (Hseen t' Hin). by right.
    + intros ((Hnt & Hnd) & Hseen). split_and!; [set_solver|done|].
      intros t' Hin [->|?]%elem_of_cons; [done|]. by apply (Hseen t'); [right|].
Qed.

Lemma check_multiple_times_false df :
  _check_multiple_times df = false ↔ NoDup (time <$> rows df).
Proof.
  unfold _check_multiple_times, sort_index. simpl.
  rewrite any_duplicated, stable_sort_perm. split; [tauto|].
  intros ?. split; [done|]. by intros ? _ ?%elem_of_nil.
Qed.

Lemma check_multiple_times_true df :
  _check_multiple_times df = true ↔ ¬ NoDup (time <$> rows df).
Proof.
  rewrite <-check_multiple_times_false. by destruct (_check_multiple_times df).
Qed.

(** ** Label slices *)

Lemma every_from_sublist {A} skip step (l : list A) :
  every_from skip step l `sublist_of` l.
Proof.
  revert skip. induction l as [|x l IH]; intros skip; simpl; [done|].
  destruct skip; [by apply sublist_skip|by apply sublist_cons].
Qed.

Lemma every_from_one {A} (l : list A) : every_from 0 1 l = l.
Proof. induction l; simpl; [done|]. by f_equal. Qed.

Lemma sublist_reverse {A} (l1 l2 : list A) :
  l1 `sublist_of` l2 → reverse l1 `sublist_of` reverse l2.
Proof.
  induction 1 as [|x l1 l2 _ IH|x l1 l2 _ IH]; [done|..];
    rewrite ?reverse_cons.
  - by apply sublist_app.
  - by apply sublist_inserts_r.
Qed.

Lemma StronglySorted_reverse {A} (R : relation A) l :
  StronglySorted R l → StronglySorted (flip R) (reverse l).
Proof.
  induction 1 as [|x l _ IH Hx]; [constructor|].
  rewrite reverse_cons. apply StronglySorted_app_2; [|done|repeat constructor].
  intros y z Hy ->%list_elem_of_singleton. rewrite elem_of_reverse in Hy.
  rewrite Forall_forall in Hx. by apply Hx.
Qed.

Lemma stride_pos step : step ≠ Some 0 → (1 ≤ stride step)%nat.
Proof. unfold stride. destruct step as [[|s|s]|]; simpl; [done|lia..]. Qed.

(** [loc] raises on a step of 0 and returns [loc_frame] on any other. *)
Lemma loc_eq df lower upper step :
  loc df lower upper step =
    if decide (step = Some 0) then Raise SliceStepZero
    else Ok (loc_frame df lower upper step).
Proof. by destruct step as [[|s|s]|]. Qed.

Lemma loc_nonzero df lower upper step :
  step ≠ Some 0 → loc df lower upper step = Ok (loc_frame df lower upper step).
Proof. intros Hs. by rewrite loc_eq, decide_False. Qed.

Lemma loc_zero df lower upper : loc df lower upper (Some 0) = Raise SliceStepZero.
Proof. done. Qed.

Lemma loc_Ok df lower upper step group_s :
  loc df lower upper step = Ok group_s →
  step ≠ Some 0 ∧ group_s = loc_frame df lower upper step.
Proof. rewrite loc_eq. case_decide; [done|]. by intros [= <-]. Qed.

Lemma window_sublist lo hi rs : window lo hi rs `sublist_of` rs.
Proof. unfold window. etrans; [apply sublist_take|apply sublist_drop]. Qed.

(** The rows of a slice follow each other as in the frame for a forward
    slice, and as in the reversed frame for a backward one. *)
Lemma loc_frame_sublist df lower upper step :
  rows (loc_frame df lower upper step)
    `sublist_of` (if backward step then reverse (rows df) else rows df).
Proof.
  unfold loc_frame. cbn [rows]. etrans; [apply every_from_sublist|].
  destruct (backward step); [apply sublist_reverse|]; apply window_sublist.
Qed.

Lemma loc_frame_submseteq df lower upper step :
  rows (loc_frame df lower upper step) ⊆+ rows df.
Proof.
  etrans; [apply sublist_submseteq, loc_frame_sublist|].
  destruct (backward step); [|done]. by rewrite reverse_Permutation.
Qed.

Lemma bisect_all p rs : (∀ r, p r = true) → bisect p rs = length rs.
Proof. intros Hp. induction rs; simpl; [done|]. by rewrite Hp, IHrs. Qed.

Lemma loc_frame_unbounded df : loc_frame df None None None = df.
Proof.
  destruct df as [cs rs]. unfold loc_frame, window. simpl.
  rewrite (bisect_all (upto None)) by done.
  assert (bisect (before None) rs = 0%nat) as -> by by destruct rs.
  rewrite Nat.sub_0_r, drop_0, firstn_all.
  by rewrite every_from_one.
Qed.

Lemma loc_unbounded df : loc df None None None = Ok df.
Proof. by rewrite loc_nonzero, loc_frame_unbounded. Qed.

(** ** [slicing] *)

Lemma slicing_loop_eq groups lower upper step force resdata :
  step ≠ Some 0 →
  slicing_loop groups lower upper step force resdata =
    if negb force &&
       existsb (λ g, _check_multiple_times (loc_frame g.2 lower upper step))
         groups
    then Raise (DuplicateTimes in_slicing)
    else Ok (resdata ++ ((λ g, loc_frame g.2 lower upper step) <$> groups)).
Proof.
  intros Hs.
  revert resdata. induction groups as [|[name group] groups IH]; intros resdata.
  - simpl. by rewrite andb_false_r, app_nil_r.
  - cbn [slicing_loop]. rewrite loc_nonzero by done.
    cbn [mbind result_bind existsb snd fmap list_fmap].
    destruct force; simpl in *.
    + by rewrite IH, <-app_assoc.
    + destruct (_check_multiple_times _); simpl; [done|].
      by rewrite IH, <-app_assoc.
Qed.

Lemma slicing_loop_zero groups lower upper force resdata :
  slicing_loop groups lower upper (Some 0) force resdata =
    match groups with
    | [] => Ok resdata
    | _ :: _ => Raise SliceStepZero
    end.
Proof. by destruct groups as [|[name group] groups]. Qed.

Lemma pd_concat_singleton df : pd_concat [df] = Ok df.
Proof. destruct df. simpl. by rewrite app_nil_r. Qed.

Lemma sort_index_sorted df :
  StronglySorted (le_of index_leb) (rows (sort_index df)).
Proof. apply stable_sort_sorted; [apply index_leb_total|apply index_leb_trans]. Qed.

Lemma sort_index_get_group df k :
  StronglySorted (le_of index_leb) (rows df) →
  sort_index (get_group df k) = get_group df k.
Proof.
  intros Hs. unfold sort_index, get_group. simpl. f_equal.
  apply stable_sort_id. by apply StronglySorted_filter.
Qed.

Lemma groupby_get_group df k :
  k ∈ group_keys (rows df) →
  groupby (get_group df k) = [(k, get_group df k)].
Proof.
  intros Hk. unfold groupby. simpl.
  rewrite (group_keys_single k).
  - simpl. unfold get_group. simpl.
    by rewrite (group_rows_all k) by apply group_rows_key.
  - by apply group_rows_nonempty.
  - apply group_rows_key.
Qed.

(** Slicing one group of a sorted table, as both subsamplers do. *)
Lemma slicing_get_group df k lower upper step :
  StronglySorted (le_of index_leb) (rows df) →
  k ∈ group_keys (rows df) →
  step ≠ Some 0 →
  slicing (get_group df k) lower upper step false =
    if _check_multiple_times (loc_frame (get_group df k) lower upper step)
    then Raise (DuplicateTimes in_slicing)
    else Ok (loc_frame (get_group df k) lower upper step).
Proof.
  intros Hs Hk Hstep. unfold slicing.
  rewrite sort_index_get_group, groupby_get_group, slicing_loop_eq by done.
  cbn [existsb negb andb snd fmap list_fmap app mbind result_bind].
  rewrite orb_false_r.
  destruct (_check_multiple_times _); [done|].
  apply pd_concat_singleton.
Qed.

Lemma group_keys_perm rs rs' : rs ≡ₚ rs' → group_keys rs = group_keys rs'.
Proof.
  intros Hp. apply (StronglySorted_unique_strong tuple_lt).
  - intros k1 k2 _ _ [H12 _] [H21 _]. by apply tuple_leb_antisym.
  - apply group_keys_sorted.
  - apply group_keys_sorted.
  - apply NoDup_Permutation; [apply group_keys_NoDup..|].
    intros k. rewrite !elem_of_group_keys.
    split; intros (r & Hr & Hk); exists r; split; try done.
    + by rewrite <-Hp.
    + by rewrite Hp.
Qed.

Lemma group_keys_sort_index df :
  group_keys (rows (sort_index df)) = group_keys (rows df).
Proof. apply group_keys_perm, stable_sort_perm. Qed.

Lemma group_rows_sort_index df k :
  group_rows k (rows (sort_index df)) = stable_sort index_leb (group_rows k (rows df)).
Proof.
  apply (filter_stable_sort index_leb);
    [apply index_leb_total|apply index_leb_trans].
Qed.

Lemma group_rows_not_key k rs : k ∉ group_keys rs → group_rows k rs = [].
Proof.
  intros Hk. unfold group_rows.
  induction rs as [|r rs IH]; [done|].
  rewrite filter_cons_False.
  - apply IH. intros (r' & ? & ?)%elem_of_group_keys.
    apply Hk, elem_of_group_keys. exists r'. split; [by right|done].
  - intros Hr. apply Hk, elem_of_group_keys. exists r. split; [by left|done].
Qed.

Lemma unique_times_group df k :
  unique_times df → NoDup (time <$> group_rows k (rows df)).
Proof.
  intros Hu. destruct (decide (k ∈ group_keys (rows df))) as [Hk|Hk].
  - unfold unique_times in Hu. by eapply Forall_forall in Hu.
  - rewrite group_rows_not_key by done. constructor.
Qed.

Lemma unique_times_sorted_group df k :
  unique_times df → NoDup (time <$> group_rows k (rows (sort_index df))).
Proof.
  intros Hu. rewrite group_rows_sort_index, stable_sort_perm.
  by apply unique_times_group.
Qed.

(** [sliced_group] raises on a step of 0 and returns [sliced_frame] on any
    other. *)
Lemma sliced_group_eq data k lower upper step :
  sliced_group data k lower upper step =
    if decide (step = Some 0) then Raise SliceStepZero
    else Ok (sliced_frame data k lower upper step).
Proof. apply loc_eq. Qed.

Lemma sliced_group_nonzero data k lower upper step :
  step ≠ Some 0 →
  sliced_group data k lower upper step
  = Ok (sliced_frame data k lower upper step).
Proof. apply loc_nonzero. Qed.

Lemma sliced_group_Ok data k lower upper step group_s :
  sliced_group data k lower upper step = Ok group_s →
  step ≠ Some 0 ∧ group_s = sliced_frame data k lower upper step.
Proof. apply loc_Ok. Qed.

Lemma sliced_frame_sublist data k lower upper step :
  rows (sliced_frame data k lower upper step)
    `sublist_of` (if backward step
                  then reverse (group_rows k (rows (sort_index data)))
                  else group_rows k (rows (sort_index data))).
Proof. apply loc_frame_sublist. Qed.

Lemma sliced_frame_submseteq data k lower upper step :
  rows (sliced_frame data k lower upper step)
    ⊆+ group_rows k (rows (sort_index data)).
Proof. apply loc_frame_submseteq. Qed.

Lemma submseteq_NoDup {A} (l1 l2 : list A) : l1 ⊆+ l2 → NoDup l2 → NoDup l1.
Proof.
  intros [l Hl]%submseteq_Permutation. rewrite Hl. by intros [? _]%NoDup_app.
Qed.

Lemma sliced_frame_unique data k lower upper step :
  unique_times data →
  NoDup (time <$> rows (sliced_frame data k lower upper step)).
Proof.
  intros Hu. eapply submseteq_NoDup; [|by apply (unique_times_sorted_group data k)].
  apply fmap_submseteq, sliced_frame_submseteq.
Qed.

Lemma sliced_frame_subseteq data k lower upper step :
  rows (sliced_frame data k lower upper step)
    ⊆ group_rows k (rows (sort_index data)).
Proof.
  intros r Hr.
  by eapply elem_of_submseteq; [|apply sliced_frame_submseteq].
Qed.

Lemma sliced_frame_key data k lower upper step :
  Forall (λ r, lambdas r = k) (rows (sliced_frame data k lower upper step)).
Proof.
  eapply Forall_forall. intros r Hr%sliced_frame_subseteq.
  by apply list_elem_of_filter in Hr as [? _].
Qed.

Lemma pd_concat_Ok resdata out :
  pd_concat resdata = Ok out →
  resdata ≠ [] ∧ rows out = mjoin (rows <$> resdata) ∧
  ∀ df, head resdata = Some df → columns out = columns df.
Proof.
  destruct resdata as [|df resdata]; [done|]. intros [= <-].
  split_and!; [done..|]. by intros ? [= ->].
Qed.

Lemma existsb_fmap {A B} (f : A → B) (p : B → bool) l :
  existsb p (f <$> l) = existsb (p ∘ f) l.
Proof. induction l; simpl; [done|]. by f_equal. Qed.

Lemma slicing_eq data lower upper step force :
  step ≠ Some 0 →
  slicing data lower upper step force =
    if negb force &&
       existsb (λ k, _check_multiple_times (sliced_frame data k lower upper step))
         (group_keys (rows data))
    then Raise (DuplicateTimes in_slicing)
    else pd_concat ((λ k, sliced_frame data k lower upper step)
                      <$> group_keys (rows data)).
Proof.
  intros Hs. unfold slicing. rewrite slicing_loop_eq by done. unfold groupby.
  rewrite group_keys_sort_index, existsb_fmap, <-list_fmap_compose.
  by destruct (negb force && _).
Qed.

(** With a step of 0 the first group makes [slicing] raise. *)
Lemma slicing_zero data lower upper force :
  slicing data lower upper (Some 0) force =
    if decide (rows data = []) then Raise NoObjectsToConcatenate
    else Raise SliceStepZero.
Proof.
  unfold slicing. rewrite slicing_loop_zero. unfold groupby.
  rewrite group_keys_sort_index. case_decide as Hnil.
  - by rewrite Hnil.
  - apply group_keys_nonempty in Hnil.
    by destruct (group_keys (rows data)).
Qed.

Lemma slicing_empty data lower upper step force :
  rows data = [] →
  slicing data lower upper step force = Raise NoObjectsToConcatenate.
Proof.
  intros Hnil. destruct (decide (step = Some 0)) as [->|Hs].
  - by rewrite slicing_zero, decide_True.
  - rewrite slicing_eq, Hnil by done. simpl. by rewrite andb_false_r.
Qed.

Lemma sliced_frame_not_key data k lower upper step :
  k ∉ group_keys (rows data) → rows (sliced_frame data k lower upper step) = [].
Proof.
  intros Hk. apply submseteq_nil_r.
  rewrite <-(group_rows_not_key k (rows (sort_index data)))
    by by rewrite group_keys_sort_index.
  apply sliced_frame_submseteq.
Qed.

(** What a call of [slicing] that returns has computed. *)
Lemma slicing_Ok data lower upper step force out :
  slicing data lower upper step force = Ok out →
  rows data ≠ [] ∧
  columns out = columns data ∧
  rows out = mjoin ((λ k, rows (sliced_frame data k lower upper step))
                      <$> group_keys (rows data)) ∧
  (force = false →
   ∀ k, NoDup (time <$> rows (sliced_frame data k lower upper step))).
Proof.
  destruct (decide (step = Some 0)) as [->|Hs];
    [by rewrite slicing_zero; case_decide|].
  rewrite slicing_eq by done. destruct (negb force && _) eqn:Hchk; [done|].
  intros (Hne & Hrows & Hcols)%pd_concat_Ok. split_and!.
  - intros Hnil. apply Hne. by rewrite Hnil.
  - destruct (group_keys (rows data)) as [|k ks]; [done|].
    by rewrite (Hcols (sliced_frame data k lower upper step)).
  - by rewrite Hrows, <-list_fmap_compose.
  - intros -> k. simpl in Hchk.
    destruct (decide (k ∈ group_keys (rows data))) as [Hk|Hk].
    + apply check_multiple_times_false.
      destruct (_check_multiple_times _) eqn:Hc; [|done].
      assert (existsb (λ k, _check_multiple_times
                (sliced_frame data k lower upper step))
                (group_keys (rows data)) = true) as Hex; [|congruence].
      apply existsb_exists. exists k. split; [|done].
      by apply list_elem_of_In.
    + rewrite sliced_frame_not_key by done. constructor.
Qed.

Lemma slicing_Ok_step data lower upper step force out :
  slicing data lower upper step force = Ok out → step ≠ Some 0.
Proof. intros Hout ->. rewrite slicing_zero in Hout. by case_decide. Qed.

(** When [slicing] returns: the table has a row, the step is not 0, and no
    group has duplicate times after slicing unless [force] is set. *)
Lemma slicing_returns data lower upper step force :
  rows data ≠ [] → step ≠ Some 0 →
  (force = false →
   ∀ k, k ∈ group_keys (rows data) →
        NoDup (time <$> rows (sliced_frame data k lower upper step))) →
  ∃ out, slicing data lower upper step force = Ok out.
Proof.
  intros Hne Hs Hnd. rewrite slicing_eq by done.
  assert (negb force &&
    existsb (λ k, _check_multiple_times (sliced_frame data k lower upper step))
      (group_keys (rows data)) = false) as ->.
  { destruct force; [done|]. simpl.
    apply not_true_is_false. intros (k & Hk & Hc)%existsb_exists.
    apply check_multiple_times_true in Hc. apply Hc, Hnd; [done|].
    by apply list_elem_of_In. }
  apply group_keys_nonempty in Hne.
  destruct (group_keys (rows data)); [done|]. simpl. eauto.
Qed.

(** ** Regrouping *)

Lemma StronglySorted_sublist {A} (R : relation A) l1 l2 :
  l1 `sublist_of` l2 → StronglySorted R l2 → StronglySorted R l1.
Proof.
  induction 1 as [|x l1 l2 Hsub IH|x l1 l2 Hsub IH];
    rewrite ?StronglySorted_cons; [done|..].
  - intros [Hx Hs]. split; [|auto].
    apply Forall_forall. intros y Hy. eapply Forall_forall in Hx; [done|].
    by eapply sublist_subseteq.
  - intros [_ Hs]. auto.
Qed.

Lemma sorted_unique_time_lt rs :
  StronglySorted (le_of index_leb) rs → NoDup (time <$> rs) →
  StronglySorted (λ r1 r2, time r1 < time r2) rs.
Proof.
  induction 1 as [|r rs Hs IH Hr]; [constructor|].
  rewrite fmap_cons, NoDup_cons. intros [Hnin Hnd].
  constructor; [auto|]. apply Forall_forall. intros r' Hr'.
  eapply Forall_forall in Hr; [|done]. apply index_leb_time in Hr.
  assert (time r ≠ time r'); [|lia].
  intros Heq. apply Hnin. rewrite Heq. by apply list_elem_of_fmap_2.
Qed.

Lemma mjoin_groups_sorted_by (R : relation row) (f : list Z → list row) keys :
  StronglySorted tuple_lt keys →
  (∀ k, Forall (λ r, lambdas r = k) (f k)) →
  (∀ k, StronglySorted R (f k)) →
  StronglySorted
    (λ r1 r2, tuple_lt (lambdas r1) (lambdas r2) ∨
              (lambdas r1 = lambdas r2 ∧ R r1 r2))
    (mjoin (f <$> keys)).
Proof.
  intros Hks Hkey Htime. induction Hks as [|k ks Hks IH Hk]; [constructor|].
  simpl. apply StronglySorted_app_2.
  - intros r1 r2 Hr1 (l & Hr2 & (k' & -> & Hk')%list_elem_of_fmap)%list_elem_of_join.
    left. eapply Forall_forall in Hk; [|done].
    specialize (Hkey k) as H1. specialize (Hkey k') as H2.
    rewrite Forall_forall in H1, H2.
    by rewrite (H1 r1), (H2 r2).
  - specialize (Htime k). specialize (Hkey k). rewrite Forall_forall in Hkey.
    induction Htime as [|r rs Hs IHs Hr]; [constructor|].
    constructor.
    + apply IHs. intros ??. apply Hkey. by right.
    + apply Forall_forall. intros r' Hr'. right.
      eapply Forall_forall in Hr; [|done]. split; [|done].
      rewrite (Hkey r), (Hkey r'); [done|by right|by left].
  - done.
Qed.

Lemma mjoin_groups_sorted (f : list Z → list row) keys :
  StronglySorted tuple_lt keys →
  (∀ k, Forall (λ r, lambdas r = k) (f k)) →
  (∀ k, StronglySorted (λ r1 r2, time r1 < time r2) (f k)) →
  StronglySorted lambda_major (mjoin (f <$> keys)).
Proof. apply (mjoin_groups_sorted_by (λ r1 r2, time r1 < time r2)). Qed.

Lemma mjoin_groups_walk_sorted step (f : list Z → list row) keys :
  StronglySorted tuple_lt keys →
  (∀ k, Forall (λ r, lambdas r = k) (f k)) →
  (∀ k, StronglySorted (time_order step) (f k)) →
  StronglySorted (walk_major step) (mjoin (f <$> keys)).
Proof. apply (mjoin_groups_sorted_by (time_order step)). Qed.

Lemma group_rows_mjoin (f : list Z → list row) keys k :
  NoDup keys →
  (∀ k, Forall (λ r, lambdas r = k) (f k)) →
  group_rows k (mjoin (f <$> keys)) = if decide (k ∈ keys) then f k else [].
Proof.
  intros Hnd Hkey. induction Hnd as [|k' ks Hnin Hnd IH]; [done|].
  rewrite fmap_cons. change (mjoin (f k' :: (f <$> ks))) with (f k' ++ mjoin (f <$> ks)).
  unfold group_rows in *. rewrite filter_app, IH.
  destruct (decide (k = k')) as [->|Hne].
  - rewrite (decide_False (P := k' ∈ ks)) by done.
    rewrite (decide_True (P := k' ∈ k' :: ks)) by by left.
    rewrite app_nil_r. by apply group_rows_all.
  - fold (group_rows k (f k')). rewrite (group_rows_other k k') by done.
    simpl. destruct (decide (k ∈ ks)).
    + by rewrite decide_True by by right.
    + rewrite decide_False; [done|]. by intros [?|?]%elem_of_cons.
Qed.

Lemma mjoin_groups_perm rs keys :
  NoDup keys → (∀ r, r ∈ rs → lambdas r ∈ keys) →
  mjoin ((λ k, group_rows k rs) <$> keys) ≡ₚ rs.
Proof.
  intros Hnd. revert rs. induction Hnd as [|k ks Hnin Hnd IH]; intros rs Hin.
  - destruct rs as [|r rs]; [done|].
    specialize (Hin r ltac:(by left)). by apply elem_of_nil in Hin.
  - rewrite fmap_cons.
    change (mjoin (?l :: ?ls)) with (l ++ mjoin ls).
    trans (filter (λ r, lambdas r = k) rs ++ filter (λ r, lambdas r ≠ k) rs);
      [|apply filter_app_complement].
    apply Permutation_app; [done|].
    rewrite <-(IH (filter (λ r, lambdas r ≠ k) rs)).
    + assert ((λ k0, group_rows k0 rs) <$> ks =
              (λ k0, group_rows k0 (filter (λ r, lambdas r ≠ k) rs)) <$> ks)
        as ->; [|done].
      apply Forall_fmap_ext, Forall_forall. intros k' Hk'.
      unfold group_rows. rewrite list_filter_filter.
      apply list_filter_iff. intros r. split; [|tauto].
      intros ->. split; [done|]. by intros ->.
    + intros r [Hr Hrs]%list_elem_of_filter.
      specialize (Hin r Hrs). by apply elem_of_cons in Hin as [?|?].
Qed.

(** ** Positional selection *)

Lemma take_rows_Ok rs indices picked :
  take_rows rs indices = Ok picked ↔ Forall2 (λ i r, rs !! i = Some r) indices picked.
Proof.
  revert picked. induction indices as [|i indices IH]; intros picked; simpl.
  - split; [intros [= <-]; constructor|by inversion 1].
  - destruct (rs !! i) as [r|] eqn:Hi.
    + destruct (take_rows rs indices) as [picked'|e]; simpl.
      * split.
        -- intros [= <-]. constructor; [done|by apply IH].
        -- inversion 1 as [|???? Hr Hrest]; subst.
           apply IH in Hrest. by simplify_eq.
      * split; [done|]. inversion 1 as [|???? Hr Hrest]; subst.
        by apply IH in Hrest.
    + split; [done|]. inversion 1; simplify_eq.
Qed.

Lemma take_rows_length rs indices picked :
  take_rows rs indices = Ok picked → length picked = length indices.
Proof. intros ?%take_rows_Ok. symmetry. by eapply Forall2_length. Qed.

Lemma take_rows_subseteq rs indices picked :
  take_rows rs indices = Ok picked → picked ⊆ rs.
Proof.
  intros H%take_rows_Ok r Hr.
  apply list_elem_of_lookup in Hr as [j Hj].
  destruct (Forall2_lookup_r _ _ _ _ _ H Hj) as (i & _ & Hi).
  by eapply list_elem_of_lookup_2.
Qed.

Lemma take_rows_sublist rs indices picked :
  StronglySorted lt indices →
  take_rows rs indices = Ok picked → picked `sublist_of` rs.
Proof.
  intros Hs H%take_rows_Ok.
  assert (∀ n, Forall (λ i, n ≤ i)%nat indices →
    Forall2 (λ i r, rs !! i = Some r) indices picked →
    picked `sublist_of` drop n rs) as Hgen.
  { clear H. revert picked.
    induction Hs as [|i indices Hs IH Hi]; intros picked n Hn H.
    - inversion H. apply sublist_nil_l.
    - inversion H as [|? r ? picked' Hr Hrest]; subst.
      apply Forall_cons in Hn as [Hni _].
      rewrite <-(take_drop_middle rs i r Hr) at 1.
      rewrite drop_app_le by (rewrite length_take; apply lookup_lt_Some in Hr; lia).
      apply sublist_inserts_l, sublist_skip.
      replace (drop (S i) rs) with (drop (S i) rs) by done.
      apply IH; [|done].
      eapply Forall_impl; [exact Hi|]. simpl. lia. }
  rewrite <-(drop_0 rs). apply Hgen; [|done].
  apply Forall_forall. lia.
Qed.

Lemma iloc_Ok df indices picked :
  iloc df indices = Ok picked →
  columns picked = columns df ∧ take_rows (rows df) indices = Ok (rows picked).
Proof.
  unfold iloc. destruct (take_rows _ _); simpl; [|done]. by intros [= <-].
Qed.

(** ** The error monad *)

Lemma bind_Ok {A B} (m : result A) (f : A → result B) b :
  m ≫= f = Ok b ↔ ∃ a, m = Ok a ∧ f a = Ok b.
Proof.
  destruct m as [a|e]; simpl.
  - split; [eauto|]. by intros (? & [= <-] & ?).
  - split; [done|]. by intros (? & ? & ?).
Qed.

Lemma not_Ok_raises {A} (r : result A) : (∀ a, r ≠ Ok a) → raises r.
Proof. destruct r as [a|e]; [by intros H; destruct (H a)|by exists e]. Qed.

(** ** The diagnostics record *)

Lemma entry_setitem calculated stat name v :
  entry (setitem calculated stat name v) stat name = Some v.
Proof.
  unfold entry, setitem. rewrite lookup_insert_eq. simpl.
  by rewrite lookup_insert_eq.
Qed.

Lemma entry_setitem_ne calculated stat name v stat' name' :
  stat ≠ stat' ∨ name ≠ name' →
  entry (setitem calculated stat name v) stat' name' = entry calculated stat' name'.
Proof.
  unfold entry, setitem. intros Hne.
  destruct (decide (stat = stat')) as [<-|Hs].
  - destruct Hne as [?|Hn]; [done|].
    rewrite lookup_insert_eq. simpl. rewrite lookup_insert_ne by done.
    by destruct (calculated !! stat).
  - by rewrite lookup_insert_ne.
Qed.

(** ** The loops of the two subsamplers *)

Section LoopFacts.
Variable timeseries : Timeseries.
Variables (column : option string) (lower upper : option Z).
Variables (step : option Z) (conservative return_calculated force : bool).

Lemma statistical_inefficiency_loop_Ok groups resdata calculated res calc' :
  statistical_inefficiency_loop timeseries groups column lower upper step
    conservative return_calculated force resdata calculated = Ok (res, calc') →
  ∃ outs,
    Forall2 (λ g o, statistical_inefficiency_group timeseries g.2 column
                      lower upper step conservative force = Ok o) groups outs ∧
    res = resdata ++ outs.*1 ∧
    (return_calculated = false → calc' = calculated) ∧
    (return_calculated = true →
      (∀ stat name, stat ≠ "statinef" ∨ name ∉ groups.*1 →
         entry calc' stat name = entry calculated stat name) ∧
      (NoDup groups.*1 → ∀ i g o, groups !! i = Some g → outs !! i = Some o →
         entry calc' "statinef" g.1 = Some o.2)).
Proof.
  revert resdata calculated.
  induction groups as [|[name group] groups IH]; intros resdata calculated.
  - intros [= <- <-]. exists [].
    split_and!; [constructor|by simpl; rewrite app_nil_r|done|].
    intros _. split; [done|]. by intros _ ???.
  - cbn [statistical_inefficiency_loop].
    intros ([picked statinef] & Hbody & Hrest)%bind_Ok.
    apply IH in Hrest as (outs & Houts & -> & Hoff & Hon).
    exists ((picked, statinef) :: outs). split_and!.
    + by constructor.
    + by rewrite <-app_assoc.
    + intros ->. by rewrite Hoff.
    + intros ->. destruct (Hon eq_refl) as [Hkeep Hset]. split.
      * intros stat name' Hne. rewrite Hkeep.
        -- apply entry_setitem_ne.
           destruct Hne as [?|Hne]; [by left|right].
           intros ->. apply Hne. by left.
        -- destruct Hne as [?|Hne]; [by left|right].
           intros ?. apply Hne. by right.
      * intros [Hnin Hnd]%NoDup_cons [|i] g o; simpl.
        -- intros [= <-] [= <-]. simpl. rewrite Hkeep by by right.
           apply entry_setitem.
        -- by apply Hset.
Qed.

Lemma equilibrium_detection_loop_Ok groups resdata calculated res calc' :
  equilibrium_detection_loop timeseries groups column lower upper step
    conservative return_calculated force resdata calculated = Ok (res, calc') →
  ∃ outs,
    Forall2 (λ g o, equilibrium_detection_group timeseries g.2 column
                      lower upper step conservative force = Ok o) groups outs ∧
    res = resdata ++ outs.*1 ∧
    (return_calculated = false → calc' = calculated) ∧
    (return_calculated = true →
      (∀ stat name, name ∉ groups.*1 →
         entry calc' stat name = entry calculated stat name) ∧
      (NoDup groups.*1 → ∀ i g o, groups !! i = Some g → outs !! i = Some o →
         entry calc' "t" g.1 = Some o.2.1.2 ∧
         entry calc' "statinef" g.1 = Some o.2.1.2 ∧
         entry calc' "Neff_max" g.1 = Some o.2.1.2)).
Proof.
  revert resdata calculated.
  induction groups as [|[name group] groups IH]; intros resdata calculated.
  - intros [= <- <-]. exists [].
    split_and!; [constructor|by simpl; rewrite app_nil_r|done|].
    intros _. split; [done|]. by intros _ ???.
  - cbn [equilibrium_detection_loop].
    intros ([picked [[t statinef] Neff_max]] & Hbody & Hrest)%bind_Ok.
    apply IH in Hrest as (outs & Houts & -> & Hoff & Hon).
    exists ((picked, (t, statinef, Neff_max)) :: outs). split_and!.
    + by constructor.
    + by rewrite <-app_assoc.
    + intros ->. by rewrite Hoff.
    + intros ->. destruct (Hon eq_refl) as [Hkeep Hset]. split.
      * intros stat name' Hne. rewrite Hkeep.
        -- assert (name ≠ name') by (intros ->; apply Hne; by left).
           by rewrite !entry_setitem_ne by by right.
        -- intros ?. apply Hne. by right.
      * intros [Hnin Hnd]%NoDup_cons [|i] g o; simpl.
        -- intros [= <-] [= <-]. simpl. rewrite !Hkeep by done.
           rewrite entry_setitem.
           rewrite (entry_setitem_ne _ "Neff_max" _ _ "statinef") by by left.
           rewrite entry_setitem.
           rewrite (entry_setitem_ne _ "Neff_max" _ _ "t") by by left.
           rewrite (entry_setitem_ne _ "statinef" _ _ "t") by by left.
           by rewrite entry_setitem.
        -- by apply Hset.
Qed.
End LoopFacts.

(** ** One group of a subsampler *)

Lemma slicing_sorted_group data k lower upper step group_s :
  slicing (get_group (sort_index data) k) lower upper step false = Ok group_s →
  k ∈ group_keys (rows data) ∧
  group_s = sliced_frame data k lower upper step ∧
  NoDup (time <$> rows group_s).
Proof.
  intros Hs. pose proof (slicing_Ok_step _ _ _ _ _ _ Hs) as Hstep.
  destruct (decide (k ∈ group_keys (rows (sort_index data)))) as [Hk|Hk].
  - rewrite slicing_get_group in Hs by (apply sort_index_sorted || done).
    destruct (_check_multiple_times _) eqn:Hc; [done|].
    injection Hs as <-. rewrite <-group_keys_sort_index.
    split_and!; [done..|]. by apply check_multiple_times_false.
  - rewrite slicing_empty in Hs; [done|]. by apply group_rows_not_key.
Qed.

Lemma statistical_inefficiency_group_Ok ts data k column lower upper step
    conservative force picked g :
  statistical_inefficiency_group ts (get_group (sort_index data) k) column
    lower upper step conservative force = Ok (picked, g) →
  let group_s := sliced_frame data k lower upper step in
  k ∈ group_keys (rows data) ∧
  NoDup (time <$> rows group_s) ∧
  (force = false → NoDup (time <$> group_rows k (rows (sort_index data)))) ∧
  ∃ series indices,
    getitem group_s column = Ok series ∧
    ts.(statisticalInefficiency) series = Ok g ∧
    ts.(subsampleCorrelatedData) series g conservative = Ok indices ∧
    columns picked = columns data ∧
    take_rows (rows group_s) indices = Ok (rows picked).
Proof.
  unfold statistical_inefficiency_group.
  intros (group_s & (Hk & -> & Hnd)%slicing_sorted_group & Hrest)%bind_Ok.
  destruct (negb force && _) eqn:Hchk; [done|].
  apply bind_Ok in Hrest as (series & Hseries & Hrest).
  apply bind_Ok in Hrest as (g' & Hg & Hrest).
  apply bind_Ok in Hrest as (indices & Hidx & Hrest).
  apply bind_Ok in Hrest as (picked' & [Hcols Hpick]%iloc_Ok & [= -> ->]).
  split_and!; [done..| |by eauto 10].
  intros ->. simpl in Hchk. by apply check_multiple_times_false in Hchk.
Qed.

Lemma equilibrium_detection_group_Ok ts data k column lower upper step
    conservative force picked t g n :
  equilibrium_detection_group ts (get_group (sort_index data) k) column
    lower upper step conservative force = Ok (picked, (t, g, n)) →
  let group_s := sliced_frame data k lower upper step in
  k ∈ group_keys (rows data) ∧
  NoDup (time <$> rows group_s) ∧
  (force = false → NoDup (time <$> group_rows k (rows (sort_index data)))) ∧
  ∃ series series' indices,
    getitem group_s column = Ok series ∧
    ts.(detectEquilibration) series = Ok (t, g, n) ∧
    getitem (iloc_from group_s t) column = Ok series' ∧
    ts.(subsampleCorrelatedData) series' g conservative = Ok indices ∧
    columns picked = columns data ∧
    take_rows (drop t (rows group_s)) indices = Ok (rows picked).
Proof.
  unfold equilibrium_detection_group.
  intros (group_s & (Hk & -> & Hnd)%slicing_sorted_group & Hrest)%bind_Ok.
  destruct (negb force && _) eqn:Hchk; [done|].
  apply bind_Ok in Hrest as (series & Hseries & Hrest).
  apply bind_Ok in Hrest as ([[t' g'] n'] & Hdet & Hrest).
  apply bind_Ok in Hrest as (series' & Hseries' & Hrest).
  apply bind_Ok in Hrest as (indices & Hidx & Hrest).
  apply bind_Ok in Hrest as (picked' & [Hcols Hpick]%iloc_Ok & [= -> -> -> ->]).
  split_and!; [done..| |by eauto 10].
  intros ->. simpl in Hchk. by apply check_multiple_times_false in Hchk.
Qed.

Lemma group_rows_app k rs1 rs2 :
  group_rows k (rs1 ++ rs2) = group_rows k rs1 ++ group_rows k rs2.
Proof. apply filter_app. Qed.

Lemma group_rows_mjoin_none keys (rss : list (list row)) k :
  Forall2 (λ k rs, Forall (λ r, lambdas r = k) rs) keys rss →
  k ∉ keys → group_rows k (mjoin rss) = [].
Proof.
  intros Hall Hk. apply group_rows_not_key.
  intros (r & Hr & Hkr)%elem_of_group_keys.
  apply list_elem_of_join in Hr as (l & Hr & Hl).
  apply list_elem_of_lookup in Hl as [j Hj].
  destruct (Forall2_lookup_r _ _ _ _ _ Hall Hj) as (k0 & Hk0 & Hl).
  rewrite Forall_forall in Hl. rewrite (Hl r Hr) in Hkr. subst k0.
  apply Hk. by eapply list_elem_of_lookup_2.
Qed.

Lemma group_rows_mjoin_lookup keys (rss : list (list row)) i k rs :
  NoDup keys →
  Forall2 (λ k rs, Forall (λ r, lambdas r = k) rs) keys rss →
  keys !! i = Some k → rss !! i = Some rs →
  group_rows k (mjoin rss) = rs.
Proof.
  intros Hnd Hall. revert i.
  induction Hall as [|k' rs' keys rss Hk' Hall IH]; intros i; [done|].
  apply NoDup_cons in Hnd as [Hnin Hnd].
  change (mjoin (rs' :: rss)) with (rs' ++ mjoin rss).
  rewrite group_rows_app. destruct i as [|i]; simpl.
  - intros [= ->] [= ->]. rewrite (group_rows_all k rs) by done.
    rewrite (group_rows_mjoin_none keys) by done. by rewrite app_nil_r.
  - intros Hk Hrs. rewrite (IH Hnd i) by done.
    rewrite (group_rows_other k k'); [done| |done].
    intros ->. apply Hnin. by eapply list_elem_of_lookup_2.
Qed.

(** ** What a subsampler that returns has computed, group by group *)

Lemma groupby_sort_index data :
  groupby (sort_index data) =
    (λ k, (k, get_group (sort_index data) k)) <$> group_keys (rows data).
Proof. unfold groupby. by rewrite group_keys_sort_index. Qed.

Lemma groupby_sort_index_keys data :
  (groupby (sort_index data)).*1 = group_keys (rows data).
Proof.
  rewrite groupby_sort_index, <-list_fmap_compose. apply list_fmap_id.
Qed.

Lemma picked_rows_key data k lower upper step indices picked :
  take_rows (rows (sliced_frame data k lower upper step)) indices = Ok picked →
  Forall (λ r, lambdas r = k) picked.
Proof.
  intros Hsub%take_rows_subseteq. apply Forall_forall. intros r Hr.
  pose proof (sliced_frame_key data k lower upper step) as Hkey.
  rewrite Forall_forall in Hkey. by apply Hkey, Hsub.
Qed.

Lemma statistical_inefficiency_view ts reading data how column lower upper step
    conservative return_calculated force out calc :
  statistical_inefficiency ts reading data how column lower upper step
    conservative return_calculated force = Ok (out, calc) →
  rows data ≠ [] ∧
  columns out = columns data ∧
  (return_calculated = false → calc = None) ∧
  (∀ k, k ∉ group_keys (rows data) → group_rows k (rows out) = []) ∧
  ∀ k, k ∈ group_keys (rows data) →
    let group_s := sliced_frame data k lower upper step in
    NoDup (time <$> rows group_s) ∧
    (force = false → NoDup (time <$> group_rows k (rows (sort_index data)))) ∧
    ∃ series g indices,
      getitem group_s column = Ok series ∧
      ts.(statisticalInefficiency) series = Ok g ∧
      ts.(subsampleCorrelatedData) series g conservative = Ok indices ∧
      take_rows (rows group_s) indices = Ok (group_rows k (rows out)) ∧
      (return_calculated = true →
       ∃ c, calc = Some c ∧ entry c "statinef" k = Some g).
Proof.
  unfold statistical_inefficiency.
  intros ([resdata calculated] & Hloop & Hrest)%bind_Ok.
  apply bind_Ok in Hrest as (df & Hcat & [= -> <-]).
  assert (statistical_inefficiency_loop ts (groupby (sort_index data)) column
            lower upper step conservative return_calculated force [] ∅
          = Ok (resdata, calculated)) as Hloop'.
  { destruct reading, (truth column); try done.
    injection Hloop as <- <-. done. }
  clear Hloop.
  apply statistical_inefficiency_loop_Ok in Hloop'
    as (outs & Houts & -> & Hoff & Hon).
  rewrite groupby_sort_index_keys in Hon.
  rewrite groupby_sort_index, Forall2_fmap_l in Houts. simpl in Houts.
  apply pd_concat_Ok in Hcat as (Hne & Hrows & Hcols). simpl in Hrows, Hne, Hcols.
  assert (Forall2 (λ k rs, Forall (λ r, lambdas r = k) rs)
            (group_keys (rows data)) (rows <$> outs.*1)) as Hkeys.
  { rewrite !Forall2_fmap_r. eapply Forall2_impl; [exact Houts|].
    intros k [picked g] (_ & _ & _ & series & indices & _ & _ & _ & _ & Hpick)
      %statistical_inefficiency_group_Ok.
    by eapply picked_rows_key. }
  split_and!.
  - intros Hnil. rewrite Hnil in Houts. apply Forall2_nil_inv_l in Houts.
    by subst outs.
  - destruct Houts as [|k [picked g] ks outs Hk Houts]; [done|].
    rewrite (Hcols picked) by done.
    by apply statistical_inefficiency_group_Ok in Hk
      as (_ & _ & _ & ? & ? & _ & _ & _ & ? & _).
  - by intros ->.
  - intros k Hk. rewrite Hrows. by apply (group_rows_mjoin_none _ _ _ Hkeys).
  - intros k Hk. apply list_elem_of_lookup in Hk as [i Hi].
    destruct (Forall2_lookup_l _ _ _ _ _ Houts Hi) as ([picked g] & Ho & Hbody).
    apply statistical_inefficiency_group_Ok in Hbody
      as (_ & Hnd & Hforce & series & indices & Hs & Hg & Hidx & _ & Hpick).
    split_and!; [done..|]. exists series, g, indices. split_and!; try done.
    + rewrite Hrows.
      rewrite (group_rows_mjoin_lookup (group_keys (rows data))
                 (rows <$> outs.*1) i k (rows picked));
        [done|apply group_keys_NoDup|done..|].
      by rewrite !list_lookup_fmap, Ho.
    + intros ->. eexists. split; [done|].
      destruct (Hon eq_refl) as [_ Hset].
      apply (Hset (group_keys_NoDup _) i
               (k, get_group (sort_index data) k) (picked, g)); [|done].
      by rewrite groupby_sort_index, list_lookup_fmap, Hi.
Qed.

Lemma equilibrium_detection_view ts data how column lower upper step
    conservative return_calculated force out calc :
  equilibrium_detection ts data how column lower upper step
    conservative return_calculated force = Ok (out, calc) →
  rows data ≠ [] ∧
  columns out = columns data ∧
  (return_calculated = false → calc = None) ∧
  (∀ k, k ∉ group_keys (rows data) → group_rows k (rows out) = []) ∧
  ∀ k, k ∈ group_keys (rows data) →
    let group_s := sliced_frame data k lower upper step in
    NoDup (time <$> rows group_s) ∧
    (force = false → NoDup (time <$> group_rows k (rows (sort_index data)))) ∧
    ∃ series t g n series' indices,
      getitem group_s column = Ok series ∧
      ts.(detectEquilibration) series = Ok (t, g, n) ∧
      getitem (iloc_from group_s t) column = Ok series' ∧
      ts.(subsampleCorrelatedData) series' g conservative = Ok indices ∧
      take_rows (drop t (rows group_s)) indices = Ok (group_rows k (rows out)) ∧
      (return_calculated = true →
       ∃ c, calc = Some c ∧ entry c "t" k = Some g ∧
            entry c "statinef" k = Some g ∧ entry c "Neff_max" k = Some g).
Proof.
  unfold equilibrium_detection.
  intros ([resdata calculated] & Hloop & Hrest)%bind_Ok.
  apply bind_Ok in Hrest as (df & Hcat & [= -> <-]).
  apply equilibrium_detection_loop_Ok in Hloop
    as (outs & Houts & -> & Hoff & Hon).
  rewrite groupby_sort_index_keys in Hon.
  rewrite groupby_sort_index, Forall2_fmap_l in Houts. simpl in Houts.
  apply pd_concat_Ok in Hcat as (Hne & Hrows & Hcols). simpl in Hrows, Hne, Hcols.
  assert (∀ k rs indices t, take_rows (drop t (rows (sliced_frame data k lower upper step)))
              indices = Ok rs → Forall (λ r, lambdas r = k) rs) as Hdrop.
  { intros k rs indices t Hsub%take_rows_subseteq. apply Forall_forall.
    intros r Hr. pose proof (sliced_frame_key data k lower upper step) as Hkey.
    rewrite Forall_forall in Hkey. apply Hkey.
    eapply sublist_subseteq; [apply sublist_drop|]. by apply Hsub. }
  assert (Forall2 (λ k rs, Forall (λ r, lambdas r = k) rs)
            (group_keys (rows data)) (rows <$> outs.*1)) as Hkeys.
  { rewrite !Forall2_fmap_r. eapply Forall2_impl; [exact Houts|].
    intros k [picked [[t g] n]]
      (_ & _ & _ & series & series' & indices & _ & _ & _ & _ & _ & Hpick)
      %equilibrium_detection_group_Ok.
    by eapply Hdrop. }
  split_and!.
  - intros Hnil. rewrite Hnil in Houts. apply Forall2_nil_inv_l in Houts.
    by subst outs.
  - destruct Houts as [|k [picked [[t g] n]] ks outs Hk Houts]; [done|].
    rewrite (Hcols picked) by done.
    by apply equilibrium_detection_group_Ok in Hk
      as (_ & _ & _ & ? & ? & ? & _ & _ & _ & _ & ? & _).
  - by intros ->.
  - intros k Hk. rewrite Hrows. by apply (group_rows_mjoin_none _ _ _ Hkeys).
  - intros k Hk. apply list_elem_of_lookup in Hk as [i Hi].
    destruct (Forall2_lookup_l _ _ _ _ _ Houts Hi)
      as ([picked [[t g] n]] & Ho & Hbody).
    apply equilibrium_detection_group_Ok in Hbody
      as (_ & Hnd & Hforce & series & series' & indices
          & Hs & Hg & Hs' & Hidx & _ & Hpick).
    split_and!; [done..|]. exists series, t, g, n, series', indices.
    split_and!; try done.
    + rewrite Hrows.
      rewrite (group_rows_mjoin_lookup (group_keys (rows data))
                 (rows <$> outs.*1) i k (rows picked));
        [done|apply group_keys_NoDup|done..|].
      by rewrite !list_lookup_fmap, Ho.
    + intros ->. eexists. split; [done|].
      destruct (Hon eq_refl) as [_ Hset].
      apply (Hset (group_keys_NoDup _) i
               (k, get_group (sort_index data) k) (picked, (t, g, n))); [|done].
      by rewrite groupby_sort_index, list_lookup_fmap, Hi.
Qed.


(** ** A step of 0 *)

Lemma first_group data :
  rows data ≠ [] →
  ∃ k keys, group_keys (rows data) = k :: keys ∧
    groupby (sort_index data) =
      (k, get_group (sort_index data) k)
        :: ((λ k, (k, get_group (sort_index data) k)) <$> keys).
Proof.
  intros Hne%group_keys_nonempty. rewrite groupby_sort_index.
  destruct (group_keys (rows data)) as [|k keys]; [done|]. by exists k, keys.
Qed.

Lemma truth_label c : c ≠ EmptyString → truth (Some c) = true.
Proof. intros Hc. simpl. by rewrite bool_decide_eq_false_2. Qed.

Lemma slicing_group_zero data k lower upper force :
  k ∈ group_keys (rows data) →
  slicing (get_group (sort_index data) k) lower upper (Some 0) force
  = Raise SliceStepZero.
Proof.
  intros Hk. rewrite slicing_zero, decide_False; [done|].
  apply group_rows_nonempty. by rewrite group_keys_sort_index.
Qed.

(** With a step of 0 the first lambda state makes a subsampler raise, when
    its loop is entered. *)
Lemma statistical_inefficiency_zero ts reading data how column lower upper
    conservative return_calculated force :
  rows data ≠ [] →
  statistical_inefficiency ts reading data how column lower upper (Some 0)
    conservative return_calculated force
  = Raise (if match reading with
              | loop_after_if => true
              | loop_inside_if => truth column
              end
           then SliceStepZero else NoObjectsToConcatenate).
Proof.
  intros Hne. destruct (first_group data Hne) as (k & keys & Hkeys & Hgroups).
  assert (k ∈ group_keys (rows data)) as Hk by (rewrite Hkeys; by left).
  unfold statistical_inefficiency. rewrite Hgroups.
  cbn [statistical_inefficiency_loop]. unfold statistical_inefficiency_group.
  rewrite slicing_group_zero by done. by destruct reading, (truth column).
Qed.

Lemma equilibrium_detection_zero ts data how column lower upper
    conservative return_calculated force :
  rows data ≠ [] →
  equilibrium_detection ts data how column lower upper (Some 0)
    conservative return_calculated force = Raise SliceStepZero.
Proof.
  intros Hne. destruct (first_group data Hne) as (k & keys & Hkeys & Hgroups).
  assert (k ∈ group_keys (rows data)) as Hk by (rewrite Hkeys; by left).
  unfold equilibrium_detection. rewrite Hgroups.
  cbn [equilibrium_detection_loop]. unfold equilibrium_detection_group.
  by rewrite slicing_group_zero.
Qed.

Lemma statistical_inefficiency_Ok_step ts reading data how column lower upper
    step conservative return_calculated force out calc :
  statistical_inefficiency ts reading data how column lower upper step
    conservative return_calculated force = Ok (out, calc) →
  step ≠ Some 0.
Proof.
  intros Hok ->.
  pose proof (statistical_inefficiency_view _ _ _ _ _ _ _ _ _ _ _ _ _ Hok)
    as (Hne & _).
  by rewrite statistical_inefficiency_zero in Hok.
Qed.

Lemma equilibrium_detection_Ok_step ts data how column lower upper
    step conservative return_calculated force out calc :
  equilibrium_detection ts data how column lower upper step
    conservative return_calculated force = Ok (out, calc) →
  step ≠ Some 0.
Proof.
  intros Hok ->.
  pose proof (equilibrium_detection_view _ _ _ _ _ _ _ _ _ _ _ _ Hok)
    as (Hne & _).
  by rewrite equilibrium_detection_zero in Hok.
Qed.

(** ** The rows in the window of a slice *)

Lemma sorted_by_time rs :
  StronglySorted (le_of index_leb) rs →
  StronglySorted (λ r1 r2, time r1 ≤ time r2) rs.
Proof.
  induction 1 as [|r rs _ IH Hr]; constructor; [done|].
  eapply Forall_impl; [exact Hr|]. intros r'. apply index_leb_time.
Qed.

Lemma before_false lower r :
  before lower r = false ↔ from_option (λ lo, lo ≤ time r) True lower.
Proof. destruct lower as [lo|]; simpl; [|done]. rewrite Z.ltb_ge. done. Qed.

Lemma upto_true upper r :
  upto upper r = true ↔ from_option (λ up, time r ≤ up) True upper.
Proof. destruct upper as [up|]; simpl; [|done]. by rewrite Z.leb_le. Qed.

Lemma filter_in_range_above lower upper r rs :
  upto upper r = false → Forall (λ r', time r ≤ time r') rs →
  filter (in_range lower upper) rs = [].
Proof.
  intros Hr. induction 1 as [|r' rs Hr' _ IH]; [done|].
  rewrite filter_cons_False; [done|]. intros [_ Hup].
  destruct upper as [up|]; simpl in *; [|done].
  apply Z.leb_gt in Hr. lia.
Qed.

Lemma bisect_before_sorted lower r rs :
  before lower r = false → Forall (λ r', time r ≤ time r') rs →
  bisect (before lower) rs = 0%nat.
Proof.
  intros Hr. destruct 1 as [|r' rs Hr' _]; simpl; [done|].
  destruct lower as [lo|]; simpl in *; [|done].
  apply Z.ltb_ge in Hr. by rewrite (proj2 (Z.ltb_ge _ _)) by lia.
Qed.

(** On rows sorted by time the two bisections cut out the rows in range. *)
Lemma bisect_filter lower upper rs :
  StronglySorted (λ r1 r2, time r1 ≤ time r2) rs →
  take (bisect (upto upper) rs - bisect (before lower) rs)
       (drop (bisect (before lower) rs) rs)
  = filter (in_range lower upper) rs.
Proof.
  induction 1 as [|r rs Hs IH Hr]; [done|]. simpl.
  destruct (before lower r) eqn:Hlo, (upto upper r) eqn:Hup; simpl.
  - rewrite IH, filter_cons_False; [done|]. intros [Hl _].
    apply before_false in Hl. congruence.
  - symmetry. by apply (filter_in_range_above lower upper r (r :: rs));
      [|constructor].
  - rewrite (bisect_before_sorted lower r rs) in IH by done.
    rewrite Nat.sub_0_r, drop_0 in IH. rewrite IH, filter_cons_True; [done|].
    split; [by apply before_false|by apply upto_true].
  - symmetry. by apply (filter_in_range_above lower upper r (r :: rs));
      [|constructor].
Qed.

Lemma window_filter lo hi rs :
  StronglySorted (le_of index_leb) rs →
  window lo hi rs = filter (in_range lo hi) rs.
Proof. intros Hs. by apply bisect_filter, sorted_by_time. Qed.

(** The rows of a sliced group: of the rows of the group in the window,
    taken in the direction of the walk, the first and every [stride]-th
    after it. *)
Lemma sliced_frame_rows data k lower upper step :
  rows (sliced_frame data k lower upper step) =
    every_from 0 (stride step)
      (window_rows lower upper step (group_rows k (rows (sort_index data)))).
Proof.
  unfold sliced_frame, loc_frame, window_rows. cbn [rows get_group]. f_equal.
  destruct (backward step); rewrite window_filter; try done;
    apply StronglySorted_filter, sort_index_sorted.
Qed.

Lemma slicing_group_rows data lower upper step force out k :
  slicing data lower upper step force = Ok out →
  group_rows k (rows out) = rows (sliced_frame data k lower upper step).
Proof.
  intros (_ & _ & -> & _)%slicing_Ok.
  rewrite (group_rows_mjoin (λ k, rows (sliced_frame data k lower upper step)));
    [|apply group_keys_NoDup|intros; apply sliced_frame_key].
  case_decide; [done|]. by rewrite sliced_frame_not_key.
Qed.

Lemma every_from_lookup {A} skip stride (l : list A) m :
  (1 ≤ stride)%nat →
  every_from skip stride l !! m = l !! (skip + m * stride)%nat.
Proof.
  intros Hs. revert skip m.
  induction l as [|x l IH]; intros skip m; simpl; [done|].
  destruct skip as [|skip].
  - destruct m as [|m]; simpl; [done|]. rewrite IH.
    replace (stride + m * stride)%nat with (S (stride - 1 + m * stride)) by lia.
    done.
  - by rewrite IH.
Qed.

(** ** Times within a sliced group *)

Lemma sorted_unique_time (R S : relation row) rs :
  (∀ r1 r2, R r1 r2 → time r1 ≠ time r2 → S r1 r2) →
  StronglySorted R rs → NoDup (time <$> rs) → StronglySorted S rs.
Proof.
  intros HRS. induction 1 as [|r rs Hs IH Hr]; [constructor|].
  rewrite fmap_cons, NoDup_cons. intros [Hnin Hnd].
  constructor; [auto|]. apply Forall_forall. intros r' Hr'.
  eapply Forall_forall in Hr; [|done]. apply HRS; [done|].
  intros Heq. apply Hnin. rewrite Heq. by apply list_elem_of_fmap_2.
Qed.

(** The rows of a sliced group follow the walk of the slice: their times
    ascend for a forward slice and descend for a backward one. *)
Lemma sliced_frame_time_sorted data k lower upper step :
  NoDup (time <$> rows (sliced_frame data k lower upper step)) →
  StronglySorted (time_order step)
    (rows (sliced_frame data k lower upper step)).
Proof.
  apply (sorted_unique_time
           (if backward step then flip (le_of index_leb) else le_of index_leb)).
  - intros r1 r2 HR Hne. unfold time_order.
    destruct (backward step); [unfold flip in HR|];
      apply index_leb_time in HR; lia.
  - eapply StronglySorted_sublist; [apply sliced_frame_sublist|].
    destruct (backward step).
    + apply StronglySorted_reverse, StronglySorted_filter, sort_index_sorted.
    + apply StronglySorted_filter, sort_index_sorted.
Qed.

Lemma StronglySorted_drop_lookup {A} (R : relation A) l t x0 x :
  StronglySorted R l → l !! t = Some x0 → x ∈ drop t l → x = x0 ∨ R x0 x.
Proof.
  intros Hs Ht Hx. rewrite (drop_S l x0 t Ht) in Hx.
  apply elem_of_cons in Hx as [->|Hx]; [by left|right].
  assert (StronglySorted R (x0 :: drop (S t) l)) as Hs'.
  { rewrite <-(drop_S l x0 t Ht).
    eapply StronglySorted_sublist; [apply sublist_drop|done]. }
  apply StronglySorted_cons in Hs' as [Hall _].
  by eapply Forall_forall in Hall.
Qed.

Lemma getitem_empty df column series :
  rows df = [] → getitem df column = Ok series → series = [].
Proof.
  intros Hnil. unfold getitem. destruct column as [c|]; [|done].
  destruct (list_find _ _) as [[i ?]|]; [|done]. rewrite Hnil. by intros [= <-].
Qed.

Lemma take_rows_empty indices picked :
  take_rows [] indices = Ok picked → picked = [].
Proof. by destruct indices; [intros [= <-]|]. Qed.

(** ** The subsample-index routine *)

Module pymbar_facts.
Import pymbar.

Lemma round_upper q : (inject_Z (round q) <= q + (1 # 2))%Q.
Proof.
  unfold round. pose proof (Qfloor_le q) as Hlo.
  pose proof (Qlt_floor q) as Hhi. rewrite inject_Z_plus in Hhi.
  change (inject_Z 1) with 1%Q in Hhi.
  destruct (Qcompare_spec (q - inject_Z (Qfloor q)) (1 # 2)) as [He|Hl|Hg];
    [destruct (Z.even _)|..]; rewrite ?inject_Z_plus;
    change (inject_Z 1) with 1%Q; lra.
Qed.

Lemma round_lower q : (q - (1 # 2) <= inject_Z (round q))%Q.
Proof.
  unfold round. pose proof (Qfloor_le q) as Hlo.
  pose proof (Qlt_floor q) as Hhi. rewrite inject_Z_plus in Hhi.
  change (inject_Z 1) with 1%Q in Hhi.
  destruct (Qcompare_spec (q - inject_Z (Qfloor q)) (1 # 2)) as [He|Hl|Hg];
    [destruct (Z.even _)|..]; rewrite ?inject_Z_plus;
    change (inject_Z 1) with 1%Q; lra.
Qed.

Lemma Qmult_le_nonneg_l (x y z : Q) : (0 <= z → x <= y → z * x <= z * y)%Q.
Proof. intros. rewrite !(Qmult_comm z). by apply Qmult_le_compat_r. Qed.

Lemma round_le q m : (q <= inject_Z m)%Q → round q ≤ m.
Proof.
  intros Hq. pose proof (round_upper q) as Hr.
  destruct (Z_le_gt_dec (round q) m) as [|Hgt]; [done|].
  assert (m + 1 ≤ round q) as Hle by lia.
  rewrite Zle_Qle, inject_Z_plus in Hle.
  change (inject_Z 1) with 1%Q in Hle. lra.
Qed.

Lemma round_ge q m : (inject_Z m <= q)%Q → m ≤ round q.
Proof.
  intros Hq. pose proof (round_lower q) as Hr.
  destruct (Z_le_gt_dec m (round q)) as [|Hgt]; [done|].
  assert (round q + 1 ≤ m) as Hle by lia.
  rewrite Zle_Qle, inject_Z_plus in Hle.
  change (inject_Z 1) with 1%Q in Hle. lra.
Qed.

Lemma scaled_nonneg (n : nat) g : (1 <= g)%Q → (0 <= inject_Z (Z.of_nat n) * g)%Q.
Proof.
  intros Hg. apply Qmult_le_0_compat; [|lra].
  change 0%Q with (inject_Z 0). rewrite <-Zle_Qle. lia.
Qed.

Lemma round_scaled_nonneg (n : nat) g :
  (1 <= g)%Q → 0 ≤ round (inject_Z (Z.of_nat n) * g).
Proof. intros Hg. by apply round_ge, scaled_nonneg. Qed.

Lemma scaled_step (i j : nat) g :
  (1 <= g)%Q → (i < j)%nat →
  (inject_Z (Z.of_nat i) * g + g <= inject_Z (Z.of_nat j) * g)%Q.
Proof.
  intros Hg Hij.
  assert (inject_Z (Z.of_nat i) + 1 <= inject_Z (Z.of_nat j))%Q as Hle.
  { change 1%Q with (inject_Z 1). rewrite <-inject_Z_plus, <-Zle_Qle. lia. }
  assert ((inject_Z (Z.of_nat i) + 1) * g <= inject_Z (Z.of_nat j) * g)%Q
    by (apply Qmult_le_compat_r; lra).
  lra.
Qed.

(** For [1 <= g] the rounded positions grow strictly with [n]. *)
Lemma round_scaled_lt (i j : nat) g :
  (1 <= g)%Q → (i < j)%nat →
  round (inject_Z (Z.of_nat i) * g) < round (inject_Z (Z.of_nat j) * g).
Proof.
  intros Hg Hij. pose proof (scaled_step i j g Hg Hij) as Hstep.
  destruct (Qlt_le_dec 1 g) as [Hgt|Hle].
  - pose proof (round_upper (inject_Z (Z.of_nat i) * g)) as Hi.
    pose proof (round_lower (inject_Z (Z.of_nat j) * g)) as Hj.
    rewrite Zlt_Qlt. lra.
  - assert (g == 1)%Q as Hone by lra.
    assert (round (inject_Z (Z.of_nat i) * g) ≤ Z.of_nat i)
      by (apply round_le; rewrite Hone; lra).
    assert (Z.of_nat j ≤ round (inject_Z (Z.of_nat j) * g))
      by (apply round_ge; rewrite Hone; lra).
    lia.
Qed.

(** The positions of [range(0, T, stride)]. *)
Lemma every_from_seq_lookup skip stride a len m x :
  (1 ≤ stride)%nat →
  every_from skip stride (seq a len) !! m = Some x →
  (x = a + skip + m * stride ∧ x < a + len)%nat.
Proof.
  intros Hs. revert a skip m.
  induction len as [|len IH]; intros a skip m; simpl; [done|].
  destruct skip as [|skip].
  - destruct m as [|m]; simpl.
    + intros [= <-]. lia.
    + intros [-> ?]%IH. lia.
  - intros [-> ?]%IH. lia.
Qed.

Lemma StronglySorted_seq a len : StronglySorted lt (seq a len).
Proof.
  revert a. induction len as [|len IH]; intros a; simpl; constructor; [done|].
  apply Forall_forall. intros x Hx%elem_of_seq. lia.
Qed.

Lemma range_sorted T stride : StronglySorted lt (range T stride).
Proof.
  eapply StronglySorted_sublist; [apply every_from_sublist|].
  apply StronglySorted_seq.
Qed.

Lemma fractional_loop_elem fuel n T g x :
  x ∈ fractional_loop fuel n T g →
  ∃ i, (n ≤ i)%nat ∧ x = Z.to_nat (round (inject_Z (Z.of_nat i) * g)).
Proof.
  revert n. induction fuel as [|fuel IH]; intros n; simpl.
  - by intros ?%elem_of_nil.
  - destruct (_ <? _); [|by intros ?%elem_of_nil].
    intros [->|(i & ? & ->)%IH]%elem_of_cons; [exists n|exists i]; split; lia.
Qed.

Lemma fractional_loop_sorted fuel n T g :
  (1 <= g)%Q → StronglySorted lt (fractional_loop fuel n T g).
Proof.
  intros Hg. revert n. induction fuel as [|fuel IH]; intros n; simpl.
  - constructor.
  - destruct (_ <? _); [|constructor]. constructor; [apply IH|].
    apply Forall_forall. intros x (i & Hi & ->)%fractional_loop_elem.
    pose proof (round_scaled_nonneg n g Hg).
    pose proof (round_scaled_lt n i g Hg ltac:(lia)). lia.
Qed.

Lemma fractional_loop_S fuel n T g :
  fractional_loop (S fuel) n T g =
    if round (inject_Z (Z.of_nat n) * g) <? Z.of_nat T
    then Z.to_nat (round (inject_Z (Z.of_nat n) * g))
           :: fractional_loop fuel (S n) T g
    else [].
Proof. done. Qed.

(** The loop leaves through its test, not for want of fuel. *)
Lemma fractional_loop_fuel fuel n T g :
  (1 <= g)%Q → (T ≤ n + fuel)%nat →
  fractional_loop (S fuel) n T g = fractional_loop fuel n T g.
Proof.
  intros Hg. revert n. induction fuel as [|fuel IH]; intros n Hn.
  - simpl. destruct (Z.ltb_spec (round (inject_Z (Z.of_nat n) * g)) (Z.of_nat T))
      as [Hlt|]; [|done].
    assert (Z.of_nat n ≤ round (inject_Z (Z.of_nat n) * g)); [|lia].
    apply round_ge. pose proof (scaled_nonneg n g Hg).
    assert (0 <= inject_Z (Z.of_nat n))%Q
      by (change 0%Q with (inject_Z 0); rewrite <-Zle_Qle; lia).
    assert (inject_Z (Z.of_nat n) * 1 <= inject_Z (Z.of_nat n) * g)%Q
      by (apply Qmult_le_nonneg_l; lra || done).
    lra.
  - rewrite (fractional_loop_S (S fuel) n), (fractional_loop_S fuel n).
    by rewrite (IH (S n)) by lia.
Qed.

Lemma fractional_indices_fuel fuel T g :
  (1 <= g)%Q → (T < fuel)%nat →
  fractional_loop fuel 0 T g = fractional_indices T g.
Proof.
  intros Hg Hfuel. unfold fractional_indices.
  replace fuel with (S T + (fuel - S T))%nat by lia.
  induction (fuel - S T)%nat as [|d IH]; [by rewrite Nat.add_0_r|].
  rewrite Nat.add_succ_r, fractional_loop_fuel by (done || lia). done.
Qed.

Lemma fractional_loop_length j fuel n T g :
  (j ≤ fuel)%nat →
  (∀ i, (i < j)%nat → round (inject_Z (Z.of_nat (n + i)) * g) < Z.of_nat T) →
  (j ≤ length (fractional_loop fuel n T g))%nat.
Proof.
  revert fuel n. induction j as [|j IH]; intros fuel n Hfuel Hlt; [lia|].
  destruct fuel as [|fuel]; [lia|]. simpl.
  pose proof (Hlt 0%nat ltac:(lia)) as H0. rewrite Nat.add_0_r in H0.
  apply Z.ltb_lt in H0. rewrite H0. simpl.
  apply le_n_S, IH; [lia|]. intros i Hi.
  replace (S n + i)%nat with (n + S i)%nat by lia. apply Hlt. lia.
Qed.

(** The uniform stride of [ceil(g)] never gives more positions than the
    fractional stride. *)
Lemma conservative_indices_length T g :
  (1 <= g)%Q →
  (length (conservative_indices T g) ≤ length (fractional_indices T g))%nat.
Proof.
  intros Hg. unfold fractional_indices.
  pose proof (Qle_ceiling g) as Hceil.
  assert (1 ≤ Qceiling g) as Hc1.
  { rewrite Zle_Qle. change (inject_Z 1) with 1%Q. lra. }
  apply fractional_loop_length.
  - unfold conservative_indices, range.
    etrans; [apply sublist_length, every_from_sublist|].
    rewrite length_seq. lia.
  - intros i Hi. apply lookup_lt_is_Some in Hi as [x Hx].
    apply every_from_seq_lookup in Hx as [-> Hx]; [|lia].
    simpl in *. eapply Z.le_lt_trans; [|apply inj_lt, Hx].
    apply round_le.
    rewrite Nat2Z.inj_mul, Z2Nat.id, inject_Z_mult by lia.
    apply Qmult_le_nonneg_l; [|done].
    change 0%Q with (inject_Z 0). rewrite <-Zle_Qle. lia.
Qed.

Lemma subsampleCorrelatedData_sorted A_t g conservative indices :
  subsampleCorrelatedData A_t g conservative = Ok indices →
  StronglySorted lt indices.
Proof.
  unfold subsampleCorrelatedData. destruct g as [|g]; [done|].
  destruct (Qle_bool 1 g) eqn:Hg; [|done]. apply Qle_bool_iff in Hg.
  destruct conservative; intros [= <-].
  - apply range_sorted.
  - by apply fractional_loop_sorted.
Qed.
End pymbar_facts.

Lemma with_estimators_ordered estimate detect :
  ordered_positions (with_estimators estimate detect).
Proof.
  intros series g conservative indices.
  apply pymbar_facts.subsampleCorrelatedData_sorted.
Qed.

(** * The properties of the specification *)

(** ** Sample runs *)

Example slicing_two_windows :
  slicing two_windows (Some 1) (Some 11) None false =
    Ok (Frame ["fep"] [obs 1 0 (3#2); obs 2 0 (5#2); obs 10 1 (1#2); obs 11 1 (3#2)]).
Proof. reflexivity. Qed.

Example slicing_single_step :
  slicing single (Some 1) None (Some 2) false =
    Ok (Frame ["fep"] [obs 1 0 (3#2); obs 3 0 (1#2); obs 5 0 (5#2)]).
Proof. reflexivity. Qed.

(** A negative step walks backwards from [lower] down to [upper]; with the
    bounds the other way round the window is empty; a step of 0 raises. *)
Example slicing_single_backward :
  slicing single (Some 4) (Some 1) (Some (-2)) false =
    Ok (Frame ["fep"] [obs 4 0 (3#2); obs 2 0 (5#2)]) ∧
  slicing single (Some 1) (Some 4) (Some (-1)) false = Ok (Frame ["fep"] []) ∧
  slicing single None None (Some (-1)) false =
    Ok (Frame ["fep"] [obs 5 0 (5#2); obs 4 0 (3#2); obs 3 0 (1#2);
                       obs 2 0 (5#2); obs 1 0 (3#2); obs 0 0 (1#2)]) ∧
  slicing single (Some 1) (Some 4) (Some 0) false = Raise SliceStepZero.
Proof. split_and!; reflexivity. Qed.

Example slicing_repeated :
  slicing repeated None None None false = Raise (DuplicateTimes in_slicing) ∧
  slicing repeated None (Some 0) None false = Ok (Frame ["fep"] [obs 0 0 (1#2)]) ∧
  slicing repeated None None None true = Ok repeated.
Proof. split_and!; reflexivity. Qed.

Example subsample_positions :
  pymbar.conservative_indices 10 (3 # 2) = [0; 2; 4; 6; 8]%nat ∧
  pymbar.fractional_indices 10 (3 # 2) = [0; 2; 3; 4; 6; 8; 9]%nat ∧
  pymbar.conservative_indices 10 (5 # 2) = [0; 3; 6; 9]%nat ∧
  pymbar.fractional_indices 10 (5 # 2) = [0; 2; 5; 8]%nat.
Proof. split_and!; reflexivity. Qed.

Example statistical_inefficiency_single :
  statistical_inefficiency steady loop_after_if single how_auto (Some "fep")
    None None None true false false
    = Ok (Frame ["fep"] [obs 0 0 (1#2); obs 2 0 (5#2); obs 4 0 (3#2)], None) ∧
  statistical_inefficiency steady loop_inside_if single how_auto (Some "fep")
    None None None false false false
    = Ok (Frame ["fep"]
            [obs 0 0 (1#2); obs 2 0 (5#2); obs 3 0 (1#2); obs 4 0 (3#2)], None) ∧
  statistical_inefficiency steady loop_after_if single how_auto (Some "dhdl")
    None None None true false false = Raise (NoSuchColumn (Some "dhdl")).
Proof. split_and!; reflexivity. Qed.

Example equilibrium_detection_single :
  equilibrium_detection steady single how_auto (Some "fep")
    None None None true false false
    = Ok (Frame ["fep"] [obs 1 0 (3#2); obs 3 0 (1#2); obs 5 0 (5#2)], None).
Proof. reflexivity. Qed.

(** ** Order of the rows [slicing] returns *)

Lemma slicing_sorted data lower upper step force out :
  unique_times data →
  slicing data lower upper step force = Ok out →
  StronglySorted (walk_major step) (rows out).
Proof.
  intros Hu (_ & _ & -> & _)%slicing_Ok.
  apply (mjoin_groups_walk_sorted step
           (λ k, rows (sliced_frame data k lower upper step))).
  - apply group_keys_sorted.
  - intros k. apply sliced_frame_key.
  - intros k. by apply sliced_frame_time_sorted, sliced_frame_unique.
Qed.

Lemma slicing_unbounded_sorted data :
  rows data ≠ [] → unique_times data →
  ∃ out, slicing data None None None false = Ok out ∧
         StronglySorted lambda_major (rows out).
Proof.
  intros Hne Hu.
  destruct (slicing_returns data None None None false) as [out Hout].
  - done.
  - done.
  - intros _ k _. by apply sliced_frame_unique.
  - exists out. split; [done|]. by apply (slicing_sorted _ _ _ _ _ _ Hu Hout).
Qed.

Lemma StronglySorted_lookup_lt {A} (R : relation A) l i j x y :
  StronglySorted R l → l !! i = Some x → l !! j = Some y → (i < j)%nat → R x y.
Proof.
  intros Hs. revert i j. induction Hs as [|z l _ IH Hz]; intros i j; [done|].
  destruct i as [|i], j as [|j]; simpl; try lia.
  - intros [= ->] Hy _. rewrite Forall_forall in Hz.
    by eapply Hz, list_elem_of_lookup_2.
  - intros Hx Hy Hij. apply (IH i j); [done..|lia].
Qed.

(** A table in lambda-state-key-major order in which a row of a smaller
    lambda key has a later time than a row of a larger key is not in the
    order of the index, where time is the outermost level. *)
Lemma walk_major_not_time_major step rs r1 r2 :
  StronglySorted (walk_major step) rs →
  r1 ∈ rs → r2 ∈ rs →
  tuple_lt (lambdas r1) (lambdas r2) → time r2 < time r1 →
  ¬ StronglySorted (le_of index_leb) rs.
Proof.
  intros Hs [i Hi]%list_elem_of_lookup [j Hj]%list_elem_of_lookup Hk Ht Hidx.
  destruct (Nat.lt_total i j) as [Hij|[->|Hij]].
  - pose proof (StronglySorted_lookup_lt _ _ _ _ _ _ Hidx Hi Hj Hij) as Hle.
    apply index_leb_time in Hle. lia.
  - assert (r1 = r2) as -> by congruence. by destruct Hk.
  - destruct (StronglySorted_lookup_lt _ _ _ _ _ _ Hs Hj Hi Hij)
      as [[Hle Hne]|[Heq _]].
    + destruct Hk as [Hle' _]. by apply Hne, tuple_leb_antisym.
    + destruct Hk as [_ Hne]. by apply Hne.
Qed.

(** The table of C10 on which the times of a group come out descending: a
    step of [-1] walks every lambda state backwards. *)
Lemma slicing_backward_counterexample :
  unique_times interleaved ∧
  slicing interleaved None None (Some (-1)) false =
    Ok (Frame ["fep"] [obs 1 0 (5#2); obs 0 0 (1#2); obs 1 1 (7#2); obs 0 1 (3#2)]) ∧
  ¬ StronglySorted lambda_major
      [obs 1 0 (5#2); obs 0 0 (1#2); obs 1 1 (7#2); obs 0 1 (3#2)].
Proof.
  split_and!; [decide_by_computation|reflexivity|].
  intros Hs. apply StronglySorted_cons in Hs as [Hall _].
  apply Forall_cons in Hall as [[[_ Hne]|[_ Hlt]] _]; [done|].
  simpl in Hlt. lia.
Qed.

(** C10, amended: on a table with a row and with unique times in every
    group, [slicing] with a step other than 0 returns a table with the
    columns of the input whose rows are, for every lambda state, the rows
    of that state in the window of the slice, every [stride]-th of them
    along the walk; the rows are in lambda-state-key-major order, of two
    rows the one of the smaller lambda key first, and within one key the
    times ascending for a forward slice and descending for a backward one.
    This is not the order of the sorted index as soon as a row of a smaller
    key has a later time than a row of a larger key. *)
Theorem slicing_lambda_major_order data lower upper step force :
  rows data ≠ [] → unique_times data → step ≠ Some 0 →
  ∃ out, slicing data lower upper step force = Ok out ∧
    columns out = columns data ∧
    (∀ k, group_rows k (rows out) =
          every_from 0 (stride step)
            (window_rows lower upper step
               (group_rows k (rows (sort_index data))))) ∧
    StronglySorted (walk_major step) (rows out) ∧
    (∀ r1 r2, r1 ∈ rows out → r2 ∈ rows out →
       tuple_lt (lambdas r1) (lambdas r2) → time r2 < time r1 →
       ¬ StronglySorted (le_of index_leb) (rows out)).
Proof.
  intros Hne Hu Hstep.
  destruct (slicing_returns data lower upper step force) as [out Hout].
  - done.
  - done.
  - intros _ k _. by apply sliced_frame_unique.
  - exists out. pose proof (slicing_sorted _ _ _ _ _ _ Hu Hout) as Hsorted.
    split_and!; [done| | |done|].
    + by apply slicing_Ok in Hout as (_ & ? & _).
    + intros k. by rewrite (slicing_group_rows _ _ _ _ _ _ k Hout),
        sliced_frame_rows.
    + intros r1 r2. by apply (walk_major_not_time_major step).
Qed.

Lemma slicing_lambda_major_order_witness :
  ∃ out, slicing interleaved None None (Some (-1)) false = Ok out ∧
    columns out = columns interleaved ∧
    (∀ k, group_rows k (rows out) =
          every_from 0 (stride (Some (-1)))
            (window_rows None None (Some (-1))
               (group_rows k (rows (sort_index interleaved))))) ∧
    StronglySorted (walk_major (Some (-1))) (rows out) ∧
    (∀ r1 r2, r1 ∈ rows out → r2 ∈ rows out →
       tuple_lt (lambdas r1) (lambdas r2) → time r2 < time r1 →
       ¬ StronglySorted (le_of index_leb) (rows out)).
Proof.
  apply slicing_lambda_major_order.
  - done.
  - decide_by_computation.
  - done.
Defined.

Example slicing_not_time_major :
  slicing interleaved None None None false =
    Ok (Frame ["fep"] [obs 0 0 (1#2); obs 1 0 (5#2); obs 0 1 (3#2); obs 1 1 (7#2)]) ∧
  sort_index interleaved = interleaved.
Proof. split; reflexivity. Qed.

(** ** [slicing] without bounds *)

Lemma slicing_unbounded_rows data force out :
  slicing data None None None force = Ok out →
  rows out = mjoin ((λ k, group_rows k (rows (sort_index data)))
                      <$> group_keys (rows (sort_index data))).
Proof.
  intros (_ & _ & -> & _)%slicing_Ok. rewrite group_keys_sort_index.
  f_equal. apply Forall_fmap_ext, Forall_forall. intros k _.
  unfold sliced_frame. by rewrite loc_frame_unbounded.
Qed.

(** The table of C6 whose output is not the sorted input: two lambda states
    sampled at the same times. *)
Lemma slicing_identity_counterexample :
  unique_times interleaved ∧
  ∃ out, slicing interleaved None None None false = Ok out ∧
         out ≠ sort_index interleaved.
Proof.
  split; [decide_by_computation|].
  eexists. split; [reflexivity|]. vm_compute. discriminate.
Qed.

(** C6, amended: on a table with a row and with unique times in every group,
    [slicing] without bounds returns the rows of the sorted input, all of
    them, regrouped by lambda state: every group is the group of the sorted
    input, and the groups follow each other in ascending key order.  With a
    single lambda-state group this is the sorted input itself. *)
Theorem slicing_unbounded_regroups data :
  rows data ≠ [] → unique_times data →
  ∃ out, slicing data None None None false = Ok out ∧
    columns out = columns data ∧
    rows out ≡ₚ rows (sort_index data) ∧
    (∀ k, group_rows k (rows out) = group_rows k (rows (sort_index data))) ∧
    StronglySorted lambda_major (rows out) ∧
    (length (group_keys (rows data)) = 1%nat → out = sort_index data).
Proof.
  intros Hne Hu.
  destruct (slicing_unbounded_sorted data Hne Hu) as (out & Hout & Hsorted).
  exists out. pose proof (slicing_unbounded_rows _ _ _ Hout) as Hrows.
  pose proof (slicing_Ok _ _ _ _ _ _ Hout) as (_ & Hcols & _ & _).
  assert (∀ k, Forall (λ r, lambdas r = k) (group_rows k (rows (sort_index data))))
    as Hkey by (intros; apply group_rows_key).
  split_and!; try done.
  - rewrite Hrows. apply mjoin_groups_perm; [apply group_keys_NoDup|].
    intros r Hr. apply elem_of_group_keys. eauto.
  - intros k. rewrite Hrows.
    rewrite (group_rows_mjoin (λ k, group_rows k (rows (sort_index data))))
      by (by apply group_keys_NoDup || done).
    case_decide; [done|]. by rewrite group_rows_not_key.
  - intros Hone. destruct out as [cs rs]. cbn [rows columns] in Hrows, Hcols.
    subst cs rs. rewrite group_keys_sort_index.
    destruct (group_keys (rows data)) as [|k [|??]] eqn:Hks; try done.
    cbn [fmap list_fmap]. change (mjoin [?l]) with (l ++ []).
    rewrite app_nil_r, group_rows_all; [done|]. apply Forall_forall.
    intros r Hr. assert (lambdas r ∈ group_keys (rows data)) as Hin.
    { rewrite <-group_keys_sort_index. apply elem_of_group_keys. eauto. }
    rewrite Hks in Hin. by apply list_elem_of_singleton in Hin.
Qed.

Lemma slicing_unbounded_regroups_witness :
  ∃ out, slicing interleaved None None None false = Ok out ∧
    columns out = columns interleaved ∧
    rows out ≡ₚ rows (sort_index interleaved) ∧
    (∀ k, group_rows k (rows out) = group_rows k (rows (sort_index interleaved))) ∧
    StronglySorted lambda_major (rows out) ∧
    (length (group_keys (rows interleaved)) = 1%nat → out = sort_index interleaved).
Proof.
  apply slicing_unbounded_regroups.
  - done.
  - decide_by_computation.
Defined.

(** ** The [column] argument left unset *)

Lemma statistical_inefficiency_group_column_unset group lower upper step
    conservative force :
  ∃ e, ∀ ts, statistical_inefficiency_group ts group None lower upper step
               conservative force = Raise e.
Proof.
  unfold statistical_inefficiency_group.
  destruct (slicing group lower upper step false) as [group_s|e]; simpl;
    [|by exists e].
  destruct (negb force && _); by eexists.
Qed.

Lemma equilibrium_detection_group_column_unset group lower upper step
    conservative force :
  ∃ e, ∀ ts, equilibrium_detection_group ts group None lower upper step
               conservative force = Raise e.
Proof.
  unfold equilibrium_detection_group.
  destruct (slicing group lower upper step false) as [group_s|e]; simpl;
    [|by exists e].
  destruct (negb force && _); by eexists.
Qed.

Lemma statistical_inefficiency_column_unset reading data lower upper step
    conservative return_calculated force :
  ∃ e, ∀ ts how,
    statistical_inefficiency ts reading data how None lower upper step
      conservative return_calculated force = Raise e.
Proof.
  unfold statistical_inefficiency. destruct reading; simpl; [|by eexists].
  destruct (groupby (sort_index data)) as [|[name group] groups];
    [by eexists|].
  destruct (statistical_inefficiency_group_column_unset group lower upper step
              conservative force) as [e He].
  exists e. intros ts _. simpl. by rewrite He.
Qed.

Lemma equilibrium_detection_column_unset data lower upper step
    conservative return_calculated force :
  ∃ e, ∀ ts how,
    equilibrium_detection ts data how None lower upper step
      conservative return_calculated force = Raise e.
Proof.
  unfold equilibrium_detection.
  destruct (groupby (sort_index data)) as [|[name group] groups];
    [by eexists|].
  destruct (equilibrium_detection_group_column_unset group lower upper step
              conservative force) as [e He].
  exists e. intros ts _. simpl. by rewrite He.
Qed.

(** C1: the code does not do what the specification asks for.  A call of
    [statistical_inefficiency] that leaves [column] unset raises, and raises
    the same exception whatever the collaborator and whatever [how]: no
    observable is resolved through [how], no group is analysed, no table is
    returned.  When the loop is read as the body of line 172 it is not
    entered, and the exception is the one of [pd.concat] on no frame. *)
Theorem statistical_inefficiency_without_column_raises data lower upper step
    conservative return_calculated force :
  (∀ ts how,
     statistical_inefficiency ts loop_inside_if data how None lower upper step
       conservative return_calculated force = Raise NoObjectsToConcatenate) ∧
  (∃ e, ∀ ts how,
     statistical_inefficiency ts loop_after_if data how None lower upper step
       conservative return_calculated force = Raise e).
Proof.
  split; [done|].
  unfold statistical_inefficiency.
  destruct (groupby (sort_index data)) as [|[name group] groups];
    [by eexists|].
  cbn [statistical_inefficiency_loop]. unfold statistical_inefficiency_group.
  destruct (slicing group lower upper step false) as [group_s|e]; simpl;
    [|by exists e].
  destruct (negb force && _); by eexists.
Qed.

(** C4: the code does not do what the specification asks for.  With
    [how='sum'] and no [column], neither subsampler sums the columns of a
    group: both raise, with the same exception for every collaborator, so
    before the series of any group reaches the correlation analysis. *)
Theorem how_sum_is_not_used reading data lower upper step
    conservative return_calculated force :
  (∃ e, ∀ ts,
     statistical_inefficiency ts reading data how_sum None lower upper step
       conservative return_calculated force = Raise e) ∧
  (∃ e, ∀ ts,
     equilibrium_detection ts data how_sum None lower upper step
       conservative return_calculated force = Raise e).
Proof.
  split.
  - destruct (statistical_inefficiency_column_unset reading data lower upper
                step conservative return_calculated force) as [e He].
    exists e. intros ts. apply He.
  - destruct (equilibrium_detection_column_unset data lower upper step
                conservative return_calculated force) as [e He].
    exists e. intros ts. apply He.
Qed.

(** ** Duplicate time stamps and [force] *)

(** [slicing] itself raises the error exactly when [force] is off and some
    group has duplicate times after slicing. *)
Lemma slicing_duplicate_error_iff data lower upper step force :
  is_duplicate_error (slicing data lower upper step force) = true ↔
  force = false ∧
  ∃ k group_s, k ∈ group_keys (rows data) ∧
       sliced_group data k lower upper step = Ok group_s ∧
       ¬ NoDup (time <$> rows group_s).
Proof.
  destruct (decide (step = Some 0)) as [->|Hstep].
  { rewrite slicing_zero. split; [by case_decide|].
    by intros (_ & k & group_s & _ & ? & _). }
  rewrite slicing_eq by done. destruct force; cbn [negb andb].
  - split; [|by intros [? _]].
    by destruct (pd_concat _) as [|[]] eqn:Hc;
      try done; destruct (group_keys (rows data)).
  - destruct (existsb _ _) eqn:Hex; cbn [is_duplicate_error].
    + split; [intros _|done]. split; [done|].
      apply existsb_exists in Hex as (k & Hk & Hc).
      exists k, (sliced_frame data k lower upper step).
      split_and!; [by apply list_elem_of_In|by apply sliced_group_nonzero|].
      by apply check_multiple_times_true.
    + split.
      * by destruct (pd_concat _) as [|[]] eqn:Hc;
          try done; destruct (group_keys (rows data)).
      * intros (_ & k & group_s & Hk & [_ ->]%sliced_group_Ok & Hc).
        apply check_multiple_times_true in Hc.
        assert (existsb (λ k, _check_multiple_times
                  (sliced_frame data k lower upper step))
                  (group_keys (rows data)) = true) as Hex'; [|congruence].
        apply existsb_exists. exists k. split; [|done].
        by apply list_elem_of_In.
Qed.

(** C2: the code does not do what the specification asks for.  Both subsamplers call
    [slicing] without handing [force] on, so with [force=True] the table
    [repeated] still raises the duplicate-time error of [slicing]; and with
    [force=False] they test the group before slicing, so [early_repeat]
    raises although its slice from time 3 on has no duplicate. *)
Theorem force_is_not_handed_to_slicing ts reading how conservative
    return_calculated :
  statistical_inefficiency ts reading repeated how (Some "fep") None None None
    conservative return_calculated true = Raise (DuplicateTimes in_slicing) ∧
  equilibrium_detection ts repeated how (Some "fep") None None None
    conservative return_calculated true = Raise (DuplicateTimes in_slicing) ∧
  (∃ group_s, sliced_group early_repeat [0] (Some 3) None None = Ok group_s ∧
              NoDup (time <$> rows group_s)) ∧
  statistical_inefficiency ts reading early_repeat how (Some "fep") (Some 3)
    None None conservative return_calculated false
    = Raise (DuplicateTimes in_statistical_inefficiency) ∧
  equilibrium_detection ts early_repeat how (Some "fep") (Some 3) None None
    conservative return_calculated false
    = Raise (DuplicateTimes in_equilibrium_detection).
Proof.
  split_and!; try (by destruct reading).
  eexists. split; [reflexivity|]. decide_by_computation.
Qed.

(** ** Groups left without rows by slicing *)

(** A table for C3: with [upper = 5] the lambda state [1] of [two_windows]
    keeps no row.  The collaborator [strict] fails on the empty series, so
    both subsamplers raise; the collaborator [steady] returns its estimate,
    and that estimate, not NaN, is what the diagnostics record holds. *)
Lemma empty_group_counterexample :
  sliced_group two_windows [1] None (Some 5) None = Ok (Frame ["fep"] []) ∧
  statistical_inefficiency strict loop_after_if two_windows how_auto
    (Some "fep") None (Some 5) None true true false = Raise TimeseriesError ∧
  equilibrium_detection strict two_windows how_auto
    (Some "fep") None (Some 5) None true true false = Raise TimeseriesError ∧
  ∃ out c,
    statistical_inefficiency steady loop_after_if two_windows how_auto
      (Some "fep") None (Some 5) None true true false = Ok (out, Some c) ∧
    entry c "statinef" [1] = Some (Fin (3 # 2)) ∧
    entry c "statinef" [1] ≠ Some NaN.
Proof.
  split_and!; [reflexivity..|].
  eexists _, _. split_and!; [reflexivity|by vm_compute|by vm_compute].
Qed.

(** C3, amended: a group without rows after slicing is not guarded.  Both
    subsamplers hand its empty series to the collaborator: when a call
    returns, the collaborator has returned for the empty series, the group
    has no row in the output, and the diagnostics record, when requested,
    holds for the group the [g] the collaborator returned; when the
    collaborator fails on the empty series, the call raises. *)
Theorem empty_group_is_handed_to_collaborator ts reading data how column
    lower upper step conservative return_calculated force k group_s :
  k ∈ group_keys (rows data) →
  sliced_group data k lower upper step = Ok group_s →
  rows group_s = [] →
  (∀ out calc,
     statistical_inefficiency ts reading data how column lower upper step
       conservative return_calculated force = Ok (out, calc) →
     group_rows k (rows out) = [] ∧
     ∃ g, ts.(statisticalInefficiency) [] = Ok g ∧
          (return_calculated = true →
           ∃ c, calc = Some c ∧ entry c "statinef" k = Some g)) ∧
  (∀ out calc,
     equilibrium_detection ts data how column lower upper step
       conservative return_calculated force = Ok (out, calc) →
     group_rows k (rows out) = [] ∧
     ∃ t g n, ts.(detectEquilibration) [] = Ok (t, g, n) ∧
          (return_calculated = true →
           ∃ c, calc = Some c ∧ entry c "statinef" k = Some g)) ∧
  (raises (ts.(statisticalInefficiency) []) →
   raises (statistical_inefficiency ts reading data how column lower upper
             step conservative return_calculated force)) ∧
  (raises (ts.(detectEquilibration) []) →
   raises (equilibrium_detection ts data how column lower upper step
             conservative return_calculated force)).
Proof.
  intros Hk [_ ->]%sliced_group_Ok Hnil.
  assert (∀ out calc,
     statistical_inefficiency ts reading data how column lower upper step
       conservative return_calculated force = Ok (out, calc) →
     group_rows k (rows out) = [] ∧
     ∃ g, ts.(statisticalInefficiency) [] = Ok g ∧
          (return_calculated = true →
           ∃ c, calc = Some c ∧ entry c "statinef" k = Some g)) as Hsi.
  { intros out calc (_ & _ & _ & _ & Hgroups)%statistical_inefficiency_view.
    destruct (Hgroups k Hk)
      as (_ & _ & series & g & indices & Hs & Hg & _ & Hpick & Hcalc).
    apply getitem_empty in Hs as ->; [|done].
    rewrite Hnil in Hpick. apply take_rows_empty in Hpick. eauto. }
  assert (∀ out calc,
     equilibrium_detection ts data how column lower upper step
       conservative return_calculated force = Ok (out, calc) →
     group_rows k (rows out) = [] ∧
     ∃ t g n, ts.(detectEquilibration) [] = Ok (t, g, n) ∧
          (return_calculated = true →
           ∃ c, calc = Some c ∧ entry c "statinef" k = Some g)) as Hed.
  { intros out calc (_ & _ & _ & _ & Hgroups)%equilibrium_detection_view.
    destruct (Hgroups k Hk)
      as (_ & _ & series & t & g & n & series' & indices
          & Hs & Hg & _ & _ & Hpick & Hcalc).
    apply getitem_empty in Hs as ->; [|done].
    rewrite Hnil, drop_nil in Hpick. apply take_rows_empty in Hpick.
    split; [done|]. exists t, g, n. split; [done|].
    intros Hrc. destruct (Hcalc Hrc) as (c & ? & _ & ? & _). eauto. }
  split_and!; [done..| |].
  - intros [e He]. apply not_Ok_raises. intros [out calc] Hok.
    destruct (Hsi out calc Hok) as (_ & g & Hg & _). congruence.
  - intros [e He]. apply not_Ok_raises. intros [out calc] Hok.
    destruct (Hed out calc Hok) as (_ & t & g & n & Hg & _). congruence.
Qed.

Lemma empty_group_is_handed_to_collaborator_witness :
  (∀ out calc,
     statistical_inefficiency steady loop_after_if two_windows how_auto
       (Some "fep") None (Some 5) None true true false = Ok (out, calc) →
     group_rows [1] (rows out) = [] ∧
     ∃ g, steady.(statisticalInefficiency) [] = Ok g ∧
          (true = true → ∃ c, calc = Some c ∧ entry c "statinef" [1] = Some g)) ∧
  (∀ out calc,
     equilibrium_detection steady two_windows how_auto
       (Some "fep") None (Some 5) None true true false = Ok (out, calc) →
     group_rows [1] (rows out) = [] ∧
     ∃ t g n, steady.(detectEquilibration) [] = Ok (t, g, n) ∧
          (true = true → ∃ c, calc = Some c ∧ entry c "statinef" [1] = Some g)) ∧
  (raises (steady.(statisticalInefficiency) []) →
   raises (statistical_inefficiency steady loop_after_if two_windows how_auto
             (Some "fep") None (Some 5) None true true false)) ∧
  (raises (steady.(detectEquilibration) []) →
   raises (equilibrium_detection steady two_windows how_auto
             (Some "fep") None (Some 5) None true true false)).
Proof.
  apply (empty_group_is_handed_to_collaborator steady loop_after_if
           two_windows how_auto (Some "fep") None (Some 5) None
           true true false [1] (Frame ["fep"] [])).
  - decide_by_computation.
  - reflexivity.
  - reflexivity.
Defined.

(** ** The diagnostics record of [equilibrium_detection] *)

(** C5: the code does not do what the specification asks for.  Whenever
    [equilibrium_detection] returns its diagnostics record, the three
    entries of every lambda state hold the same value, the statistical
    inefficiency [g] that [detectEquilibration] returned for the group: the
    cutoff [t] and the effective sample size are not recorded. *)
Theorem equilibrium_detection_records_statinef_thrice ts data how column
    lower upper step conservative force out calc k :
  equilibrium_detection ts data how column lower upper step conservative
    true force = Ok (out, calc) →
  k ∈ group_keys (rows data) →
  ∃ c group_s series t g n,
    calc = Some c ∧
    sliced_group data k lower upper step = Ok group_s ∧
    getitem group_s column = Ok series ∧
    ts.(detectEquilibration) series = Ok (t, g, n) ∧
    entry c "t" k = Some g ∧
    entry c "statinef" k = Some g ∧
    entry c "Neff_max" k = Some g.
Proof.
  intros Hok Hk. pose proof (equilibrium_detection_Ok_step _ _ _ _ _ _ _ _ _ _ _ _ Hok).
  apply equilibrium_detection_view in Hok as (_ & _ & _ & _ & Hgroups).
  destruct (Hgroups k Hk)
    as (_ & _ & series & t & g & n & series' & indices
        & Hs & Hg & _ & _ & _ & Hcalc).
  destruct (Hcalc eq_refl) as (c & -> & ? & ? & ?).
  exists c, (sliced_frame data k lower upper step), series, t, g, n.
  split_and!; try done. by apply sliced_group_nonzero.
Qed.

Lemma equilibrium_detection_records_statinef_thrice_witness :
  ∃ c group_s series t g n,
    Some (setitem (setitem (setitem ∅ "t" [0] (Fin (3 # 2)))
            "statinef" [0] (Fin (3 # 2))) "Neff_max" [0] (Fin (3 # 2))) = Some c ∧
    sliced_group single [0] None None None = Ok group_s ∧
    getitem group_s (Some "fep") = Ok series ∧
    steady.(detectEquilibration) series = Ok (t, g, n) ∧
    entry c "t" [0] = Some g ∧
    entry c "statinef" [0] = Some g ∧
    entry c "Neff_max" [0] = Some g.
Proof.
  apply (equilibrium_detection_records_statinef_thrice steady single how_auto
           (Some "fep") None None None true false
           (Frame ["fep"] [obs 1 0 (3#2); obs 3 0 (1#2); obs 5 0 (5#2)])).
  - reflexivity.
  - decide_by_computation.
Defined.

(** The values at that input: the collaborator [steady] returns the cutoff 1
    and the effective sample size 2, the record holds 1.5 for both. *)
Example equilibrium_detection_diagnostics_single :
  ∃ out c,
    equilibrium_detection steady single how_auto (Some "fep") None None None
      true true false = Ok (out, Some c) ∧
    steady.(detectEquilibration) [1#2; 3#2; 5#2; 1#2; 3#2; 5#2]%Q
      = Ok (1%nat, Fin (3 # 2), Fin 2) ∧
    entry c "t" [0] = Some (Fin (3 # 2)) ∧
    entry c "statinef" [0] = Some (Fin (3 # 2)) ∧
    entry c "Neff_max" [0] = Some (Fin (3 # 2)).
Proof. eexists _, _. split_and!; [reflexivity|done|by vm_compute..]. Qed.

(** ** Rows before the equilibration cutoff *)

(** The table of C8 on which a returned row is earlier than the row at the
    cutoff: with a step of [-1] the sliced group runs from time 5 down to
    time 0, the cutoff position 1 holds the row of time 4, and the rows
    kept after it are those of the times 4, 2 and 0. *)
Lemma equilibrium_detection_backward_counterexample :
  sliced_group single [0] None None (Some (-1)) =
    Ok (Frame ["fep"] [obs 5 0 (5#2); obs 4 0 (3#2); obs 3 0 (1#2);
                       obs 2 0 (5#2); obs 1 0 (3#2); obs 0 0 (1#2)]) ∧
  steady.(detectEquilibration) [5#2; 3#2; 1#2; 5#2; 3#2; 1#2]%Q
    = Ok (1%nat, Fin (3 # 2), Fin 2) ∧
  equilibrium_detection steady single how_auto (Some "fep")
    None None (Some (-1)) true false false
    = Ok (Frame ["fep"] [obs 4 0 (3#2); obs 2 0 (5#2); obs 0 0 (1#2)], None) ∧
  time (obs 2 0 (5#2)) < time (obs 4 0 (3#2)).
Proof. split_and!; [reflexivity..|done]. Qed.

(** C8, amended: for every row [equilibrium_detection] returns, the
    collaborator has returned a cutoff position [t] for the sliced group of
    that row; the subsample positions were computed on the series of the
    group from position [t] on, and the row is one of the rows from
    position [t] on.  The sliced group is in the order of the walk of the
    slice: for a forward slice its times ascend and the time of the row is
    not earlier than the time at position [t]; for a backward slice its
    times descend and the time of the row is not later than that time. *)
Theorem equilibrium_detection_after_cutoff ts data how column lower upper step
    conservative return_calculated force out calc r :
  equilibrium_detection ts data how column lower upper step conservative
    return_calculated force = Ok (out, calc) →
  r ∈ rows out →
  ∃ group_s series t g n series' indices,
    sliced_group data (lambdas r) lower upper step = Ok group_s ∧
    getitem group_s column = Ok series ∧
    ts.(detectEquilibration) series = Ok (t, g, n) ∧
    getitem (iloc_from group_s t) column = Ok series' ∧
    ts.(subsampleCorrelatedData) series' g conservative = Ok indices ∧
    take_rows (drop t (rows group_s)) indices
      = Ok (group_rows (lambdas r) (rows out)) ∧
    r ∈ drop t (rows group_s) ∧
    StronglySorted (time_order step) (rows group_s) ∧
    ∀ r0, rows group_s !! t = Some r0 →
          if backward step then time r ≤ time r0 else time r0 ≤ time r.
Proof.
  intros Hok Hr.
  pose proof (equilibrium_detection_Ok_step _ _ _ _ _ _ _ _ _ _ _ _ Hok) as Hstep.
  apply equilibrium_detection_view in Hok as (_ & _ & _ & Hout & Hgroups).
  assert (r ∈ group_rows (lambdas r) (rows out)) as Hrk
    by by apply list_elem_of_filter.
  destruct (decide (lambdas r ∈ group_keys (rows data))) as [Hk|Hk];
    [|by rewrite (Hout _ Hk) in Hrk; apply elem_of_nil in Hrk].
  destruct (Hgroups _ Hk)
    as (Hnd & _ & series & t & g & n & series' & indices
        & Hs & Hg & Hs' & Hidx & Hpick & _).
  exists (sliced_frame data (lambdas r) lower upper step),
    series, t, g, n, series', indices.
  pose proof (take_rows_subseteq _ _ _ Hpick _ Hrk) as Hin.
  pose proof (sliced_frame_time_sorted _ _ _ _ _ Hnd) as Hsorted.
  split_and!; [by apply sliced_group_nonzero|done..|].
  intros r0 Hr0.
  destruct (StronglySorted_drop_lookup _ _ _ _ _ Hsorted Hr0 Hin) as [->|Hlt].
  - by destruct (backward step).
  - unfold time_order in Hlt. destruct (backward step); lia.
Qed.

Lemma equilibrium_detection_after_cutoff_witness :
  ∃ group_s series t g n series' indices,
    sliced_group single (lambdas (obs 2 0 (5#2))) None None (Some (-1))
      = Ok group_s ∧
    getitem group_s (Some "fep") = Ok series ∧
    steady.(detectEquilibration) series = Ok (t, g, n) ∧
    getitem (iloc_from group_s t) (Some "fep") = Ok series' ∧
    steady.(subsampleCorrelatedData) series' g true = Ok indices ∧
    take_rows (drop t (rows group_s)) indices
      = Ok (group_rows (lambdas (obs 2 0 (5#2)))
              [obs 4 0 (3#2); obs 2 0 (5#2); obs 0 0 (1#2)]) ∧
    obs 2 0 (5#2) ∈ drop t (rows group_s) ∧
    StronglySorted (time_order (Some (-1))) (rows group_s) ∧
    ∀ r0, rows group_s !! t = Some r0 →
          if backward (Some (-1)) then time (obs 2 0 (5#2)) ≤ time r0
          else time r0 ≤ time (obs 2 0 (5#2)).
Proof.
  apply (equilibrium_detection_after_cutoff steady single how_auto
           (Some "fep") None None (Some (-1)) true false false
           (Frame ["fep"] [obs 4 0 (3#2); obs 2 0 (5#2); obs 0 0 (1#2)]) None).
  - reflexivity.
  - decide_by_computation.
Defined.

(** ** The rows [statistical_inefficiency] keeps *)

(** The table of C7 on which the times of the rows kept are not
    increasing: with a step of [-1] the sliced group runs from time 5 down
    to time 0, and the rows at the positions 0, 2 and 4 are those of the
    times 5, 3 and 1. *)
Lemma statistical_inefficiency_backward_counterexample :
  ordered_positions steady ∧
  statistical_inefficiency steady loop_after_if single how_auto (Some "fep")
    None None (Some (-1)) true false false
    = Ok (Frame ["fep"] [obs 5 0 (5#2); obs 3 0 (1#2); obs 1 0 (3#2)], None) ∧
  ¬ StronglySorted (λ r1 r2, time r1 < time r2)
      (group_rows [0] [obs 5 0 (5#2); obs 3 0 (1#2); obs 1 0 (3#2)]).
Proof.
  split_and!; [apply with_estimators_ordered|reflexivity|].
  intros Hs. apply StronglySorted_cons in Hs as [Hall _].
  apply Forall_cons in Hall as [Hlt _]. simpl in Hlt. lia.
Qed.

(** C7, amended: when the collaborator returns positions in increasing
    order and [statistical_inefficiency] returns, [slicing] with the same
    bounds returns as well, and for every lambda state the rows of the
    group in the output are a subsequence of the rows of the group that
    [slicing] returns; their times follow the walk of the slice, strictly
    increasing for a forward slice and strictly decreasing for a backward
    one. *)
Theorem statistical_inefficiency_subset_of_slicing ts reading data how column
    lower upper step conservative return_calculated force force' out calc :
  ordered_positions ts →
  statistical_inefficiency ts reading data how column lower upper step
    conservative return_calculated force = Ok (out, calc) →
  ∃ sliced,
    slicing data lower upper step force' = Ok sliced ∧
    ∀ k, group_rows k (rows out) `sublist_of` group_rows k (rows sliced) ∧
         StronglySorted (time_order step) (group_rows k (rows out)).
Proof.
  intros Hord Hok.
  pose proof (statistical_inefficiency_Ok_step _ _ _ _ _ _ _ _ _ _ _ _ _ Hok)
    as Hstep.
  apply statistical_inefficiency_view in Hok as (Hne & _ & _ & Hout & Hgroups).
  destruct (slicing_returns data lower upper step force') as [sliced Hsl].
  { done. }
  { done. }
  { intros _ k Hk. by destruct (Hgroups k Hk) as (? & _). }
  exists sliced. split; [done|]. intros k.
  apply slicing_Ok in Hsl as (_ & _ & Hrows & _).
  destruct (decide (k ∈ group_keys (rows data))) as [Hk|Hk].
  - destruct (Hgroups k Hk)
      as (Hnd & _ & series & g & indices & _ & _ & Hidx & Hpick & _).
    apply Hord in Hidx.
    pose proof (take_rows_sublist _ _ _ Hidx Hpick) as Hsub.
    split.
    + rewrite Hrows.
      rewrite (group_rows_mjoin
                 (λ k, rows (sliced_frame data k lower upper step)));
        [|apply group_keys_NoDup|intros; apply sliced_frame_key].
      by rewrite decide_True.
    + eapply StronglySorted_sublist; [exact Hsub|].
      by apply sliced_frame_time_sorted.
  - rewrite (Hout k Hk). split; [apply sublist_nil_l|constructor].
Qed.

Lemma statistical_inefficiency_subset_of_slicing_witness :
  ∃ sliced,
    slicing single (Some 4) None (Some (-1)) false = Ok sliced ∧
    ∀ k, group_rows k [obs 4 0 (3#2); obs 2 0 (5#2); obs 0 0 (1#2)]
           `sublist_of` group_rows k (rows sliced) ∧
         StronglySorted (time_order (Some (-1)))
           (group_rows k [obs 4 0 (3#2); obs 2 0 (5#2); obs 0 0 (1#2)]).
Proof.
  apply (statistical_inefficiency_subset_of_slicing steady loop_after_if single
           how_auto (Some "fep") (Some 4) None (Some (-1)) true false false false
           (Frame ["fep"] [obs 4 0 (3#2); obs 2 0 (5#2); obs 0 0 (1#2)]) None).
  - apply with_estimators_ordered.
  - reflexivity.
Defined.

(** ** Conservative and fractional stride *)

(** C9: with the subsample-index routine of the collaborator and any two
    estimators, whenever [statistical_inefficiency] returns with
    [conservative=True] and with [conservative=False] on the same input, no
    lambda state has more rows in the first output than in the second.  The
    estimate of a group is the same in both calls, and the routine accepts
    it only when [1 <= g]. *)
Theorem conservative_never_keeps_more_rows estimate detect reading data how
    column lower upper step return_calculated force out1 calc1 out2 calc2 k :
  statistical_inefficiency (with_estimators estimate detect) reading data how
    column lower upper step true return_calculated force = Ok (out1, calc1) →
  statistical_inefficiency (with_estimators estimate detect) reading data how
    column lower upper step false return_calculated force = Ok (out2, calc2) →
  (length (group_rows k (rows out1)) ≤ length (group_rows k (rows out2)))%nat.
Proof.
  intros (_ & _ & _ & Hout1 & Hgroups1)%statistical_inefficiency_view
         (_ & _ & _ & Hout2 & Hgroups2)%statistical_inefficiency_view.
  destruct (decide (k ∈ group_keys (rows data))) as [Hk|Hk];
    [|by rewrite (Hout1 k Hk), (Hout2 k Hk)].
  destruct (Hgroups1 k Hk)
    as (_ & _ & series & g & indices1 & Hs1 & Hg1 & Hidx1 & Hpick1 & _).
  destruct (Hgroups2 k Hk)
    as (_ & _ & series2 & g2 & indices2 & Hs2 & Hg2 & Hidx2 & Hpick2 & _).
  assert (series2 = series) as -> by congruence.
  assert (g2 = g) as -> by congruence.
  apply take_rows_length in Hpick1, Hpick2. rewrite Hpick1, Hpick2.
  simpl in Hidx1, Hidx2. unfold pymbar.subsampleCorrelatedData in *.
  destruct g as [|g]; [done|].
  destruct (Qle_bool 1 g) eqn:Hg; [|done]. apply Qle_bool_iff in Hg.
  injection Hidx1 as <-. injection Hidx2 as <-.
  by apply pymbar_facts.conservative_indices_length.
Qed.

Lemma conservative_never_keeps_more_rows_witness :
  Nat.le
    (length (group_rows [0] [obs 0 0 (1#2); obs 2 0 (5#2); obs 4 0 (3#2)]))
    (length (group_rows [0]
       [obs 0 0 (1#2); obs 2 0 (5#2); obs 3 0 (1#2); obs 4 0 (3#2)])).
Proof.
  apply (conservative_never_keeps_more_rows
           (λ _, Ok (Fin (3 # 2))) (λ _, Ok (1%nat, Fin (3 # 2), Fin 2))
           loop_after_if single how_auto (Some "fep") None None None false false
           (Frame ["fep"] [obs 0 0 (1#2); obs 2 0 (5#2); obs 4 0 (3#2)]) None
           (Frame ["fep"]
              [obs 0 0 (1#2); obs 2 0 (5#2); obs 3 0 (1#2); obs 4 0 (3#2)]) None
           [0]).
  - reflexivity.
  - reflexivity.
Defined.

(** * Further properties of the module *)

(** ** [_check_multiple_times] *)

Lemma not_NoDup_lookup {A} `{EqDecision A} (l : list A) :
  ¬ NoDup l ↔ ∃ i j x, i ≠ j ∧ l !! i = Some x ∧ l !! j = Some x.
Proof.
  split.
  - induction l as [|x l IH]; [by intros []; constructor|].
    intros Hnd. destruct (decide (x ∈ l)) as [Hin|Hnin].
    + apply list_elem_of_lookup in Hin as [j Hj].
      by exists 0%nat, (S j), x.
    + destruct IH as (i & j & y & Hij & Hi & Hj).
      { intros Hl. apply Hnd. by constructor. }
      exists (S i), (S j), y. split_and!; [lia|done..].
  - intros (i & j & x & Hij & Hi & Hj) Hnd.
    apply Hij. by eapply NoDup_lookup.
Qed.

(** X1: [_check_multiple_times] answers [True] exactly when two rows of the
    table, at different positions, have the same time: it looks at no
    lambda state and at no order of the rows. *)
Theorem check_multiple_times_iff_repeated_time df :
  _check_multiple_times df = true ↔
  ∃ i j r1 r2, i ≠ j ∧ rows df !! i = Some r1 ∧ rows df !! j = Some r2 ∧
               time r1 = time r2.
Proof.
  rewrite check_multiple_times_true, not_NoDup_lookup. split.
  - intros (i & j & t & Hij & Hi & Hj).
    apply list_lookup_fmap_Some in Hi as (r1 & -> & Hr1).
    apply list_lookup_fmap_Some in Hj as (r2 & Ht & Hr2).
    by exists i, j, r1, r2.
  - intros (i & j & r1 & r2 & Hij & Hi & Hj & Ht).
    exists i, j, (time r1). split_and!; [done|..].
    + by rewrite list_lookup_fmap, Hi.
    + by rewrite list_lookup_fmap, Hj, Ht.
Qed.

(** ** What [slicing] keeps *)

Lemma sliced_frame_rows_unset data k lower upper :
  rows (sliced_frame data k lower upper None) =
    filter (in_range lower upper) (group_rows k (rows (sort_index data))).
Proof. rewrite sliced_frame_rows. apply every_from_one. Qed.

(** X2: without a step, [slicing] keeps of every lambda state exactly the
    rows whose time lies between [lower] and [upper], both inclusive, in
    the order of the sorted input; the table returned holds the rows of the
    input in that range, each once. *)
Theorem slicing_keeps_the_range data lower upper force out :
  slicing data lower upper None force = Ok out →
  (∀ k, group_rows k (rows out) =
        filter (in_range lower upper) (group_rows k (rows (sort_index data)))) ∧
  rows out ≡ₚ filter (in_range lower upper) (rows data).
Proof.
  intros Hout.
  assert (∀ k, group_rows k (rows out) =
    filter (in_range lower upper) (group_rows k (rows (sort_index data)))) as Hk.
  { intros k. by rewrite (slicing_group_rows _ _ _ _ _ _ _ Hout),
      sliced_frame_rows_unset. }
  split; [done|].
  apply slicing_Ok in Hout as (_ & _ & Hrows & _).
  rewrite <-(stable_sort_perm index_leb (rows data)).
  change (stable_sort index_leb (rows data)) with (rows (sort_index data)).
  rewrite <-(mjoin_groups_perm
               (filter (in_range lower upper) (rows (sort_index data)))
               (group_keys (rows data))).
  - rewrite Hrows.
    assert ((λ k, rows (sliced_frame data k lower upper None))
              <$> group_keys (rows data) =
            (λ k, group_rows k (filter (in_range lower upper)
                                  (rows (sort_index data))))
              <$> group_keys (rows data)) as ->; [|done].
    apply Forall_fmap_ext, Forall_forall. intros k _.
    rewrite sliced_frame_rows_unset. unfold group_rows.
    rewrite !list_filter_filter. apply list_filter_iff. tauto.
  - apply group_keys_NoDup.
  - intros r [_ Hr]%list_elem_of_filter.
    rewrite <-group_keys_sort_index. apply elem_of_group_keys. eauto.
Qed.

Lemma slicing_keeps_the_range_witness :
  (∀ k, group_rows k
          [obs 1 0 (3#2); obs 2 0 (5#2); obs 10 1 (1#2); obs 11 1 (3#2)] =
        filter (in_range (Some 1) (Some 11))
          (group_rows k (rows (sort_index two_windows)))) ∧
  [obs 1 0 (3#2); obs 2 0 (5#2); obs 10 1 (1#2); obs 11 1 (3#2)]
    ≡ₚ filter (in_range (Some 1) (Some 11)) (rows two_windows).
Proof.
  apply (slicing_keeps_the_range two_windows (Some 1) (Some 11) false
           (Frame ["fep"]
              [obs 1 0 (3#2); obs 2 0 (5#2); obs 10 1 (1#2); obs 11 1 (3#2)])).
  reflexivity.
Defined.

(** X3: with a step, [slicing] keeps of every lambda state the rows at the
    positions 0, [|step|], 2 [|step|], ... among its rows in the window of
    the slice, counted along the walk: for a positive step in time order
    from the first row between [lower] and [upper], for a negative step
    against time order from the last row between [upper] and [lower].  The
    row at position [i] of a group of the output is the row at position
    [i * |step|] of those rows, and the group ends where those positions
    end. *)
Theorem slicing_keeps_every_step data lower upper step force out k i :
  slicing data lower upper step force = Ok out →
  group_rows k (rows out) !! i =
    window_rows lower upper step (group_rows k (rows (sort_index data)))
      !! (i * stride step)%nat.
Proof.
  intros Hout. pose proof (slicing_Ok_step _ _ _ _ _ _ Hout) as Hstep.
  rewrite (slicing_group_rows _ _ _ _ _ _ _ Hout), sliced_frame_rows.
  by rewrite every_from_lookup by by apply stride_pos.
Qed.

Lemma slicing_keeps_every_step_witness :
  group_rows [0] [obs 4 0 (3#2); obs 2 0 (5#2)] !! 1%nat =
    window_rows (Some 4) (Some 1) (Some (-2))
      (group_rows [0] (rows (sort_index single)))
      !! (1 * stride (Some (-2)%Z))%nat.
Proof.
  apply (slicing_keeps_every_step single (Some 4) (Some 1) (Some (-2)) false
           (Frame ["fep"] [obs 4 0 (3#2); obs 2 0 (5#2)])).
  reflexivity.
Defined.

(** ** When [slicing] returns *)

(** X4: what a call of [slicing] does is settled by three tests.  It
    returns a table exactly when the input has a row, the step is not 0
    and, unless [force] is set, no lambda state has a repeated time among
    its sliced rows.  A table without rows makes it raise the [ValueError]
    of [pd.concat], whatever the step and [force]; on a table with a row a
    step of 0 makes it raise the [ValueError] of the slice. *)
Theorem slicing_returns_iff data lower upper step force :
  ((∃ out, slicing data lower upper step force = Ok out) ↔
   rows data ≠ [] ∧ step ≠ Some 0 ∧
   (force = false →
    ∀ k group_s, sliced_group data k lower upper step = Ok group_s →
                 NoDup (time <$> rows group_s))) ∧
  (slicing data lower upper step force = Raise NoObjectsToConcatenate ↔
   rows data = []) ∧
  (slicing data lower upper step force = Raise SliceStepZero ↔
   rows data ≠ [] ∧ step = Some 0).
Proof.
  split_and!; split.
  - intros [out Hout]. pose proof (slicing_Ok_step _ _ _ _ _ _ Hout) as Hstep.
    apply slicing_Ok in Hout as (Hne & _ & _ & Hnd). split_and!; [done..|].
    intros Hf k group_s [_ ->]%sliced_group_Ok. by apply Hnd.
  - intros (Hne & Hstep & Hnd). apply slicing_returns; [done..|].
    intros Hf k _. apply (Hnd Hf k). by apply sliced_group_nonzero.
  - destruct (decide (step = Some 0)) as [->|Hstep];
      [rewrite slicing_zero; by case_decide|].
    rewrite slicing_eq by done. destruct (negb force && _); [done|].
    destruct (rows data) as [|r rs] eqn:Hrows; [done|].
    assert (group_keys (r :: rs) ≠ []) as Hks by by apply group_keys_nonempty.
    by destruct (group_keys (r :: rs)).
  - apply slicing_empty.
  - destruct (decide (step = Some 0)) as [->|Hstep];
      [rewrite slicing_zero; by case_decide|].
    rewrite slicing_eq by done. destruct (negb force && _); [done|].
    by destruct (group_keys (rows data)).
  - intros [Hne ->]. by rewrite slicing_zero, decide_False.
Qed.

(** ** Tables without rows *)

(** X5: on a table without rows both subsamplers raise the [ValueError] of
    [pd.concat], with every collaborator, column, bound and flag: there is
    no group to analyse and no frame to concatenate. *)
Theorem subsamplers_raise_on_no_rows ts reading data how column lower upper
    step conservative return_calculated force :
  rows data = [] →
  statistical_inefficiency ts reading data how column lower upper step
    conservative return_calculated force = Raise NoObjectsToConcatenate ∧
  equilibrium_detection ts data how column lower upper step
    conservative return_calculated force = Raise NoObjectsToConcatenate.
Proof.
  intros Hnil. unfold statistical_inefficiency, equilibrium_detection, groupby.
  rewrite group_keys_sort_index, Hnil. by destruct reading, (truth column).
Qed.

Lemma subsamplers_raise_on_no_rows_witness :
  statistical_inefficiency steady loop_after_if no_rows how_auto (Some "fep")
    None None None true true false = Raise NoObjectsToConcatenate ∧
  equilibrium_detection steady no_rows how_auto (Some "fep")
    None None None true true false = Raise NoObjectsToConcatenate.
Proof. by apply subsamplers_raise_on_no_rows. Defined.

(** ** Tables made of groups *)

Lemma group_rows_nil_iff k rs : group_rows k rs = [] ↔ k ∉ group_keys rs.
Proof.
  split; [|apply group_rows_not_key].
  intros Hnil Hk. by apply group_rows_nonempty in Hk.
Qed.

Lemma group_keys_ext rs1 rs2 :
  (∀ k, group_rows k rs1 = group_rows k rs2) → group_keys rs1 = group_keys rs2.
Proof.
  intros Heq. apply (StronglySorted_unique_strong tuple_lt).
  - intros k1 k2 _ _ [H12 _] [H21 _]. by apply tuple_leb_antisym.
  - apply group_keys_sorted.
  - apply group_keys_sorted.
  - apply NoDup_Permutation; [apply group_keys_NoDup..|].
    intros k. destruct (decide (k ∈ group_keys rs1)) as [H1|H1],
      (decide (k ∈ group_keys rs2)) as [H2|H2]; try tauto.
    + apply group_rows_nil_iff in H2. rewrite <-Heq in H2.
      by apply group_rows_nil_iff in H2.
    + apply group_rows_nil_iff in H1. rewrite Heq in H1.
      by apply group_rows_nil_iff in H1.
Qed.

Lemma mjoin_drop_empty {A B} (f : A → list B) (keys : list A) :
  mjoin (f <$> filter (λ k, f k ≠ []) keys) = mjoin (f <$> keys).
Proof.
  induction keys as [|k keys IH]; [done|].
  rewrite filter_cons. case_decide as Hk.
  - rewrite !fmap_cons. change (mjoin (?l :: ?ls)) with (l ++ mjoin ls).
    by rewrite IH.
  - rewrite fmap_cons. change (mjoin (?l :: ?ls)) with (l ++ mjoin ls).
    by rewrite IH, Hk.
Qed.

(** A table that is a concatenation of groups in ascending key order is the
    concatenation of its own groups. *)
Lemma mjoin_groups_regroup (f : list Z → list row) keys :
  StronglySorted tuple_lt keys →
  (∀ k, Forall (λ r, lambdas r = k) (f k)) →
  mjoin ((λ k, group_rows k (mjoin (f <$> keys)))
           <$> group_keys (mjoin (f <$> keys)))
  = mjoin (f <$> keys).
Proof.
  intros Hs Hkey.
  assert (NoDup keys) as Hnd.
  { clear Hkey. induction Hs as [|k ks _ IH Hk]; constructor; [|done].
    intros Hin. eapply Forall_forall in Hk; [|done]. by destruct Hk. }
  assert (group_keys (mjoin (f <$> keys)) = filter (λ k, f k ≠ []) keys) as ->.
  { apply (StronglySorted_unique_strong tuple_lt).
    - intros k1 k2 _ _ [H12 _] [H21 _]. by apply tuple_leb_antisym.
    - apply group_keys_sorted.
    - eapply StronglySorted_sublist; [apply sublist_filter|done].
    - apply NoDup_Permutation;
        [apply group_keys_NoDup|by apply NoDup_filter|].
      intros k. rewrite list_elem_of_filter.
      destruct (decide (k ∈ group_keys (mjoin (f <$> keys)))) as [Hk|Hk].
      + split; [intros _|done]. apply group_rows_nonempty in Hk.
        rewrite group_rows_mjoin in Hk by done. by case_decide.
      + split; [done|]. intros [Hne Hin]. apply group_rows_nil_iff in Hk.
        rewrite group_rows_mjoin, decide_True in Hk by done. done. }
  trans (mjoin (f <$> filter (λ k, f k ≠ []) keys));
    [|apply mjoin_drop_empty].
  f_equal.
  apply Forall_fmap_ext, Forall_forall. intros k [_ Hk]%list_elem_of_filter.
  by rewrite group_rows_mjoin, decide_True.
Qed.

(** Two such tables with the same groups are the same table. *)
Lemma grouped_tables_ext (f1 f2 : list Z → list row) keys1 keys2 :
  StronglySorted tuple_lt keys1 → StronglySorted tuple_lt keys2 →
  (∀ k, Forall (λ r, lambdas r = k) (f1 k)) →
  (∀ k, Forall (λ r, lambdas r = k) (f2 k)) →
  (∀ k, group_rows k (mjoin (f1 <$> keys1)) = group_rows k (mjoin (f2 <$> keys2))) →
  mjoin (f1 <$> keys1) = mjoin (f2 <$> keys2).
Proof.
  intros Hs1 Hs2 Hk1 Hk2 Heq.
  rewrite <-(mjoin_groups_regroup f1 keys1), <-(mjoin_groups_regroup f2 keys2)
    by done.
  rewrite (group_keys_ext _ _ Heq). f_equal.
  apply Forall_fmap_ext, Forall_forall. intros k _. apply Heq.
Qed.

(** Two calls of [slicing] whose groups agree after slicing return the same
    table. *)
Lemma slicing_ext data1 lower1 upper1 step1 data2 lower2 upper2 step2 force out :
  slicing data1 lower1 upper1 step1 force = Ok out →
  rows data2 ≠ [] → step2 ≠ Some 0 → columns data2 = columns data1 →
  (∀ k, rows (sliced_frame data2 k lower2 upper2 step2)
        = rows (sliced_frame data1 k lower1 upper1 step1)) →
  slicing data2 lower2 upper2 step2 force = Ok out.
Proof.
  intros Hout Hne Hstep Hcols Heq.
  destruct (slicing_returns data2 lower2 upper2 step2 force) as [out2 Hout2].
  { done. }
  { done. }
  { intros Hf k _. rewrite Heq.
    apply slicing_Ok in Hout as (_ & _ & _ & Hnd). by apply Hnd. }
  rewrite Hout2. f_equal.
  assert (∀ k, group_rows k (rows out2) = group_rows k (rows out)) as Hgroups.
  { intros k. by rewrite (slicing_group_rows _ _ _ _ _ _ _ Hout),
      (slicing_group_rows _ _ _ _ _ _ _ Hout2). }
  apply slicing_Ok in Hout as (_ & Hc1 & Hr1 & _).
  apply slicing_Ok in Hout2 as (_ & Hc2 & Hr2 & _).
  destruct out as [cs rs], out2 as [cs2 rs2]. simpl in *. f_equal; [congruence|].
  subst rs rs2. apply grouped_tables_ext.
  - apply group_keys_sorted.
  - apply group_keys_sorted.
  - intros. apply sliced_frame_key.
  - intros. apply sliced_frame_key.
  - done.
Qed.

(** ** [slicing] after [slicing] *)

Lemma in_range_both lower1 upper1 lower2 upper2 r :
  in_range (both_lower lower1 lower2) (both_upper upper1 upper2) r ↔
  in_range lower2 upper2 r ∧ in_range lower1 upper1 r.
Proof.
  unfold in_range.
  destruct lower1, lower2, upper1, upper2; simpl; lia.
Qed.

(** The groups of the sorted output of a call without step. *)
Lemma sorted_group_of_sliced data lower upper force out k :
  slicing data lower upper None force = Ok out →
  group_rows k (rows (sort_index out)) =
    filter (in_range lower upper) (group_rows k (rows (sort_index data))).
Proof.
  intros Hout.
  rewrite group_rows_sort_index, (slicing_group_rows _ _ _ _ _ _ _ Hout).
  rewrite sliced_frame_rows_unset.
  apply stable_sort_id, StronglySorted_filter, StronglySorted_filter.
  apply sort_index_sorted.
Qed.

Lemma sliced_frame_of_sliced data lower1 upper1 force out k lower2 upper2 step :
  slicing data lower1 upper1 None force = Ok out →
  rows (sliced_frame out k lower2 upper2 step) =
    rows (if backward step
          then sliced_frame data k (both_upper upper1 lower2)
                 (both_lower lower1 upper2) step
          else sliced_frame data k (both_lower lower1 lower2)
                 (both_upper upper1 upper2) step).
Proof.
  intros Hout.
  rewrite (sliced_frame_rows out), (sorted_group_of_sliced _ _ _ _ _ _ Hout).
  unfold window_rows. destruct (backward step) eqn:Hback;
    rewrite sliced_frame_rows; unfold window_rows; rewrite Hback;
    do 2 f_equal; rewrite list_filter_filter; apply list_filter_iff;
    intros r; by rewrite in_range_both.
Qed.

(** X6: slicing the table that [slicing] returned for one time window
    (without step) a second time, with another window and any step, is
    slicing the input once with the intersection of the two windows and
    that step, provided the first call left a row.  For a step that is not
    negative the second window lies between [lower2] and [upper2]; for a
    negative step it lies between [upper2] and [lower2], and the bounds of
    the single call change sides with it. *)
Theorem slicing_twice_intersects data lower1 upper1 force out lower2 upper2 step :
  slicing data lower1 upper1 None force = Ok out →
  rows out ≠ [] →
  slicing out lower2 upper2 step force =
    if backward step
    then slicing data (both_upper upper1 lower2) (both_lower lower1 upper2)
           step force
    else slicing data (both_lower lower1 lower2) (both_upper upper1 upper2)
           step force.
Proof.
  intros Hout Hne.
  pose proof (slicing_Ok _ _ _ _ _ _ Hout) as (Hdata & Hcols & _ & Hnd).
  destruct (decide (step = Some 0)) as [->|Hstep].
  { cbn [backward]. by rewrite !slicing_zero, !decide_False. }
  destruct (slicing_returns out lower2 upper2 step force) as [out2 Hout2].
  { done. }
  { done. }
  { intros Hf k _. eapply submseteq_NoDup; [|exact (Hnd Hf k)].
    apply fmap_submseteq. etrans; [apply sliced_frame_submseteq|].
    rewrite (sorted_group_of_sliced _ _ _ _ _ _ Hout).
    rewrite sliced_frame_rows_unset. done. }
  rewrite Hout2.
  pose proof (λ k, sliced_frame_of_sliced _ _ _ _ _ k lower2 upper2 step Hout)
    as Hrows.
  symmetry. destruct (backward step);
    by apply (slicing_ext out lower2 upper2 step).
Qed.

Lemma slicing_twice_intersects_witness :
  slicing (Frame ["fep"]
             [obs 1 0 (3#2); obs 2 0 (5#2); obs 10 1 (1#2); obs 11 1 (3#2)])
    (Some 10) (Some 2) (Some (-1)) false =
  if backward (Some (-1))
  then slicing two_windows (both_upper (Some 11) (Some 10))
         (both_lower (Some 1) (Some 2)) (Some (-1)) false
  else slicing two_windows (both_lower (Some 1) (Some 10))
         (both_upper (Some 11) (Some 2)) (Some (-1)) false.
Proof.
  apply (slicing_twice_intersects two_windows (Some 1) (Some 11) false).
  - reflexivity.
  - done.
Defined.

(** X7: [slicing] without step is idempotent as long as it leaves a row:
    slicing its own output with the same bounds returns that output.  When
    the bounds leave no row, the first call returns a table without rows
    and the second raises the [ValueError] of [pd.concat]. *)
Theorem slicing_idempotent data lower upper force out :
  slicing data lower upper None force = Ok out →
  slicing out lower upper None force =
    if decide (rows out = []) then Raise NoObjectsToConcatenate else Ok out.
Proof.
  intros Hout. case_decide as Hne; [by apply slicing_empty|].
  pose proof (slicing_Ok _ _ _ _ _ _ Hout) as (_ & Hcols & _ & _).
  apply (slicing_ext data lower upper None); [done..|].
  intros k. rewrite !sliced_frame_rows_unset.
  rewrite (sorted_group_of_sliced _ _ _ _ _ _ Hout).
  rewrite list_filter_filter. apply list_filter_iff. tauto.
Qed.

Lemma slicing_idempotent_witness :
  slicing (Frame ["fep"]
             [obs 1 0 (3#2); obs 2 0 (5#2); obs 10 1 (1#2); obs 11 1 (3#2)])
    (Some 1) (Some 11) None false =
  if decide (rows (Frame ["fep"]
               [obs 1 0 (3#2); obs 2 0 (5#2); obs 10 1 (1#2); obs 11 1 (3#2)])
             = [])
  then Raise NoObjectsToConcatenate
  else Ok (Frame ["fep"]
             [obs 1 0 (3#2); obs 2 0 (5#2); obs 10 1 (1#2); obs 11 1 (3#2)]).
Proof.
  apply (slicing_idempotent two_windows (Some 1) (Some 11) false).
  reflexivity.
Defined.

(** ** The order of the input rows *)

Lemma NoDup_fmap_elem_inj {A B} (f : A → B) (l : list A) x y :
  NoDup (f <$> l) → x ∈ l → y ∈ l → f x = f y → x = y.
Proof.
  intros Hnd [i Hi]%list_elem_of_lookup [j Hj]%list_elem_of_lookup Hxy.
  assert (i = j) as ->; [|congruence].
  eapply (NoDup_lookup _ i j (f x) Hnd).
  - by rewrite list_lookup_fmap, Hi.
  - by rewrite list_lookup_fmap, Hj, Hxy.
Qed.

Lemma sort_index_perm data data' :
  columns data = columns data' → rows data ≡ₚ rows data' →
  NoDup (index_key <$> rows data) →
  sort_index data = sort_index data'.
Proof.
  intros Hcols Hperm Hnd. unfold sort_index. rewrite Hcols. f_equal.
  apply (StronglySorted_unique_strong (le_of index_leb)).
  - intros r1 r2 Hr1 Hr2 H12 H21.
    apply (NoDup_fmap_elem_inj index_key (rows data)); [done|..].
    + by rewrite <-(stable_sort_perm index_leb).
    + by rewrite Hperm, <-(stable_sort_perm index_leb).
    + by apply tuple_leb_antisym.
  - apply stable_sort_sorted; [apply index_leb_total|apply index_leb_trans].
  - apply stable_sort_sorted; [apply index_leb_total|apply index_leb_trans].
  - by rewrite !stable_sort_perm.
Qed.

(** X8: when no two rows of the table have the same index [(time,
    lambda...)], the order in which the rows are handed in does not matter:
    [slicing], [statistical_inefficiency] and [equilibrium_detection] give
    the same outcome on any two tables with the same columns and the same
    rows in different orders. *)
Theorem row_order_does_not_matter ts reading data data' how column lower upper
    step conservative return_calculated force :
  columns data = columns data' → rows data ≡ₚ rows data' →
  NoDup (index_key <$> rows data) →
  slicing data lower upper step force = slicing data' lower upper step force ∧
  statistical_inefficiency ts reading data how column lower upper step
    conservative return_calculated force
  = statistical_inefficiency ts reading data' how column lower upper step
      conservative return_calculated force ∧
  equilibrium_detection ts data how column lower upper step
    conservative return_calculated force
  = equilibrium_detection ts data' how column lower upper step
      conservative return_calculated force.
Proof.
  intros Hcols Hperm Hnd.
  pose proof (sort_index_perm data data' Hcols Hperm Hnd) as Heq.
  unfold slicing, statistical_inefficiency, equilibrium_detection.
  by rewrite Heq.
Qed.

Lemma row_order_does_not_matter_witness :
  slicing interleaved (Some 1) None None false
  = slicing (Frame ["fep"] (reverse (rows interleaved))) (Some 1) None None false ∧
  statistical_inefficiency steady loop_after_if interleaved how_auto
    (Some "fep") (Some 1) None None true true false
  = statistical_inefficiency steady loop_after_if
      (Frame ["fep"] (reverse (rows interleaved))) how_auto
      (Some "fep") (Some 1) None None true true false ∧
  equilibrium_detection steady interleaved how_auto
    (Some "fep") (Some 1) None None true true false
  = equilibrium_detection steady
      (Frame ["fep"] (reverse (rows interleaved))) how_auto
      (Some "fep") (Some 1) None None true true false.
Proof.
  apply row_order_does_not_matter.
  - reflexivity.
  - symmetry. apply reverse_Permutation.
  - decide_by_computation.
Defined.

(** ** One lambda state at a time *)

Lemma sort_index_of_group data k :
  get_group (sort_index (get_group data k)) k = get_group (sort_index data) k.
Proof.
  unfold get_group at 1.
  change (rows (sort_index (get_group data k)))
    with (stable_sort index_leb (group_rows k (rows data))).
  rewrite <-group_rows_sort_index.
  by rewrite (group_rows_all k) by apply group_rows_key.
Qed.

Lemma sliced_frame_of_group data k lower upper step :
  sliced_frame (get_group data k) k lower upper step
  = sliced_frame data k lower upper step.
Proof. unfold sliced_frame. by rewrite sort_index_of_group. Qed.

Lemma group_keys_of_group data k :
  k ∈ group_keys (rows data) → group_keys (rows (get_group data k)) = [k].
Proof.
  intros Hk. apply group_keys_single; [|apply group_rows_key].
  by apply group_rows_nonempty.
Qed.

(** X9: [slicing] treats every lambda state on its own: when it returns on
    a table, it returns on the rows of any one lambda state of that table
    handed in alone, and what it returns is that state's part of the
    output. *)
Theorem slicing_group_by_group data lower upper step force out k :
  slicing data lower upper step force = Ok out →
  k ∈ group_keys (rows data) →
  slicing (get_group data k) lower upper step force = Ok (get_group out k).
Proof.
  intros Hout Hk.
  pose proof (slicing_group_rows _ _ _ _ _ _ k Hout) as Hrows.
  pose proof (slicing_Ok_step _ _ _ _ _ _ Hout) as Hstep.
  apply slicing_Ok in Hout as (_ & Hcols & _ & Hnd).
  rewrite slicing_eq, group_keys_of_group by done.
  cbn [existsb fmap list_fmap]. rewrite sliced_frame_of_group, orb_false_r.
  assert (negb force &&
    _check_multiple_times (sliced_frame data k lower upper step) = false) as ->.
  { destruct force; [done|]. simpl. apply check_multiple_times_false.
    by apply Hnd. }
  rewrite pd_concat_singleton. f_equal.
  unfold get_group. rewrite Hrows, Hcols. done.
Qed.

Lemma slicing_group_by_group_witness :
  slicing (get_group two_windows [1]) (Some 1) (Some 11) None false =
  Ok (get_group
        (Frame ["fep"]
           [obs 1 0 (3#2); obs 2 0 (5#2); obs 10 1 (1#2); obs 11 1 (3#2)]) [1]).
Proof.
  apply slicing_group_by_group.
  - reflexivity.
  - decide_by_computation.
Defined.

(** ** The [force] flag *)

Lemma statistical_inefficiency_loop_force ts groups column lower upper step
    conservative return_calculated resdata calculated :
  Forall (λ g, _check_multiple_times g.2 = false) groups →
  statistical_inefficiency_loop ts groups column lower upper step conservative
    return_calculated true resdata calculated
  = statistical_inefficiency_loop ts groups column lower upper step conservative
      return_calculated false resdata calculated.
Proof.
  intros Hall. revert resdata calculated.
  induction Hall as [|[name group] groups Hg _ IH]; intros resdata calculated;
    [done|].
  cbn [statistical_inefficiency_loop]. unfold statistical_inefficiency_group.
  simpl in Hg. rewrite Hg. cbn [negb andb].
  destruct (slicing group lower upper step false) as [group_s|e]; [|done].
  cbn [mbind result_bind].
  destruct (getitem group_s column) as [series|e]; [|done].
  cbn [mbind result_bind].
  destruct (statisticalInefficiency ts series) as [g|e]; [|done].
  cbn [mbind result_bind].
  destruct (subsampleCorrelatedData ts series g conservative) as [idx|e];
    [|done].
  cbn [mbind result_bind].
  destruct (iloc group_s idx) as [picked|e]; [|done].
  cbn [mbind result_bind]. apply IH.
Qed.

Lemma equilibrium_detection_loop_force ts groups column lower upper step
    conservative return_calculated resdata calculated :
  Forall (λ g, _check_multiple_times g.2 = false) groups →
  equilibrium_detection_loop ts groups column lower upper step conservative
    return_calculated true resdata calculated
  = equilibrium_detection_loop ts groups column lower upper step conservative
      return_calculated false resdata calculated.
Proof.
  intros Hall. revert resdata calculated.
  induction Hall as [|[name group] groups Hg _ IH]; intros resdata calculated;
    [done|].
  cbn [equilibrium_detection_loop]. unfold equilibrium_detection_group.
  simpl in Hg. rewrite Hg. cbn [negb andb].
  destruct (slicing group lower upper step false) as [group_s|e]; [|done].
  cbn [mbind result_bind].
  destruct (getitem group_s column) as [series|e]; [|done].
  cbn [mbind result_bind].
  destruct (detectEquilibration ts series) as [[[t g] n]|e]; [|done].
  cbn [mbind result_bind].
  destruct (getitem (iloc_from group_s t) column) as [series'|e]; [|done].
  cbn [mbind result_bind].
  destruct (subsampleCorrelatedData ts series' g conservative) as [idx|e];
    [|done].
  cbn [mbind result_bind].
  destruct (iloc (iloc_from group_s t) idx) as [picked|e]; [|done].
  cbn [mbind result_bind]. apply IH.
Qed.

Lemma groups_without_repeated_times data :
  unique_times data →
  Forall (λ g, _check_multiple_times g.2 = false) (groupby (sort_index data)).
Proof.
  intros Hu. rewrite groupby_sort_index, Forall_fmap.
  apply Forall_forall. intros k _. simpl.
  apply check_multiple_times_false. by apply unique_times_sorted_group.
Qed.

(** X10: on a table in which no lambda state has a repeated time, [force]
    changes nothing: each of the three functions gives the same outcome
    with [force=True] as with [force=False]. *)
Theorem force_changes_nothing_on_unique_times ts reading data how column
    lower upper step conservative return_calculated :
  unique_times data →
  slicing data lower upper step true = slicing data lower upper step false ∧
  statistical_inefficiency ts reading data how column lower upper step
    conservative return_calculated true
  = statistical_inefficiency ts reading data how column lower upper step
      conservative return_calculated false ∧
  equilibrium_detection ts data how column lower upper step
    conservative return_calculated true
  = equilibrium_detection ts data how column lower upper step
      conservative return_calculated false.
Proof.
  intros Hu. pose proof (groups_without_repeated_times data Hu) as Hall.
  split_and!.
  - destruct (decide (step = Some 0)) as [->|Hstep];
      [by rewrite !slicing_zero|].
    rewrite !slicing_eq by done. cbn [negb andb].
    assert (existsb (λ k, _check_multiple_times
              (sliced_frame data k lower upper step))
              (group_keys (rows data)) = false) as ->; [|done].
    apply not_true_is_false. intros (k & _ & Hc)%existsb_exists.
    apply check_multiple_times_true in Hc. by apply Hc, sliced_frame_unique.
  - unfold statistical_inefficiency.
    by rewrite statistical_inefficiency_loop_force.
  - unfold equilibrium_detection.
    by rewrite equilibrium_detection_loop_force.
Qed.

Lemma force_changes_nothing_on_unique_times_witness :
  slicing two_windows (Some 1) None None true
  = slicing two_windows (Some 1) None None false ∧
  statistical_inefficiency steady loop_after_if two_windows how_auto
    (Some "fep") (Some 1) None None true true true
  = statistical_inefficiency steady loop_after_if two_windows how_auto
      (Some "fep") (Some 1) None None true true false ∧
  equilibrium_detection steady two_windows how_auto
    (Some "fep") (Some 1) None None true true true
  = equilibrium_detection steady two_windows how_auto
      (Some "fep") (Some 1) None None true true false.
Proof.
  apply force_changes_nothing_on_unique_times. decide_by_computation.
Defined.

(** X11: with [force=False], a table in which some lambda state has a
    repeated time is never subsampled: both subsamplers raise, with every
    collaborator and whatever the bounds, also when the bounds would leave
    the repeated time out. *)
Theorem repeated_time_is_refused ts reading data how column lower upper step
    conservative return_calculated :
  ¬ unique_times data →
  raises (statistical_inefficiency ts reading data how column lower upper step
            conservative return_calculated false) ∧
  raises (equilibrium_detection ts data how column lower upper step
            conservative return_calculated false).
Proof.
  intros Hrep.
  assert ((∀ k, k ∈ group_keys (rows data) →
             NoDup (time <$> group_rows k (rows (sort_index data)))) → False)
    as Hno.
  { intros Hnd. apply Hrep, Forall_forall. intros k Hk.
    specialize (Hnd k Hk).
    by rewrite group_rows_sort_index, stable_sort_perm in Hnd. }
  split; apply not_Ok_raises; intros [out calc] Hok; apply Hno; intros k Hk.
  - apply statistical_inefficiency_view in Hok as (_ & _ & _ & _ & Hgroups).
    destruct (Hgroups k Hk) as (_ & Hnd & _). by apply Hnd.
  - apply equilibrium_detection_view in Hok as (_ & _ & _ & _ & Hgroups).
    destruct (Hgroups k Hk) as (_ & Hnd & _). by apply Hnd.
Qed.

Lemma repeated_time_is_refused_witness :
  raises (statistical_inefficiency steady loop_after_if early_repeat how_auto
            (Some "fep") (Some 3) None None true false false) ∧
  raises (equilibrium_detection steady early_repeat how_auto
            (Some "fep") (Some 3) None None true false false).
Proof.
  apply repeated_time_is_refused.
  apply (bool_decide_eq_false_1 (unique_times early_repeat)). reflexivity.
Defined.

(** ** A column the table does not have *)

Lemma getitem_missing df c :
  c ∉ columns df → getitem df (Some c) = Raise (NoSuchColumn (Some c)).
Proof.
  intros Hc. unfold getitem.
  assert (list_find (λ c', c' = c) (columns df) = None) as ->; [|done].
  apply list_find_None, Forall_forall. by intros c' Hin ->.
Qed.

Lemma slicing_sorted_group_unique data k lower upper step :
  unique_times data → k ∈ group_keys (rows data) → step ≠ Some 0 →
  slicing (get_group (sort_index data) k) lower upper step false
  = Ok (sliced_frame data k lower upper step) ∧
  _check_multiple_times (get_group (sort_index data) k) = false.
Proof.
  intros Hu Hk Hstep. split.
  - rewrite slicing_get_group;
      [|apply sort_index_sorted|by rewrite group_keys_sort_index|done].
    fold (sliced_frame data k lower upper step).
    by rewrite (proj2 (check_multiple_times_false _))
      by by apply sliced_frame_unique.
  - apply check_multiple_times_false. by apply unique_times_sorted_group.
Qed.

(** X12: when [column] names a column the table does not have, both
    subsamplers raise the [KeyError] of the column lookup on the first
    lambda state and hand nothing to the collaborator: on every table with
    a row and without repeated times in a lambda state, for every non-empty
    label, all bounds and every step other than 0.  With a step of 0 the
    [ValueError] of the slice comes first. *)
Theorem missing_column_raises ts reading data how c lower upper step
    conservative return_calculated force :
  c ∉ columns data → c ≠ EmptyString → rows data ≠ [] → unique_times data →
  let e := if decide (step = Some 0) then SliceStepZero
           else NoSuchColumn (Some c) in
  statistical_inefficiency ts reading data how (Some c) lower upper step
    conservative return_calculated force = Raise e ∧
  equilibrium_detection ts data how (Some c) lower upper step
    conservative return_calculated force = Raise e.
Proof.
  intros Hc Hlabel Hne Hu. cbn zeta. case_decide as Hstep.
  { subst step. rewrite statistical_inefficiency_zero by done.
    rewrite equilibrium_detection_zero by done.
    rewrite (truth_label c Hlabel). by destruct reading. }
  destruct (first_group data Hne) as (k & keys & Hkeys & Hgroups).
  assert (k ∈ group_keys (rows data)) as Hk by (rewrite Hkeys; by left).
  destruct (slicing_sorted_group_unique data k lower upper step Hu Hk Hstep)
    as [Hslice Hcheck].
  unfold statistical_inefficiency, equilibrium_detection.
  rewrite Hgroups, (truth_label c Hlabel).
  cbn [statistical_inefficiency_loop equilibrium_detection_loop].
  unfold statistical_inefficiency_group, equilibrium_detection_group.
  rewrite Hslice, Hcheck, andb_false_r. cbn [mbind result_bind].
  rewrite getitem_missing by done. by destruct reading.
Qed.

Lemma missing_column_raises_witness :
  let e := if decide (Some (-1) = Some 0) then SliceStepZero
           else NoSuchColumn (Some "dhdl") in
  statistical_inefficiency steady loop_after_if two_windows how_auto
    (Some "dhdl") None None (Some (-1)) true false false = Raise e ∧
  equilibrium_detection steady two_windows how_auto
    (Some "dhdl") None None (Some (-1)) true false false = Raise e.
Proof.
  apply missing_column_raises.
  - decide_by_computation.
  - done.
  - done.
  - decide_by_computation.
Defined.

(** ** The table a subsampler returns *)

Lemma sliced_frame_elem data k lower upper step r :
  r ∈ rows (sliced_frame data k lower upper step) →
  r ∈ rows data ∧ in_window lower upper step r.
Proof.
  rewrite sliced_frame_rows. intros Hr.
  eapply sublist_subseteq in Hr; [|apply every_from_sublist].
  unfold window_rows, in_window in *.
  destruct (backward step); [rewrite elem_of_reverse in Hr|];
    apply list_elem_of_filter in Hr as [Hrange Hr];
    apply list_elem_of_filter in Hr as [_ Hr]; (split; [|done]);
    by rewrite <-(stable_sort_perm index_leb (rows data)).
Qed.

(** X13: a subsampler that returns gives back a table with the columns of
    the input in which every row is a row of the input whose time lies in
    the window of the slice, between [lower] and [upper] for a step that is
    unset or positive and between [upper] and [lower] for a negative one:
    it makes up no row and changes none, with whatever collaborator. *)
Theorem subsampled_rows_come_from_the_input ts reading data how column
    lower upper step conservative return_calculated force out calc :
  statistical_inefficiency ts reading data how column lower upper step
    conservative return_calculated force = Ok (out, calc) ∨
  equilibrium_detection ts data how column lower upper step
    conservative return_calculated force = Ok (out, calc) →
  columns out = columns data ∧
  ∀ r, r ∈ rows out → r ∈ rows data ∧ in_window lower upper step r.
Proof.
  intros [Hok|Hok].
  - apply statistical_inefficiency_view in Hok as (_ & Hcols & _ & Hout & Hgroups).
    split; [done|]. intros r Hr.
    assert (r ∈ group_rows (lambdas r) (rows out)) as Hrk
      by by apply list_elem_of_filter.
    destruct (decide (lambdas r ∈ group_keys (rows data))) as [Hk|Hk];
      [|by rewrite (Hout _ Hk) in Hrk; apply elem_of_nil in Hrk].
    destruct (Hgroups _ Hk) as (_ & _ & ? & ? & ? & _ & _ & _ & Hpick & _).
    eapply sliced_frame_elem, take_rows_subseteq; done.
  - apply equilibrium_detection_view in Hok as (_ & Hcols & _ & Hout & Hgroups).
    split; [done|]. intros r Hr.
    assert (r ∈ group_rows (lambdas r) (rows out)) as Hrk
      by by apply list_elem_of_filter.
    destruct (decide (lambdas r ∈ group_keys (rows data))) as [Hk|Hk];
      [|by rewrite (Hout _ Hk) in Hrk; apply elem_of_nil in Hrk].
    destruct (Hgroups _ Hk)
      as (_ & _ & ? & t & ? & ? & ? & ? & _ & _ & _ & _ & Hpick & _).
    eapply sliced_frame_elem, (sublist_subseteq _ _ (sublist_drop _ t)).
    eapply take_rows_subseteq; done.
Qed.

Lemma subsampled_rows_come_from_the_input_witness :
  columns (Frame ["fep"] [obs 4 0 (3#2); obs 2 0 (5#2)]) = columns single ∧
  ∀ r, r ∈ rows (Frame ["fep"] [obs 4 0 (3#2); obs 2 0 (5#2)]) →
       r ∈ rows single ∧ in_window (Some 4) (Some 1) (Some (-1)) r.
Proof.
  apply (subsampled_rows_come_from_the_input steady loop_after_if single
           how_auto (Some "fep") (Some 4) (Some 1) (Some (-1))
           true false false _ None).
  left. reflexivity.
Defined.

(** ** The diagnostics record *)

Lemma statistical_inefficiency_loop_of_call ts reading data how column lower
    upper step conservative return_calculated force out calc :
  statistical_inefficiency ts reading data how column lower upper step
    conservative return_calculated force = Ok (out, calc) →
  ∃ resdata calculated,
    statistical_inefficiency_loop ts (groupby (sort_index data)) column
      lower upper step conservative return_calculated force [] ∅
      = Ok (resdata, calculated) ∧
    pd_concat resdata = Ok out ∧
    calc = (if return_calculated then Some calculated else None).
Proof.
  unfold statistical_inefficiency.
  intros ([resdata calculated] & Hloop & Hrest)%bind_Ok.
  apply bind_Ok in Hrest as (df & Hcat & [= -> <-]).
  exists resdata, calculated. split_and!; [|done..].
  destruct reading, (truth column); try done.
  by injection Hloop as <- <-.
Qed.

(** X14: the record [statistical_inefficiency] returns with
    [return_calculated=True] has an entry exactly for every lambda state of
    the input, under ["statinef"] and under no other name. *)
Theorem statistical_inefficiency_record_keys ts reading data how column
    lower upper step conservative force out calc :
  statistical_inefficiency ts reading data how column lower upper step
    conservative true force = Ok (out, calc) →
  ∃ c, calc = Some c ∧
    ∀ stat k, is_Some (entry c stat k) ↔
              stat = "statinef" ∧ k ∈ group_keys (rows data).
Proof.
  intros Hok.
  destruct (statistical_inefficiency_loop_of_call _ _ _ _ _ _ _ _ _ _ _ _ _ Hok)
    as (resdata & c & Hloop & _ & ->).
  exists c. split; [done|]. intros stat k.
  apply statistical_inefficiency_loop_Ok in Hloop as (outs & _ & _ & _ & Hon).
  destruct (Hon eq_refl) as [Hkeep _].
  rewrite groupby_sort_index_keys in Hkeep.
  apply statistical_inefficiency_view in Hok as (_ & _ & _ & _ & Hgroups).
  split.
  - intros Hsome.
    destruct (decide (stat = "statinef")) as [->|Hstat];
      [destruct (decide (k ∈ group_keys (rows data))) as [Hk|Hk]; [done|]|].
    + rewrite Hkeep in Hsome by by right. by destruct Hsome.
    + rewrite Hkeep in Hsome by by left. by destruct Hsome.
  - intros [-> Hk].
    destruct (Hgroups k Hk) as (_ & _ & ? & g & ? & _ & _ & _ & _ & Hcalc).
    destruct (Hcalc eq_refl) as (c' & Hc' & Hentry).
    assert (c' = c) as -> by congruence. by eexists.
Qed.

Lemma statistical_inefficiency_record_keys_witness :
  ∃ c, Some (setitem (setitem ∅ "statinef" [0] (Fin (3 # 2)))
               "statinef" [1] (Fin (3 # 2))) = Some c ∧
    ∀ stat k, is_Some (entry c stat k) ↔
              stat = "statinef" ∧ k ∈ group_keys (rows two_windows).
Proof.
  apply (statistical_inefficiency_record_keys steady loop_after_if two_windows
           how_auto (Some "fep") None None None true false
           (Frame ["fep"] [obs 0 0 (1#2); obs 2 0 (5#2);
                           obs 10 1 (1#2); obs 12 1 (5#2)])).
  reflexivity.
Defined.

Lemma equilibrium_detection_loop_other_names ts groups column lower upper step
    conservative return_calculated force resdata calculated res calc' stat name :
  equilibrium_detection_loop ts groups column lower upper step conservative
    return_calculated force resdata calculated = Ok (res, calc') →
  stat ≠ "t" → stat ≠ "statinef" → stat ≠ "Neff_max" →
  entry calc' stat name = entry calculated stat name.
Proof.
  intros Hloop Ht Hs Hn. revert resdata calculated Hloop.
  induction groups as [|[name' group] groups IH]; intros resdata calculated.
  - by intros [= _ ->].
  - cbn [equilibrium_detection_loop].
    intros ([picked [[t g] n]] & _ & Hrest)%bind_Ok.
    apply IH in Hrest. rewrite Hrest. destruct return_calculated; [|done].
    by rewrite !entry_setitem_ne by by left.
Qed.

(** X15: the record [equilibrium_detection] returns with
    [return_calculated=True] has an entry exactly for every lambda state of
    the input under each of ["t"], ["statinef"] and ["Neff_max"], and under
    no other name. *)
Theorem equilibrium_detection_record_keys ts data how column
    lower upper step conservative force out calc :
  equilibrium_detection ts data how column lower upper step
    conservative true force = Ok (out, calc) →
  ∃ c, calc = Some c ∧
    ∀ stat k, is_Some (entry c stat k) ↔
              stat ∈ ["t"; "statinef"; "Neff_max"] ∧
              k ∈ group_keys (rows data).
Proof.
  intros Hok.
  pose proof (equilibrium_detection_view _ _ _ _ _ _ _ _ _ _ _ _ Hok)
    as (_ & _ & _ & _ & Hgroups).
  unfold equilibrium_detection in Hok.
  apply bind_Ok in Hok as ([resdata c] & Hloop & Hrest).
  apply bind_Ok in Hrest as (df & _ & [= _ <-]).
  exists c. split; [done|]. intros stat k.
  pose proof (equilibrium_detection_loop_other_names
                _ _ _ _ _ _ _ _ _ _ _ _ _ stat k Hloop) as Hother.
  apply equilibrium_detection_loop_Ok in Hloop as (outs & _ & _ & _ & Hon).
  destruct (Hon eq_refl) as [Hkeep _].
  rewrite groupby_sort_index_keys in Hkeep.
  split.
  - intros Hsome.
    destruct (decide (k ∈ group_keys (rows data))) as [Hk|Hk].
    + split; [|done].
      destruct (decide (stat = "t")) as [->|Ht]; [set_solver|].
      destruct (decide (stat = "statinef")) as [->|Hs]; [set_solver|].
      destruct (decide (stat = "Neff_max")) as [->|Hn]; [set_solver|].
      rewrite Hother in Hsome by done. by destruct Hsome.
    + rewrite Hkeep in Hsome by done. by destruct Hsome.
  - intros [Hstat Hk].
    destruct (Hgroups k Hk)
      as (_ & _ & ? & ? & g & ? & ? & ? & _ & _ & _ & _ & _ & Hcalc).
    destruct (Hcalc eq_refl) as (c' & Hc' & Ht & Hs & Hn).
    assert (c' = c) as -> by congruence.
    repeat apply elem_of_cons in Hstat as [->|Hstat]; [by eexists..|].
    by apply elem_of_nil in Hstat.
Qed.

Lemma equilibrium_detection_record_keys_witness :
  ∃ c, Some (setitem (setitem (setitem ∅ "t" [0] (Fin (3 # 2)))
               "statinef" [0] (Fin (3 # 2))) "Neff_max" [0] (Fin (3 # 2)))
       = Some c ∧
    ∀ stat k, is_Some (entry c stat k) ↔
              stat ∈ ["t"; "statinef"; "Neff_max"] ∧
              k ∈ group_keys (rows single).
Proof.
  apply (equilibrium_detection_record_keys steady single how_auto
           (Some "fep") None None None true false
           (Frame ["fep"] [obs 1 0 (3#2); obs 3 0 (1#2); obs 5 0 (5#2)])).
  reflexivity.
Defined.

(** ** [return_calculated] *)

Lemma statistical_inefficiency_loop_tables ts groups column lower upper step
    conservative force resdata calculated1 calculated2 :
  fst <$> statistical_inefficiency_loop ts groups column lower upper step
            conservative true force resdata calculated1
  = fst <$> statistical_inefficiency_loop ts groups column lower upper step
              conservative false force resdata calculated2.
Proof.
  revert resdata calculated1 calculated2.
  induction groups as [|[name group] groups IH];
    intros resdata calculated1 calculated2; [done|].
  cbn [statistical_inefficiency_loop].
  destruct (statistical_inefficiency_group ts group column lower upper step
              conservative force) as [[picked g]|e]; [|done].
  cbn [mbind result_bind]. apply IH.
Qed.

Lemma equilibrium_detection_loop_tables ts groups column lower upper step
    conservative force resdata calculated1 calculated2 :
  fst <$> equilibrium_detection_loop ts groups column lower upper step
            conservative true force resdata calculated1
  = fst <$> equilibrium_detection_loop ts groups column lower upper step
              conservative false force resdata calculated2.
Proof.
  revert resdata calculated1 calculated2.
  induction groups as [|[name group] groups IH];
    intros resdata calculated1 calculated2; [done|].
  cbn [equilibrium_detection_loop].
  destruct (equilibrium_detection_group ts group column lower upper step
              conservative force) as [[picked [[t g] n]]|e]; [|done].
  cbn [mbind result_bind]. apply IH.
Qed.

Lemma fmap_fst_tables (l1 l2 : result (list DataFrame * diagnostics)) b1 b2 :
  fst <$> l1 = fst <$> l2 →
  fst <$> ('(resdata, calculated) ← l1; df ← pd_concat resdata;
           Ok (df, if b1 : bool then Some calculated else None))
  = fst <$> ('(resdata, calculated) ← l2; df ← pd_concat resdata;
             Ok (df, if b2 : bool then Some calculated else None)).
Proof.
  destruct l1 as [[res1 c1]|e1], l2 as [[res2 c2]|e2];
    cbn; intros Heq; try discriminate Heq.
  - injection Heq as ->. by destruct (pd_concat res2).
  - by injection Heq as ->.
Qed.

(** X16: [return_calculated] does not change the table: a subsampler
    returns the same table, or raises the same exception, whether the
    record is asked for or not. *)
Theorem return_calculated_keeps_the_table ts reading data how column
    lower upper step conservative force :
  fst <$> statistical_inefficiency ts reading data how column lower upper step
            conservative true force
  = fst <$> statistical_inefficiency ts reading data how column lower upper
              step conservative false force ∧
  fst <$> equilibrium_detection ts data how column lower upper step
            conservative true force
  = fst <$> equilibrium_detection ts data how column lower upper step
              conservative false force.
Proof.
  unfold statistical_inefficiency, equilibrium_detection. split.
  - apply (fmap_fst_tables _ _ true false).
    destruct reading, (truth column); try done;
      apply statistical_inefficiency_loop_tables.
  - apply (fmap_fst_tables _ _ true false).
    apply equilibrium_detection_loop_tables.
Qed.

(** ** A cutoff past the end of a group *)

(** X17: when the cutoff [t] that [detectEquilibration] returns for a
    lambda state is not below the number of rows of the sliced group, a
    call of [equilibrium_detection] that returns has no row of that state
    in its table. *)
Theorem cutoff_past_the_end_empties_the_group ts data how column lower upper
    step conservative return_calculated force out calc k group_s series t g n :
  equilibrium_detection ts data how column lower upper step conservative
    return_calculated force = Ok (out, calc) →
  k ∈ group_keys (rows data) →
  sliced_group data k lower upper step = Ok group_s →
  getitem group_s column = Ok series →
  ts.(detectEquilibration) series = Ok (t, g, n) →
  (length (rows group_s) ≤ t)%nat →
  group_rows k (rows out) = [].
Proof.
  intros (_ & _ & _ & _ & Hgroups)%equilibrium_detection_view Hk
    [_ ->]%sliced_group_Ok Hs Hdet Hlen.
  destruct (Hgroups k Hk)
    as (_ & _ & series0 & t0 & g0 & n0 & ? & ? & Hs0 & Hdet0 & _ & _ & Hpick & _).
  assert (series0 = series) as -> by congruence.
  assert (t0 = t) as -> by congruence.
  rewrite drop_ge in Hpick by done. by apply take_rows_empty in Hpick.
Qed.

Lemma cutoff_past_the_end_empties_the_group_witness :
  group_rows [1] (rows (Frame ["fep"] [obs 1 0 (3#2)])) = [].
Proof.
  apply (cutoff_past_the_end_empties_the_group steady two_windows how_auto
           (Some "fep") None (Some 10) None true false false
           (Frame ["fep"] [obs 1 0 (3#2)]) None [1]
           (Frame ["fep"] [obs 10 1 (1#2)]) [1#2]%Q 1%nat
           (Fin (3 # 2)) (Fin 2)).
  - reflexivity.
  - decide_by_computation.
  - reflexivity.
  - reflexivity.
  - reflexivity.
  - simpl. lia.
Defined.

(** ** One lambda state at a time, for the subsamplers *)

Lemma sort_index_get_group_swap data k :
  sort_index (get_group data k) = get_group (sort_index data) k.
Proof.
  unfold sort_index, get_group. simpl. f_equal. symmetry.
  apply (filter_stable_sort index_leb index_leb_total index_leb_trans).
Qed.

Lemma groupby_of_group data k :
  k ∈ group_keys (rows data) →
  groupby (sort_index (get_group data k)) = [(k, get_group (sort_index data) k)].
Proof.
  intros Hk. rewrite sort_index_get_group_swap.
  apply groupby_get_group. by rewrite group_keys_sort_index.
Qed.

Lemma slicing_sorted_group_returns data k lower upper step :
  k ∈ group_keys (rows data) → step ≠ Some 0 →
  NoDup (time <$> rows (sliced_frame data k lower upper step)) →
  slicing (get_group (sort_index data) k) lower upper step false
  = Ok (sliced_frame data k lower upper step).
Proof.
  intros Hk Hstep Hnd.
  rewrite slicing_get_group;
    [|apply sort_index_sorted|by rewrite group_keys_sort_index|done].
  fold (sliced_frame data k lower upper step).
  by rewrite (proj2 (check_multiple_times_false _)).
Qed.

Lemma group_check_passes data k force :
  (force = false → NoDup (time <$> group_rows k (rows (sort_index data)))) →
  negb force && _check_multiple_times (get_group (sort_index data) k) = false.
Proof.
  destruct force; [done|]. intros Hnd. simpl.
  apply check_multiple_times_false. by apply Hnd.
Qed.

(** X18: the subsamplers treat every lambda state on its own: when a call
    returns on a table, the same call on the rows of any one lambda state
    of that table handed in alone returns too, and its table is that
    state's part of the table of the whole call. *)
Theorem subsamplers_group_by_group ts reading data how column lower upper step
    conservative return_calculated force k :
  k ∈ group_keys (rows data) →
  (∀ out calc,
     statistical_inefficiency ts reading data how column lower upper step
       conservative return_calculated force = Ok (out, calc) →
     ∃ calc',
       statistical_inefficiency ts reading (get_group data k) how column
         lower upper step conservative return_calculated force
       = Ok (get_group out k, calc')) ∧
  (∀ out calc,
     equilibrium_detection ts data how column lower upper step
       conservative return_calculated force = Ok (out, calc) →
     ∃ calc',
       equilibrium_detection ts (get_group data k) how column
         lower upper step conservative return_calculated force
       = Ok (get_group out k, calc')).
Proof.
  intros Hk. split; intros out calc Hok.
  - assert (match reading with
            | loop_after_if => true
            | loop_inside_if => truth column
            end = true) as Henters.
    { unfold statistical_inefficiency in Hok.
      by destruct reading, (truth column). }
    pose proof (statistical_inefficiency_Ok_step _ _ _ _ _ _ _ _ _ _ _ _ _ Hok)
      as Hstep.
    apply statistical_inefficiency_view in Hok as (_ & Hcols & _ & _ & Hgroups).
    destruct (Hgroups k Hk)
      as (Hnd & Hforce & series & g & indices & Hs & Hg & Hidx & Hpick & _).
    unfold statistical_inefficiency.
    rewrite Henters, groupby_of_group by done.
    cbn [statistical_inefficiency_loop]. unfold statistical_inefficiency_group.
    rewrite slicing_sorted_group_returns, group_check_passes by done.
    cbn [mbind result_bind]. rewrite Hs. cbn [mbind result_bind].
    rewrite Hg. cbn [mbind result_bind]. rewrite Hidx. cbn [mbind result_bind].
    unfold iloc. rewrite Hpick. cbn [mbind result_bind app].
    rewrite pd_concat_singleton. unfold get_group. rewrite Hcols.
    by eexists.
  - pose proof (equilibrium_detection_Ok_step _ _ _ _ _ _ _ _ _ _ _ _ Hok)
      as Hstep.
    apply equilibrium_detection_view in Hok as (_ & Hcols & _ & _ & Hgroups).
    destruct (Hgroups k Hk)
      as (Hnd & Hforce & series & t & g & n & series' & indices
          & Hs & Hg & Hs' & Hidx & Hpick & _).
    unfold equilibrium_detection. rewrite groupby_of_group by done.
    cbn [equilibrium_detection_loop]. unfold equilibrium_detection_group.
    rewrite slicing_sorted_group_returns, group_check_passes by done.
    cbn [mbind result_bind]. rewrite Hs. cbn [mbind result_bind].
    rewrite Hg. cbn [mbind result_bind]. rewrite Hs'. cbn [mbind result_bind].
    rewrite Hidx. cbn [mbind result_bind].
    unfold iloc. cbn [iloc_from rows columns]. rewrite Hpick.
    cbn [mbind result_bind app].
    rewrite pd_concat_singleton. unfold get_group. rewrite Hcols.
    by eexists.
Qed.

Lemma subsamplers_group_by_group_witness :
  (∀ out calc,
     statistical_inefficiency steady loop_after_if two_windows how_auto
       (Some "fep") None None None true true false = Ok (out, calc) →
     ∃ calc',
       statistical_inefficiency steady loop_after_if (get_group two_windows [1])
         how_auto (Some "fep") None None None true true false
       = Ok (get_group out [1], calc')) ∧
  (∀ out calc,
     equilibrium_detection steady two_windows how_auto
       (Some "fep") None None None true true false = Ok (out, calc) →
     ∃ calc',
       equilibrium_detection steady (get_group two_windows [1])
         how_auto (Some "fep") None None None true true false
       = Ok (get_group out [1], calc')).
Proof.
  apply subsamplers_group_by_group. decide_by_computation.
Defined.

(** ** The rows kept for a lambda state *)

(** X19: when [statistical_inefficiency] returns, the rows of a lambda
    state in its table are the rows of the sliced group at the positions
    that [subsampleCorrelatedData] returned for the group's column and
    estimate, one row for each position and in the order of the positions;
    every position lies inside the sliced group. *)
Theorem statistical_inefficiency_keeps_the_positions ts reading data how column
    lower upper step conservative return_calculated force out calc k :
  statistical_inefficiency ts reading data how column lower upper step
    conservative return_calculated force = Ok (out, calc) →
  k ∈ group_keys (rows data) →
  ∃ group_s series g indices,
    sliced_group data k lower upper step = Ok group_s ∧
    getitem group_s column = Ok series ∧
    ts.(statisticalInefficiency) series = Ok g ∧
    ts.(subsampleCorrelatedData) series g conservative = Ok indices ∧
    Forall2 (λ i r, rows group_s !! i = Some r) indices (group_rows k (rows out)) ∧
    Forall (λ i, i < length (rows group_s))%nat indices.
Proof.
  intros Hok Hk.
  pose proof (statistical_inefficiency_Ok_step _ _ _ _ _ _ _ _ _ _ _ _ _ Hok)
    as Hstep.
  apply statistical_inefficiency_view in Hok as (_ & _ & _ & _ & Hgroups).
  destruct (Hgroups k Hk)
    as (_ & _ & series & g & indices & Hs & Hg & Hidx & Hpick & _).
  exists (sliced_frame data k lower upper step), series, g, indices.
  apply take_rows_Ok in Hpick.
  split_and!; [by apply sliced_group_nonzero|done..|].
  apply Forall_forall. intros i Hi.
  apply list_elem_of_lookup in Hi as [j Hj].
  destruct (Forall2_lookup_l _ _ _ _ _ Hpick Hj) as (r & _ & Hr).
  by eapply lookup_lt_Some.
Qed.

Lemma statistical_inefficiency_keeps_the_positions_witness :
  ∃ group_s series g indices,
    sliced_group single [0] (Some 1) None None = Ok group_s ∧
    getitem group_s (Some "fep") = Ok series ∧
    steady.(statisticalInefficiency) series = Ok g ∧
    steady.(subsampleCorrelatedData) series g true = Ok indices ∧
    Forall2 (λ i r, rows group_s !! i = Some r) indices
      (group_rows [0]
         (rows (Frame ["fep"] [obs 1 0 (3#2); obs 3 0 (1#2); obs 5 0 (5#2)]))) ∧
    Forall (λ i, i < length (rows group_s))%nat indices.
Proof.
  apply (statistical_inefficiency_keeps_the_positions steady loop_after_if
           single how_auto (Some "fep") (Some 1) None None true false false
           _ None).
  - reflexivity.
  - decide_by_computation.
Defined.

(** ** The order of the rows a subsampler returns *)

Lemma mjoin_keyed keys (rss : list (list row)) :
  NoDup keys →
  Forall2 (λ k rs, Forall (λ r, lambdas r = k) rs) keys rss →
  rss = (λ k, group_rows k (mjoin rss)) <$> keys.
Proof.
  intros Hnd Hall. apply list_eq. intros i. rewrite list_lookup_fmap.
  destruct (keys !! i) as [k|] eqn:Hk; simpl.
  - destruct (Forall2_lookup_l _ _ _ _ _ Hall Hk) as (rs & Hrs & _).
    rewrite Hrs. f_equal. symmetry.
    by apply (group_rows_mjoin_lookup keys rss i).
  - apply lookup_ge_None. rewrite <-(Forall2_length _ _ _ Hall).
    by apply lookup_ge_None.
Qed.

Lemma statistical_inefficiency_rows_grouped ts reading data how column lower
    upper step conservative return_calculated force out calc :
  statistical_inefficiency ts reading data how column lower upper step
    conservative return_calculated force = Ok (out, calc) →
  rows out = mjoin ((λ k, group_rows k (rows out)) <$> group_keys (rows data)).
Proof.
  intros Hok.
  destruct (statistical_inefficiency_loop_of_call _ _ _ _ _ _ _ _ _ _ _ _ _ Hok)
    as (resdata & c & Hloop & Hcat & _).
  apply statistical_inefficiency_loop_Ok in Hloop as (outs & Houts & -> & _).
  rewrite groupby_sort_index, Forall2_fmap_l in Houts. simpl in Houts.
  apply pd_concat_Ok in Hcat as (_ & Hrows & _). simpl in Hrows.
  rewrite Hrows at 1. rewrite Hrows. f_equal.
  apply mjoin_keyed; [apply group_keys_NoDup|].
  rewrite !Forall2_fmap_r. eapply Forall2_impl; [exact Houts|].
  intros k [picked g] (_ & _ & _ & ? & ? & _ & _ & _ & _ & Hpick)
    %statistical_inefficiency_group_Ok.
  by eapply picked_rows_key.
Qed.

Lemma equilibrium_detection_rows_grouped ts data how column lower
    upper step conservative return_calculated force out calc :
  equilibrium_detection ts data how column lower upper step
    conservative return_calculated force = Ok (out, calc) →
  rows out = mjoin ((λ k, group_rows k (rows out)) <$> group_keys (rows data)).
Proof.
  unfold equilibrium_detection.
  intros ([resdata c] & Hloop & Hrest)%bind_Ok.
  apply bind_Ok in Hrest as (df & Hcat & [= -> _]).
  apply equilibrium_detection_loop_Ok in Hloop as (outs & Houts & -> & _).
  rewrite groupby_sort_index, Forall2_fmap_l in Houts. simpl in Houts.
  apply pd_concat_Ok in Hcat as (_ & Hrows & _). simpl in Hrows.
  rewrite Hrows at 1. rewrite Hrows. f_equal.
  apply mjoin_keyed; [apply group_keys_NoDup|].
  rewrite !Forall2_fmap_r. eapply Forall2_impl; [exact Houts|].
  intros k [picked [[t g] n]]
    (_ & _ & _ & ? & ? & ? & _ & _ & _ & _ & _ & Hpick)
    %equilibrium_detection_group_Ok.
  apply Forall_forall. intros r Hr.
  apply take_rows_subseteq in Hpick. apply Hpick in Hr.
  eapply sublist_subseteq in Hr; [|apply sublist_drop].
  pose proof (sliced_frame_key data k lower upper step) as Hkey.
  rewrite Forall_forall in Hkey. by apply Hkey.
Qed.

(** X20: when the collaborator returns positions in increasing order, the
    table a subsampler returns is in lambda-state-key-major order: the
    lambda states follow each other in ascending order of their key, and
    within a state the times follow the walk of the slice, increasing
    strictly for a step that is unset or positive and decreasing strictly
    for a negative one. *)
Theorem subsampled_rows_are_ordered ts reading data how column lower upper
    step conservative return_calculated force out calc :
  ordered_positions ts →
  statistical_inefficiency ts reading data how column lower upper step
    conservative return_calculated force = Ok (out, calc) ∨
  equilibrium_detection ts data how column lower upper step
    conservative return_calculated force = Ok (out, calc) →
  StronglySorted (walk_major step) (rows out).
Proof.
  intros Hord [Hok|Hok].
  - rewrite (statistical_inefficiency_rows_grouped _ _ _ _ _ _ _ _ _ _ _ _ _ Hok).
    apply statistical_inefficiency_view in Hok as (_ & _ & _ & Hout & Hgroups).
    apply (mjoin_groups_walk_sorted step (λ k, group_rows k (rows out))).
    + apply group_keys_sorted.
    + intros k. apply group_rows_key.
    + intros k. destruct (decide (k ∈ group_keys (rows data))) as [Hk|Hk];
        [|rewrite (Hout k Hk); constructor].
      destruct (Hgroups k Hk)
        as (Hnd & _ & ? & ? & indices & _ & _ & Hidx & Hpick & _).
      eapply StronglySorted_sublist;
        [|by apply (sliced_frame_time_sorted data k lower upper step)].
      eapply take_rows_sublist; [|done]. by eapply Hord.
  - rewrite (equilibrium_detection_rows_grouped _ _ _ _ _ _ _ _ _ _ _ _ Hok).
    apply equilibrium_detection_view in Hok as (_ & _ & _ & Hout & Hgroups).
    apply (mjoin_groups_walk_sorted step (λ k, group_rows k (rows out))).
    + apply group_keys_sorted.
    + intros k. apply group_rows_key.
    + intros k. destruct (decide (k ∈ group_keys (rows data))) as [Hk|Hk];
        [|rewrite (Hout k Hk); constructor].
      destruct (Hgroups k Hk)
        as (Hnd & _ & ? & t & ? & ? & ? & indices & _ & _ & _ & Hidx & Hpick & _).
      eapply StronglySorted_sublist;
        [|by apply (sliced_frame_time_sorted data k lower upper step)].
      etrans; [|apply (sublist_drop _ t)].
      eapply take_rows_sublist; [|done]. by eapply Hord.
Qed.

Lemma subsampled_rows_are_ordered_witness :
  StronglySorted (walk_major (Some (-1)))
    (rows (Frame ["fep"] [obs 2 0 (5#2); obs 0 0 (1#2);
                          obs 12 1 (5#2); obs 10 1 (1#2)])).
Proof.
  apply (subsampled_rows_are_ordered steady loop_after_if two_windows how_auto
           (Some "fep") None None (Some (-1)) true false false _ None).
  - apply with_estimators_ordered.
  - left. reflexivity.
Defined.

(** ** Bounds that leave nothing *)

(** X21: a window that is empty is no error for [slicing]: for a step that
    is unset or positive a lower bound above the upper bound, for a
    negative step a lower bound below the upper bound.  On a table with a
    row it returns the table without rows, whatever [force] is. *)
Theorem slicing_crossed_bounds data lo up step force :
  (if backward step then lo < up else up < lo) →
  step ≠ Some 0 → rows data ≠ [] →
  slicing data (Some lo) (Some up) step force = Ok (Frame (columns data) []).
Proof.
  intros Hcross Hstep Hne.
  assert (∀ k, rows (sliced_frame data k (Some lo) (Some up) step) = []) as Hnil.
  { intros k. rewrite sliced_frame_rows.
    assert (window_rows (Some lo) (Some up) step
              (group_rows k (rows (sort_index data))) = []) as ->; [|done].
    unfold window_rows.
    induction (group_rows k (rows (sort_index data))) as [|r rs IH];
      [by destruct (backward step)|].
    destruct (backward step); rewrite filter_cons_False; try done;
      unfold in_range; simpl; lia. }
  destruct (slicing_returns data (Some lo) (Some up) step force) as [out Hout].
  { done. }
  { done. }
  { intros _ k _. rewrite Hnil. constructor. }
  rewrite Hout. f_equal.
  apply slicing_Ok in Hout as (_ & Hcols & Hrows & _).
  destruct out as [cs rs]. simpl in *. f_equal; [done|].
  rewrite Hrows. apply join_nil_2, Forall_fmap, Forall_forall.
  intros k _. apply Hnil.
Qed.

Lemma slicing_crossed_bounds_witness :
  slicing two_windows (Some 1) (Some 11) (Some (-2)) false
  = Ok (Frame (columns two_windows) []).
Proof. apply slicing_crossed_bounds; [simpl; lia|done|done]. Defined.

(** ** What [slicing] guarantees to its caller *)

(** X22: the table [slicing] returns with [force=False] has no repeated
    time in any lambda state, whatever the input was outside the bounds. *)
Theorem slicing_output_has_unique_times data lower upper step out :
  slicing data lower upper step false = Ok out → unique_times out.
Proof.
  intros Hout. apply Forall_forall. intros k _.
  rewrite (slicing_group_rows _ _ _ _ _ _ k Hout).
  apply slicing_Ok in Hout as (_ & _ & _ & Hnd). by apply Hnd.
Qed.

Lemma slicing_output_has_unique_times_witness :
  unique_times (Frame ["fep"] [obs 5 0 (5#2); obs 6 0 (7#2)]).
Proof.
  apply (slicing_output_has_unique_times early_repeat (Some 3) None None).
  reflexivity.
Defined.

(** ** Slicing first, subsampling afterwards *)

Lemma statistical_inefficiency_loop_ext ts groups1 groups2 column
    lower1 upper1 step1 lower2 upper2 step2 conservative return_calculated
    force resdata calculated :
  Forall2 (λ g1 g2, g1.1 = g2.1 ∧
     statistical_inefficiency_group ts g1.2 column lower1 upper1 step1
       conservative force
     = statistical_inefficiency_group ts g2.2 column lower2 upper2 step2
         conservative force) groups1 groups2 →
  statistical_inefficiency_loop ts groups1 column lower1 upper1 step1
    conservative return_calculated force resdata calculated
  = statistical_inefficiency_loop ts groups2 column lower2 upper2 step2
      conservative return_calculated force resdata calculated.
Proof.
  intros Hall. revert resdata calculated.
  induction Hall as [|[k1 g1] [k2 g2] groups1 groups2 [Hk Hbody] _ IH];
    intros resdata calculated; [done|].
  simpl in Hk, Hbody. subst k2.
  cbn [statistical_inefficiency_loop]. rewrite Hbody.
  destruct (statistical_inefficiency_group ts g2 column lower2 upper2 step2
              conservative force) as [[picked g]|e]; [|done].
  cbn [mbind result_bind]. apply IH.
Qed.

Lemma equilibrium_detection_loop_ext ts groups1 groups2 column
    lower1 upper1 step1 lower2 upper2 step2 conservative return_calculated
    force resdata calculated :
  Forall2 (λ g1 g2, g1.1 = g2.1 ∧
     equilibrium_detection_group ts g1.2 column lower1 upper1 step1
       conservative force
     = equilibrium_detection_group ts g2.2 column lower2 upper2 step2
         conservative force) groups1 groups2 →
  equilibrium_detection_loop ts groups1 column lower1 upper1 step1
    conservative return_calculated force resdata calculated
  = equilibrium_detection_loop ts groups2 column lower2 upper2 step2
      conservative return_calculated force resdata calculated.
Proof.
  intros Hall. revert resdata calculated.
  induction Hall as [|[k1 g1] [k2 g2] groups1 groups2 [Hk Hbody] _ IH];
    intros resdata calculated; [done|].
  simpl in Hk, Hbody. subst k2.
  cbn [equilibrium_detection_loop]. rewrite Hbody.
  destruct (equilibrium_detection_group ts g2 column lower2 upper2 step2
              conservative force) as [[picked [[t g] n]]|e]; [|done].
  cbn [mbind result_bind]. apply IH.
Qed.

Section SlicedFirst.
Variables (data sliced : DataFrame) (lower upper : option Z).
Variable step : option Z.
Hypothesis data_unique : unique_times data.
Hypothesis forward : backward step = false.
Hypothesis groups_left :
  ∀ k, k ∈ group_keys (rows data) →
       rows (sliced_frame data k lower upper step) ≠ [].
Hypothesis sliced_ok : slicing data lower upper step false = Ok sliced.

Lemma sliced_first_keys : group_keys (rows sliced) = group_keys (rows data).
Proof.
  apply (StronglySorted_unique_strong tuple_lt).
  - intros k1 k2 _ _ [H12 _] [H21 _]. by apply tuple_leb_antisym.
  - apply group_keys_sorted.
  - apply group_keys_sorted.
  - apply NoDup_Permutation; [apply group_keys_NoDup..|]. intros k.
    pose proof (slicing_group_rows _ _ _ _ _ _ k sliced_ok) as Hrows. split.
    + intros Hk%group_rows_nonempty. rewrite Hrows in Hk.
      destruct (decide (k ∈ group_keys (rows data))) as [|Hno]; [done|].
      by destruct Hk; apply sliced_frame_not_key.
    + intros Hk%groups_left. rewrite <-Hrows in Hk.
      destruct (decide (k ∈ group_keys (rows sliced))) as [|Hno]; [done|].
      by destruct Hk; apply group_rows_not_key.
Qed.

Lemma sliced_first_group k :
  get_group (sort_index sliced) k = sliced_frame data k lower upper step.
Proof.
  pose proof (slicing_Ok _ _ _ _ _ _ sliced_ok) as (_ & Hcols & _ & _).
  unfold get_group.
  rewrite group_rows_sort_index, (slicing_group_rows _ _ _ _ _ _ k sliced_ok).
  rewrite stable_sort_id.
  - change (columns (sort_index sliced)) with (columns sliced).
    rewrite Hcols. reflexivity.
  - eapply StronglySorted_sublist; [apply sliced_frame_sublist|].
    rewrite forward. apply StronglySorted_filter, sort_index_sorted.
Qed.

Lemma sliced_first_groupby :
  groupby (sort_index sliced) =
    (λ k, (k, sliced_frame data k lower upper step)) <$> group_keys (rows data).
Proof.
  rewrite groupby_sort_index, sliced_first_keys.
  apply Forall_fmap_ext, Forall_forall. intros k _.
  by rewrite sliced_first_group.
Qed.

Lemma sliced_first_slicing k :
  k ∈ group_keys (rows data) →
  slicing (sliced_frame data k lower upper step) None None None false
  = Ok (sliced_frame data k lower upper step).
Proof.
  intros Hk. rewrite <-sliced_first_group at 1.
  rewrite slicing_sorted_group_returns.
  - unfold sliced_frame at 1. by rewrite loc_frame_unbounded, sliced_first_group.
  - by rewrite sliced_first_keys.
  - done.
  - unfold sliced_frame at 1. rewrite loc_frame_unbounded, sliced_first_group.
    by apply sliced_frame_unique.
Qed.

Lemma sliced_first_check k force :
  negb force && _check_multiple_times (sliced_frame data k lower upper step)
  = false.
Proof.
  rewrite (proj2 (check_multiple_times_false _)); [apply andb_false_r|].
  by apply sliced_frame_unique.
Qed.

Lemma sliced_first_statistical_inefficiency_group ts column conservative force k :
  k ∈ group_keys (rows data) →
  statistical_inefficiency_group ts (sliced_frame data k lower upper step)
    column None None None conservative force
  = statistical_inefficiency_group ts (get_group (sort_index data) k)
      column lower upper step conservative force.
Proof.
  intros Hk. unfold statistical_inefficiency_group.
  rewrite sliced_first_slicing, sliced_first_check by done.
  rewrite slicing_sorted_group_returns, group_check_passes; [done|..].
  - intros _. by apply unique_times_sorted_group.
  - done.
  - by eapply slicing_Ok_step.
  - by apply sliced_frame_unique.
Qed.

Lemma sliced_first_equilibrium_detection_group ts column conservative force k :
  k ∈ group_keys (rows data) →
  equilibrium_detection_group ts (sliced_frame data k lower upper step)
    column None None None conservative force
  = equilibrium_detection_group ts (get_group (sort_index data) k)
      column lower upper step conservative force.
Proof.
  intros Hk. unfold equilibrium_detection_group.
  rewrite sliced_first_slicing, sliced_first_check by done.
  rewrite slicing_sorted_group_returns, group_check_passes; [done|..].
  - intros _. by apply unique_times_sorted_group.
  - done.
  - by eapply slicing_Ok_step.
  - by apply sliced_frame_unique.
Qed.
End SlicedFirst.

(** X23: on a table without repeated times in a lambda state, for a step
    that is unset or positive, slicing first and subsampling the sliced
    table without bounds is subsampling the table with those bounds, for
    both subsamplers and with the same record, as long as the bounds leave
    a row to every lambda state. *)
Theorem slicing_first_is_the_preslice ts reading data sliced how column
    lower upper step conservative return_calculated force :
  unique_times data →
  backward step = false →
  (∀ k group_s, k ∈ group_keys (rows data) →
                sliced_group data k lower upper step = Ok group_s →
                rows group_s ≠ []) →
  slicing data lower upper step false = Ok sliced →
  statistical_inefficiency ts reading sliced how column None None None
    conservative return_calculated force
  = statistical_inefficiency ts reading data how column lower upper step
      conservative return_calculated force ∧
  equilibrium_detection ts sliced how column None None None
    conservative return_calculated force
  = equilibrium_detection ts data how column lower upper step
      conservative return_calculated force.
Proof.
  intros Hu Hfwd Hleft Hsl.
  pose proof (slicing_Ok_step _ _ _ _ _ _ Hsl) as Hstep.
  assert (∀ k, k ∈ group_keys (rows data) →
               rows (sliced_frame data k lower upper step) ≠ []) as Hleft'.
  { intros k Hk. apply (Hleft k _ Hk). by apply sliced_group_nonzero. }
  unfold statistical_inefficiency, equilibrium_detection.
  rewrite (sliced_first_groupby data sliced lower upper step Hfwd Hleft' Hsl).
  rewrite (groupby_sort_index data).
  rewrite (statistical_inefficiency_loop_ext ts _
             ((λ k, (k, get_group (sort_index data) k))
                <$> group_keys (rows data)) column None None None
             lower upper step).
  - rewrite (equilibrium_detection_loop_ext ts _
               ((λ k, (k, get_group (sort_index data) k))
                  <$> group_keys (rows data)) column None None None
               lower upper step); [done|].
    apply Forall2_fmap, Forall_Forall2_diag, Forall_forall. intros k Hk.
    split; [done|]. simpl.
    by apply (sliced_first_equilibrium_detection_group data sliced).
  - apply Forall2_fmap, Forall_Forall2_diag, Forall_forall. intros k Hk.
    split; [done|]. simpl.
    by apply (sliced_first_statistical_inefficiency_group data sliced).
Qed.

Lemma slicing_first_is_the_preslice_witness :
  statistical_inefficiency steady loop_after_if
    (Frame ["fep"] [obs 1 0 (3#2); obs 2 0 (5#2); obs 10 1 (1#2); obs 11 1 (3#2)])
    how_auto (Some "fep") None None None true true false
  = statistical_inefficiency steady loop_after_if two_windows how_auto
      (Some "fep") (Some 1) (Some 11) None true true false ∧
  equilibrium_detection steady
    (Frame ["fep"] [obs 1 0 (3#2); obs 2 0 (5#2); obs 10 1 (1#2); obs 11 1 (3#2)])
    how_auto (Some "fep") None None None true true false
  = equilibrium_detection steady two_windows how_auto
      (Some "fep") (Some 1) (Some 11) None true true false.
Proof.
  apply slicing_first_is_the_preslice.
  - decide_by_computation.
  - reflexivity.
  - intros k group_s Hk.
    change (group_keys (rows two_windows)) with [[0]; [1]] in Hk.
    apply elem_of_cons in Hk as [->|Hk]; [by intros [= <-]|].
    apply list_elem_of_singleton in Hk as ->. by intros [= <-].
  - reflexivity.
Defined.

(** ** A step of 0 and a step of -1 *)

(** X24: with a step of 0 nothing is subsampled: on a table with a row
    both subsamplers raise the [ValueError] of the slice on the first
    lambda state, before the test for repeated times and before the
    collaborator is called, whatever the column, the bounds and the flags.
    Only when the loop of [statistical_inefficiency] is read as the body of
    line 172 and [column] is not set is the slice not reached, and the
    exception is the one of [pd.concat]. *)
Theorem subsamplers_raise_on_step_zero ts reading data how column lower upper
    conservative return_calculated force :
  rows data ≠ [] →
  statistical_inefficiency ts reading data how column lower upper (Some 0)
    conservative return_calculated force
  = Raise (match reading with
           | loop_after_if => SliceStepZero
           | loop_inside_if =>
               if truth column then SliceStepZero else NoObjectsToConcatenate
           end) ∧
  equilibrium_detection ts data how column lower upper (Some 0)
    conservative return_calculated force = Raise SliceStepZero.
Proof.
  intros Hne. split.
  - rewrite statistical_inefficiency_zero by done. by destruct reading.
  - by apply equilibrium_detection_zero.
Qed.

Lemma subsamplers_raise_on_step_zero_witness :
  statistical_inefficiency steady loop_after_if repeated how_auto (Some "fep")
    None None (Some 0) true false false
  = Raise (match loop_after_if with
           | loop_after_if => SliceStepZero
           | loop_inside_if =>
               if truth (Some "fep") then SliceStepZero
               else NoObjectsToConcatenate
           end) ∧
  equilibrium_detection steady repeated how_auto (Some "fep")
    None None (Some 0) true false false = Raise SliceStepZero.
Proof. by apply subsamplers_raise_on_step_zero. Defined.

(** X25: a step of [-1] turns every lambda state round: when [slicing]
    returns with the bounds [lower], [upper] and the step [-1], it returns
    as well with the bounds exchanged and no step, and every lambda state
    of the first table holds the rows of that state of the second table in
    the opposite order. *)
Theorem slicing_backward_reverses data lower upper force out :
  slicing data lower upper (Some (-1)) force = Ok out →
  ∃ out', slicing data upper lower None force = Ok out' ∧
    columns out = columns out' ∧
    ∀ k, group_rows k (rows out) = reverse (group_rows k (rows out')).
Proof.
  intros Hout.
  assert (∀ k, rows (sliced_frame data k lower upper (Some (-1)))
               = reverse (rows (sliced_frame data k upper lower None))) as Hrev.
  { intros k. rewrite sliced_frame_rows_unset, sliced_frame_rows.
    apply every_from_one. }
  pose proof (slicing_Ok _ _ _ _ _ _ Hout) as (Hne & Hcols & _ & Hnd).
  destruct (slicing_returns data upper lower None force) as [out' Hout'].
  { done. }
  { done. }
  { intros Hf k _. specialize (Hnd Hf k).
    by rewrite Hrev, fmap_reverse, reverse_Permutation in Hnd. }
  exists out'. split; [done|]. split.
  - apply slicing_Ok in Hout' as (_ & Hcols' & _). congruence.
  - intros k. by rewrite (slicing_group_rows _ _ _ _ _ _ k Hout),
      (slicing_group_rows _ _ _ _ _ _ k Hout'), Hrev.
Qed.

Lemma slicing_backward_reverses_witness :
  ∃ out', slicing two_windows (Some 1) (Some 11) None false = Ok out' ∧
    columns (Frame ["fep"] [obs 2 0 (5#2); obs 1 0 (3#2);
                            obs 11 1 (3#2); obs 10 1 (1#2)]) = columns out' ∧
    ∀ k, group_rows k (rows (Frame ["fep"] [obs 2 0 (5#2); obs 1 0 (3#2);
                                            obs 11 1 (3#2); obs 10 1 (1#2)]))
         = reverse (group_rows k (rows out')).
Proof.
  apply (slicing_backward_reverses two_windows (Some 11) (Some 1) false).
  reflexivity.
Defined.
